(** * dRonin ground control station: KML export, log frame decoder

    A shallow embedding of the two passes that [kmlexport.cpp] makes over a
    recorded telemetry log:

    - [KmlExport::preparseLogFile], the index pass, which records the offset
      and the timestamp of every frame and resynchronises one byte at a time
      when the sync bytes of a size field are wrong;
    - [KmlExport::parseLogFile], the streaming pass, which forwards every
      payload byte to the UAVTalk decoder and stops at an unlikely packet
      size.

    The log file is a [QFile]; integers are read from it by copying raw bytes
    over the variable, so a read that comes back short leaves the upper bytes
    of the variable as they were.  The ground station runs on little-endian
    hosts, and the embedding fixes that byte order. *)

From Stdlib Require Import ZArith List Lia Bool Sorted.
From coqutil Require Import Byte Word.LittleEndianList Z.bitblast.
Import ListNotations.
Local Open Scope Z_scope.

(** ** Fixed-width integers of the source *)

(** [quint32]: value of an unsigned 32-bit variable. *)
Definition to_quint32 (x : Z) : Z := x mod 2 ^ 32.

(** [quint64]: value of an unsigned 64-bit variable. *)
Definition to_quint64 (x : Z) : Z := x mod 2 ^ 64.

(** [qint64]: value of a signed 64-bit variable holding the bit pattern of
    [x] (two's complement). *)
Definition to_qint64 (x : Z) : Z :=
  let u := x mod 2 ^ 64 in
  if u <? 2 ^ 63 then u else u - 2 ^ 64.

(** [logFile.read(&var, width)]: the bytes [got] that the device
    returned overwrite the low bytes of the [width]-byte variable whose
    previous content is [var]; the bytes beyond [got] keep their previous
    content.  The result is the unsigned value of the variable. *)
Definition load (width : nat) (var : Z) (got : list byte) : Z :=
  le_combine (got ++ skipn (length got) (le_split width var)).

(** ** The log file: a random-access [QFile] opened read-only *)

Module QFile.

Record t : Type := mk {
  content : list byte;  (* the bytes of the file on disk *)
  cursor : Z;           (* QIODevice's position *)
  isOpen : bool
}.

Definition size (f : t) : Z := Z.of_nat (length (content f)).

Definition pos (f : t) : Z := cursor f.

(** For a random-access device: [qMax(size() - pos, 0)]. *)
Definition bytesAvailable (f : t) : Z := Z.max (size f - cursor f) 0.

(** A closed file is at its end; an open one when nothing is available. *)
Definition atEnd (f : t) : bool :=
  if isOpen f then bytesAvailable f =? 0 else true.

(** The bytes from the cursor on. *)
Definition remaining (f : t) : list byte :=
  skipn (Z.to_nat (cursor f)) (content f).

(** [read(maxSize)]: at most [maxSize] bytes from the cursor on; the cursor
    moves past the bytes returned.  A closed device returns nothing. *)
Definition read (f : t) (maxSize : Z) : list byte * t :=
  if isOpen f then
    let got := firstn (Z.to_nat maxSize) (remaining f) in
    (got, mk (content f) (cursor f + Z.of_nat (length got)) true)
  else ([], f).

(** [seek(pos)]: refused on a closed device and for a negative position;
    a position past the end of the file is accepted. *)
Definition seek (f : t) (p : Z) : t :=
  if isOpen f && (0 <=? p) then mk (content f) p true else f.

(** [close()]: the position is reset. *)
Definition close (f : t) : t := mk (content f) 0 false.

End QFile.

(** ** The exporter object *)

(** The modal message boxes of the two passes. *)
Inductive MessageBox : Type :=
| NonSequentialTimestamps  (* "Timestamps are not sequential. ..." *)
| EmptyLogfile             (* "No log data can be found." *)
| IncorrectPacketSize.     (* "Incorrect packet size. Stopping export. ..." *)

(** Modelled from the spec: the element type of [timestampPos].  The list is
    declared in [kmlexport.h], which is not among the sources; the spec has
    the offset of an index entry as a 64-bit unsigned integer, the type the
    source gives [logFileStartIdx]. *)
Definition to_offset (x : Z) : Z := to_quint64 x.

(** The members of [KmlExport] that the two passes read or write.  [kmlTalk]
    stands for the UAVTalk instance: the bytes handed to [processInputByte],
    oldest first.  [shown] lists the message boxes executed, oldest first. *)
Record KmlExport : Type := mkKmlExport {
  logFile : QFile.t;
  timestampBuffer : list Z;   (* QList of quint32 *)
  timestampPos : list Z;      (* QList of offsets *)
  timeStamp : Z;              (* quint32 *)
  kmlTalk : list byte;
  shown : list MessageBox
}.

Definition set_logFile (st : KmlExport) (f : QFile.t) : KmlExport :=
  mkKmlExport f (timestampBuffer st) (timestampPos st) (timeStamp st)
    (kmlTalk st) (shown st).

Definition show (st : KmlExport) (m : MessageBox) : KmlExport :=
  mkKmlExport (logFile st) (timestampBuffer st) (timestampPos st)
    (timeStamp st) (kmlTalk st) (shown st ++ [m]).

(** [KmlExport::stopExport]: only closes the log file. *)
Definition stopExport (st : KmlExport) : KmlExport :=
  set_logFile st (QFile.close (logFile st)).

(** [UAVTalk::processInputByte], seen from the exporter: one more byte
    received. *)
Definition processInputByte (talk : list byte) (b : byte) : list byte :=
  talk ++ [b].

(** [timestampBuffer.clear(); timestampPos.clear();] *)
Definition clear_index (st : KmlExport) : KmlExport :=
  mkKmlExport (logFile st) [] [] (timeStamp st) (kmlTalk st) (shown st).

(** The sync bytes of a size field: its high 48 bits. *)
Definition sync_mask : Z := 0xFFFFFFFFFFFF0000.

Definition isEmpty {A : Type} (l : list A) : bool :=
  match l with [] => true | _ => false end.

(** ** The index pass: [KmlExport::preparseLogFile] *)

Section IndexPass.

(** [dataSize] is declared inside the loop body without an initialiser.
    When the device returns fewer than eight bytes its upper bytes are left
    indeterminate; [indeterminate p] is the content the variable happens to
    have in the iteration whose candidate offset is [p]. *)
Variable indeterminate : Z -> Z.

(** The value [dataSize] takes in an iteration that starts with the file in
    state [f]. *)
Definition dataSize_at (f : QFile.t) : Z :=
  let f1 := snd (QFile.read f 4) in
  to_qint64 (load 8 (indeterminate (QFile.pos f)) (fst (QFile.read f1 8))).

(** The value [lastTimeStamp] takes in that iteration; [lastTimeStamp] is
    declared outside the loop and keeps its value between iterations. *)
Definition lastTimeStamp_at (f : QFile.t) (lastTimeStamp : Z) : Z :=
  load 4 lastTimeStamp (fst (QFile.read f 4)).

(** One iteration of the [while] loop, entered with [!logFile.atEnd()]. *)
Definition preparse_step (st : KmlExport) (lastTimeStamp : Z)
  : KmlExport * Z :=
  let candidates := timestampPos st ++ [to_offset (QFile.pos (logFile st))] in
  let (gotStamp, f1) := QFile.read (logFile st) 4 in
  let lastTimeStamp := load 4 lastTimeStamp gotStamp in
  let (gotSize, f2) := QFile.read f1 8 in
  let dataSize :=
    to_qint64 (load 8 (indeterminate (QFile.pos (logFile st))) gotSize) in
  if negb (Z.land dataSize sync_mask =? 0) then
    (* wrong sync bytes: step one byte past the candidate and drop it *)
    (mkKmlExport
       (QFile.seek f2 (to_qint64 (to_offset (last candidates 0 + 1))))
       (timestampBuffer st) (removelast candidates)
       (timeStamp st) (kmlTalk st) (shown st),
     lastTimeStamp)
  else
    let shown' :=
      if negb (isEmpty (timestampBuffer st))
         && (lastTimeStamp <? last (timestampBuffer st) 0)
      then shown st ++ [NonSequentialTimestamps] else shown st in
    (mkKmlExport
       (QFile.seek f2
          (to_qint64 (to_quint64 (last candidates 0 + 4 + 8 + dataSize))))
       (timestampBuffer st ++ [lastTimeStamp]) candidates
       (timeStamp st) (kmlTalk st) shown',
     lastTimeStamp).

(** The [while (!logFile.atEnd())] loop.  [None]: the fuel ran out. *)
Fixpoint preparse_loop (fuel : nat) (st : KmlExport) (lastTimeStamp : Z)
  : option KmlExport :=
  if QFile.atEnd (logFile st) then Some st
  else
    match fuel with
    | O => None
    | S fuel' =>
        let (st', lastTimeStamp') := preparse_step st lastTimeStamp in
        preparse_loop fuel' st' lastTimeStamp'
    end.

(** The whole pass.  Every iteration moves the cursor forward, so one unit
    of fuel per byte of the file is enough. *)
Definition preparseLogFile (st : KmlExport) : option (bool * KmlExport) :=
  let cleared := clear_index st in
  let logFileStartIdx := to_quint64 (QFile.pos (logFile st)) in
  match preparse_loop (length (QFile.content (logFile st))) cleared 0 with
  | None => None
  | Some st1 =>
      if Z.of_nat (length (timestampBuffer st1)) =? 0 then
        Some (false, stopExport (show st1 EmptyLogfile))
      else
        Some (true,
              set_logFile st1
                (QFile.seek (logFile st1) (to_qint64 logFileStartIdx)))
  end.

End IndexPass.

(** ** The streaming pass: [KmlExport::parseLogFile] *)

(** How the pass ended.  The function returns nothing; the status tells
    whether the loop was left through the "Incorrect packet size" branch. *)
Inductive DecodeStatus : Type := Completed | StoppedOnCorruption.

(** The two locals of [parseLogFile].  Both are declared without an
    initialiser at the top of the function and live across iterations. *)
Record ParseLocals : Type := mkParseLocals {
  packetSize : Z;     (* qint64 *)
  timeStampIdx : Z    (* quint32 *)
}.

(** One iteration of the loop, entered with [!logFile.atEnd()].  [Some s]:
    the iteration left the loop through a [break]. *)
Definition parse_step (st : KmlExport) (loc : ParseLocals)
  : option DecodeStatus * KmlExport * ParseLocals :=
  if QFile.bytesAvailable (logFile st) <? 4 then (Some Completed, st, loc)
  else
    let (gotStamp, f1) := QFile.read (logFile st) 4 in
    let timeStamp' := load 4 (timeStamp st) gotStamp in
    let (gotSize, f2) := QFile.read f1 8 in
    let packetSize' := to_qint64 (load 8 (packetSize loc) gotSize) in
    let loc' := mkParseLocals packetSize' (timeStampIdx loc) in
    let st' :=
      mkKmlExport f2 (timestampBuffer st) (timestampPos st) timeStamp'
        (kmlTalk st) (shown st) in
    if (packetSize' <? 1) || (packetSize' >? 1024 * 1024) then
      (Some StoppedOnCorruption, show st' IncorrectPacketSize, loc')
    else if QFile.bytesAvailable f2 <? packetSize' then
      (Some Completed, st', loc')
    else
      let (dataBuffer, f3) := QFile.read f2 packetSize' in
      (None,
       mkKmlExport f3 (timestampBuffer st) (timestampPos st) timeStamp'
         (fold_left processInputByte dataBuffer (kmlTalk st)) (shown st),
       mkParseLocals packetSize' (to_quint32 (timeStampIdx loc + 1))).

Fixpoint parse_loop (fuel : nat) (st : KmlExport) (loc : ParseLocals)
  : option (DecodeStatus * KmlExport * ParseLocals) :=
  if QFile.atEnd (logFile st) then Some (Completed, st, loc)
  else
    match fuel with
    | O => None
    | S fuel' =>
        match parse_step st loc with
        | (Some status, st', loc') => Some (status, st', loc')
        | (None, st', loc') => parse_loop fuel' st' loc'
        end
    end.

(** The whole pass, from the indeterminate initial content [loc0] of the
    two locals. *)
Definition parseLogFile (loc0 : ParseLocals) (st : KmlExport)
  : option (DecodeStatus * KmlExport * ParseLocals) :=
  match parse_loop (length (QFile.content (logFile st))) st loc0 with
  | None => None
  | Some (status, st', loc') => Some (status, stopExport st', loc')
  end.

(** ** Frames and their layout in the file *)

Record Frame : Type := mkFrame {
  timestampMs : Z;
  payload : list byte
}.

Definition payloadLength (fr : Frame) : Z := Z.of_nat (length (payload fr)).

(** Modelled from the spec: the frame layout of the log (the writer of the
    log is not part of these sources).  A 4-byte little-endian timestamp, an
    8-byte little-endian size field, then the payload. *)
Definition encode_frame (fr : Frame) : list byte :=
  le_split 4 (timestampMs fr) ++ le_split 8 (payloadLength fr) ++ payload fr.

Definition encode_log (frames : list Frame) : list byte :=
  flat_map encode_frame frames.

(** A frame the index pass accepts: the timestamp is a [quint32] and the
    size field has its sync bytes clear. *)
Definition indexable (fr : Frame) : Prop :=
  0 <= timestampMs fr < 2 ^ 32 /\ payloadLength fr <= 0xFFFF.

(** A frame both passes accept: the payload is not empty either. *)
Definition streamable (fr : Frame) : Prop :=
  indexable fr /\ 1 <= payloadLength fr.

(** The offsets of consecutive frames, the first one at [start]: twelve
    header bytes and the payload lie between two of them. *)
Fixpoint frame_offsets (start : Z) (frames : list Frame) : list Z :=
  match frames with
  | [] => []
  | fr :: rest => start :: frame_offsets (start + 12 + payloadLength fr) rest
  end.

(** The message boxes the index pass shows for a run of frames, [prev]
    being the timestamp indexed last (if any). *)
Fixpoint regressions (prev : option Z) (frames : list Frame)
  : list MessageBox :=
  match frames with
  | [] => []
  | fr :: rest =>
      (match prev with
       | Some p => if timestampMs fr <? p then [NonSequentialTimestamps] else []
       | None => []
       end) ++ regressions (Some (timestampMs fr)) rest
  end.

(** The state in which the index pass leaves an accepted frame. *)
Definition index_frame (st : KmlExport) (fr : Frame) : KmlExport :=
  mkKmlExport
    (QFile.mk (QFile.content (logFile st))
       (QFile.cursor (logFile st) + 12 + payloadLength fr) true)
    (timestampBuffer st ++ [timestampMs fr])
    (timestampPos st ++ [QFile.cursor (logFile st)])
    (timeStamp st) (kmlTalk st)
    (if negb (isEmpty (timestampBuffer st))
        && (timestampMs fr <? last (timestampBuffer st) 0)
     then shown st ++ [NonSequentialTimestamps] else shown st).

(** The state in which the streaming pass leaves a forwarded frame. *)
Definition stream_frame (st : KmlExport) (fr : Frame) : KmlExport :=
  mkKmlExport
    (QFile.mk (QFile.content (logFile st))
       (QFile.cursor (logFile st) + 12 + payloadLength fr) true)
    (timestampBuffer st) (timestampPos st) (timestampMs fr)
    (kmlTalk st ++ payload fr) (shown st).

(** The locals of the streaming pass after a forwarded frame. *)
Definition count_frame (loc : ParseLocals) (fr : Frame) : ParseLocals :=
  mkParseLocals (payloadLength fr) (to_quint32 (timeStampIdx loc + 1)).

(** A run of frames, in both passes. *)
Definition index_frames (frames : list Frame) (st : KmlExport) : KmlExport :=
  fold_left index_frame frames st.

Definition stream_frames (frames : list Frame) (st : KmlExport) : KmlExport :=
  fold_left stream_frame frames st.

Definition count_frames (frames : list Frame) (loc : ParseLocals)
  : ParseLocals :=
  fold_left count_frame frames loc.

(** The state with the cursor of the open log file at [offset]. *)
Definition move_to (st : KmlExport) (offset : Z) : KmlExport :=
  set_logFile st (QFile.mk (QFile.content (logFile st)) offset true).

(** A log file the passes can address: open, the cursor not negative, and
    small enough that no offset computed from it leaves [qint64]. *)
Definition addressable (f : QFile.t) : Prop :=
  QFile.isOpen f = true /\ 0 <= QFile.cursor f /\ QFile.size f < 2 ^ 62.

(** The sync check of the index pass fails at the cursor and at each of the
    [count - 1] offsets that follow it. *)
Fixpoint no_sync (indeterminate : Z -> Z) (f : QFile.t) (count : nat)
  : bool :=
  match count with
  | O => true
  | S count' =>
      negb (Z.land (dataSize_at indeterminate f) sync_mask =? 0)
      && no_sync indeterminate
           (QFile.mk (QFile.content f) (QFile.cursor f + 1) true) count'
  end.

(** The timestamp indexed last, if any. *)
Definition previous (buffer : list Z) : option Z :=
  if isEmpty buffer then None else Some (last buffer 0).

(** The size field fails the sanity check of the streaming pass. *)
Definition unlikely (field : list byte) : Prop :=
  le_combine field = 0 \/ 1024 * 1024 < le_combine field.

(** ** Sample logs *)

Definition bytes (values : list Z) : list byte := map byte.of_Z values.

(** A log of two frames behind three bytes of text header. *)
Definition two_frames : list Frame :=
  [mkFrame 1000 (bytes [60; 32]); mkFrame 1020 (bytes [60; 33; 7])].

Definition two_frame_log : KmlExport :=
  mkKmlExport
    (QFile.mk (bytes [35; 35; 10] ++ encode_log two_frames) 3 true)
    [] [] 0 [] [].

(** Twelve bytes of noise: every size field read from them has sync bits
    set, the cut-short ones through the content left in [dataSize]. *)
Definition noise_log : KmlExport :=
  mkKmlExport (QFile.mk (repeat Byte.xff 12) 0 true) [] [] 0 [] [].

(** A header whose size field promises five payload bytes, and nothing
    after it. *)
Definition header_only_log : KmlExport :=
  mkKmlExport
    (QFile.mk (bytes [7; 0; 0; 0; 5; 0; 0; 0; 0; 0; 0; 0]) 0 true)
    [] [] 0 [] [].

(** A frame with a one-byte payload, at the head of the logs below. *)
Definition first_frame : Frame := mkFrame 1 (bytes [1]).

(** A frame with 256 payload bytes. *)
Definition long_frame : Frame := mkFrame 3 (repeat Byte.x01 256).

(** The header of a frame with timestamp 2 and two payload bytes, bit 16 of
    its size field flipped, followed by [content]. *)
Definition corrupted (content : list byte) : list byte :=
  bytes [2; 0; 0; 0; 2; 0; 1; 0; 0; 0; 0; 0] ++ content.

Definition log_of (content : list byte) : KmlExport :=
  mkKmlExport (QFile.mk content 0 true) [] [] 0 [] [].

Definition resync_log : KmlExport :=
  log_of (encode_frame first_frame ++ corrupted (bytes [9; 9])
          ++ encode_frame long_frame).

Definition false_sync_log : KmlExport :=
  log_of (encode_frame first_frame ++ corrupted (bytes [0; 0])
          ++ encode_frame (mkFrame 3 (bytes [7; 8]))).

(** The index pass in front of the second of two frames, the first of
    which carries the later timestamp. *)
Definition backwards_log : KmlExport :=
  mkKmlExport
    (QFile.mk
       (encode_log [mkFrame 1020 (bytes [60; 32]); mkFrame 1000 (bytes [61])])
       14 true)
    [1020] [0] 0 [] [].

(** Two frames, then a header with size field [field] and two more
    bytes. *)
Definition log_with_tail (field : list Z) : KmlExport :=
  log_of (encode_log two_frames ++ bytes [9; 0; 0; 0] ++ bytes field
          ++ bytes [5; 5]).

Definition salvage_log : KmlExport :=
  log_with_tail [0; 0; 0; 0; 0; 0; 0; 0].

Definition truncated_log : KmlExport :=
  log_with_tail [4; 0; 0; 0; 0; 0; 0; 0].

Definition oversized_tail_log : KmlExport :=
  log_with_tail [5; 0; 32; 0; 0; 0; 0; 0].

(** One frame behind three bytes of text header. *)
Definition one_frame_log : KmlExport :=
  mkKmlExport
    (QFile.mk
       (bytes [35; 35; 10] ++ encode_frame (mkFrame 70000 (bytes [60; 0; 255])))
       3 true)
    [] [] 0 [] [].

(** A frame with an empty payload between two frames with payloads. *)
Definition empty_frame_log : KmlExport :=
  log_of (encode_log [first_frame; mkFrame 5 []; mkFrame 6 (bytes [7; 8])]).

(** Two frames, then the first five bytes of a header. *)
Definition cut_header_log : KmlExport :=
  log_of (encode_log two_frames ++ bytes [9; 0; 0; 0; 0]).



(** A single frame with timestamp 5 and no payload. *)
Definition empty_payload_log : KmlExport :=
  log_of (encode_frame (mkFrame 5 [])).

(** ** Further properties of the two passes: vocabulary *)

(** A frame the streaming pass forwards: the size field is within the
    sanity bound.  Its sync bytes are not looked at. *)
Definition forwardable (fr : Frame) : Prop :=
  0 <= timestampMs fr < 2 ^ 32 /\ 1 <= payloadLength fr <= 1024 * 1024.

(** The message box a status stands for. *)
Definition status_box (status : DecodeStatus) : list MessageBox :=
  match status with
  | Completed => []
  | StoppedOnCorruption => [IncorrectPacketSize]
  end.

(** What holds of the index at the top of every iteration of the index
    pass begun at offset [start]: the two lists run in parallel, every
    recorded offset is the start of twelve bytes in front of the cursor,
    inside the file, and the timestamps are 32-bit values. *)
Definition index_ok (start : Z) (st : KmlExport) : Prop :=
  length (timestampPos st) = length (timestampBuffer st)
  /\ Forall (fun p => start <= p < QFile.size (logFile st)
                      /\ p + 12 <= QFile.cursor (logFile st))
       (timestampPos st)
  /\ StronglySorted (fun p q => p + 12 <= q) (timestampPos st)
  /\ Forall (fun t => 0 <= t < 2 ^ 32) (timestampBuffer st).

(** Two exporters with the same log file and the same index. *)
Definition same_index (a b : KmlExport) : Prop :=
  logFile a = logFile b
  /\ timestampBuffer a = timestampBuffer b
  /\ timestampPos a = timestampPos b.

(** A frame of 65536 payload bytes, too long for the index pass. *)
Definition oversize_frame : Frame :=
  mkFrame 9 (repeat Byte.x2a (Z.to_nat 65536)).

Definition oversize_log : KmlExport :=
  log_of (encode_frame oversize_frame ++ encode_frame first_frame).

(** ** Opening the log: [KmlExport::open] *)

(** The bytes of a line: up to and including the first line feed, or all
    the bytes when there is none. *)
Fixpoint line_of (l : list byte) : list byte :=
  match l with
  | [] => []
  | b :: rest => if Byte.eqb b Byte.x0a then [b] else b :: line_of rest
  end.

(** [QIODevice::readLine()], with no length limit, on a device opened
    without the text flag: the line at the cursor, its line feed included;
    the cursor moves past it. *)
Definition readLine (f : QFile.t) : list byte * QFile.t :=
  if QFile.isOpen f then
    let got := line_of (QFile.remaining f) in
    (got,
     QFile.mk (QFile.content f) (QFile.cursor f + Z.of_nat (length got)) true)
  else ([], f).

(** White space for [QByteArray::trimmed()]: tab, line feed, vertical tab,
    form feed, carriage return and space. *)
Definition isSpace (b : byte) : bool :=
  let c := byte.unsigned b in
  ((9 <=? c) && (c <=? 13)) || (c =? 32).

Fixpoint trim_front (l : list byte) : list byte :=
  match l with
  | [] => []
  | b :: rest => if isSpace b then trim_front rest else l
  end.

Definition trim_back (l : list byte) : list byte :=
  rev (trim_front (rev l)).

(** [QByteArray::trimmed()]. *)
Definition trimmed (l : list byte) : list byte := trim_back (trim_front l).

(** The message boxes of [open]. *)
Inductive OpenBox : Type :=
| LikelyIncompatibility     (* the UAVO hash of the log differs *)
| PossibleIncompatibility   (* only the git hash differs *)
| SeparatorNotFound.        (* "GCS cannot find the separation byte." *)

Section OpenLog.

(** [QString] and what [open] does with it.  [fromBytes] is the conversion
    of a [QByteArray] to a [QString], [differs] is [operator!=]; [gitHash]
    and [uavoHash] are the two strings computed from the revision constants
    of the build, [separator] is the string the literal for the header/body
    separation line, two hash signs and a line feed, converts to. *)
Variable QString : Type.
Variable fromBytes : list byte -> QString.
Variable differs : QString -> QString -> bool.
Variables gitHash uavoHash separator : QString.

(** The loop that looks for the separation line.  [None]: the fuel ran
    out. *)
Fixpoint find_separator (fuel : nat) (tmpLine : QString) (cnt : Z)
  (f : QFile.t) : option (Z * QFile.t) :=
  if differs tmpLine separator && (cnt <? 10) && negb (QFile.atEnd f) then
    match fuel with
    | O => None
    | S fuel' =>
        let (line, f') := readLine f in
        find_separator fuel' (fromBytes (trimmed line)) (cnt + 1) f'
    end
  else Some (cnt, f).

(** [KmlExport::open].  [openable]: whether the file system lets the file
    be opened for reading.  The result carries the message boxes shown. *)
Definition open (openable : bool) (st : KmlExport)
  : option (bool * KmlExport * list OpenBox) :=
  let closed :=
    if QFile.isOpen (logFile st) then QFile.close (logFile st)
    else logFile st in
  if negb openable then Some (false, set_logFile st closed, [])
  else
    let f0 := QFile.mk (QFile.content closed) 0 true in
    let (_, f1) := readLine f0 in
    let (gitLine, f2) := readLine f1 in
    let logGitHashString := fromBytes (trimmed gitLine) in
    let (uavoLine, f3) := readLine f2 in
    let logUAVOHashString := fromBytes (trimmed uavoLine) in
    let boxes :=
      if differs logUAVOHashString uavoHash then [LikelyIncompatibility]
      else if differs logGitHashString gitHash then [PossibleIncompatibility]
      else [] in
    let (line, f4) := readLine f3 in
    match find_separator 10 (fromBytes line) 0 f4 with
    | None => None
    | Some (cnt, f5) =>
        if (10 <=? cnt) || QFile.atEnd f5 then
          Some (true, set_logFile st (QFile.seek f5 0),
                boxes ++ [SeparatorNotFound])
        else Some (true, set_logFile st f5, boxes)
    end.

(** The boxes [open] shows for the second and third line of a log. *)
Definition hash_boxes (gitLine uavoLine : list byte) : list OpenBox :=
  if differs (fromBytes (trimmed uavoLine)) uavoHash
  then [LikelyIncompatibility]
  else if differs (fromBytes (trimmed gitLine)) gitHash
       then [PossibleIncompatibility] else [].

(** ** The export: [KmlExport::exportToKML] *)

(** What [QFileInfo(outputFileName).suffix().toLower()] compares equal
    to. *)
Inductive Suffix : Type := SuffixKmz | SuffixKml | SuffixOther.

(** The message boxes of the last step of the export. *)
Inductive WriteBox : Type :=
| KmzWriteFailed | KmlWriteFailed | InvalidFileName.

(** [KmlExport::exportToKML], as far as the log and the decoder go.
    Between the streaming pass and the write the function assembles and
    serialises the KML document, which touches neither; [written] is
    whether the KML library managed to write the file. *)
Definition exportToKML (indeterminate : Z -> Z) (loc0 : ParseLocals)
  (openable : bool) (suffix : Suffix) (written : bool) (st : KmlExport)
  : option (bool * KmlExport * list OpenBox * list WriteBox) :=
  match open openable st with
  | None => None
  | Some (false, st1, boxes) => Some (false, st1, boxes, [])
  | Some (true, st1, boxes) =>
      match preparseLogFile indeterminate st1 with
      | None => None
      | Some (false, st2) => Some (false, st2, boxes, [])
      | Some (true, st2) =>
          match parseLogFile loc0 st2 with
          | None => None
          | Some (_, st3, _) =>
              match suffix with
              | SuffixKmz =>
                  if written then Some (true, st3, boxes, [])
                  else Some (false, st3, boxes, [KmzWriteFailed])
              | SuffixKml =>
                  if written then Some (true, st3, boxes, [])
                  else Some (false, st3, boxes, [KmlWriteFailed])
              | SuffixOther => Some (false, st3, boxes, [InvalidFileName])
              end
          end
      end
  end.

End OpenLog.

(** A line: bytes other than the line feed, then a line feed. *)
Definition is_line (l : list byte) : Prop :=
  exists text, l = text ++ [Byte.x0a] /\ ~ In Byte.x0a text.

(** The file after [count] calls of [readLine]. *)
Fixpoint skip_lines (count : nat) (f : QFile.t) : QFile.t :=
  match count with
  | O => f
  | S count' => skip_lines count' (snd (readLine f))
  end.

(** The fourth [readLine] of [open]: the line compared with the separator
    before the search loop is entered, and the file after it. *)
Definition fourth_line (st : KmlExport) : list byte * QFile.t :=
  readLine (skip_lines 3 (QFile.mk (QFile.content (logFile st)) 0 true)).

(** Byte strings standing for [QString]s in the sample logs. *)
Fixpoint bytes_eqb (a b : list byte) : bool :=
  match a, b with
  | [], [] => true
  | x :: a', y :: b' => Byte.eqb x y && bytes_eqb a' b'
  | _, _ => false
  end.

Definition bytes_differ (a b : list byte) : bool := negb (bytes_eqb a b).

Definition separator_line : list byte := bytes [35; 35; 10].

(** The text header of a log: a title line, the two hash lines and the
    separation line. *)
Definition text_header : list byte :=
  bytes [100; 82; 10] ++ bytes [97; 98; 99; 13; 10] ++ bytes [49; 50; 10]
  ++ separator_line.

(** A log with its text header and two frames, not opened yet. *)
Definition recorded_log : KmlExport :=
  mkKmlExport (QFile.mk (text_header ++ encode_log two_frames) 0 false)
    [] [] 0 [] [].

(** A log whose separation line comes one line late. *)
Definition late_separator_log : KmlExport :=
  mkKmlExport
    (QFile.mk
       (bytes [100; 82; 10] ++ bytes [97; 10] ++ bytes [49; 10]
        ++ bytes [120; 10] ++ separator_line ++ encode_log two_frames)
       0 false)
    [] [] 0 [] [].

(** * The placemarks: [KmlExport::positionActualUpdated] *)

(** The decoder answers the bytes it is handed by updating telemetry
    objects, and three slots of the exporter run on those updates.  What
    follows is the state those slots keep and the placemarks they add.
    Positions are floating-point records computed by library code; they
    are kept abstract, and a placemark is modelled by the points and times
    it is built from. *)

Definition numberOfWallAxes : nat := 5.

(** [gpsPositionData.Status], as far as the exporter tells the values
    apart. *)
Inductive GpsStatus : Type := STATUS_FIX2D | STATUS_FIX3D | STATUS_OTHER.

(** [Status != STATUS_FIX2D && Status != STATUS_FIX3D], negated. *)
Definition has_lock (status : GpsStatus) : bool :=
  match status with
  | STATUS_FIX2D | STATUS_FIX3D => true
  | STATUS_OTHER => false
  end.

Set Implicit Arguments.

Section Placemarks.

(** [HomeLocation::DataFields], and whether its [Set] field differs from
    [SET_FALSE]. *)
Variable HomeLocationData : Type.
Variable homeSet : HomeLocationData -> bool.

(** The data of the position, velocity, airspeed and attitude objects when
    the slot runs. *)
Variable Sample : Type.

(** [LLAVCoordinates], and the conversion of a sample to one: [NED2LLA]
    from the home location, and the ground speed. *)
Variable Point : Type.
Variable toPoint : HomeLocationData -> Sample -> Point.

(** [timeStamp - lastPlacemarkTime > 2000], in the arithmetic of the two
    members. *)
Variable due : Z -> Z -> bool.

(** The placemark of [CreateLineStringPlacemark]. *)
Record LineString : Type := mkLineString {
  startPoint : Point;
  endPoint : Point;
  lineTime : Z
}.

(** The placemark of [createTimespanPlacemark]. *)
Record Timespan : Type := mkTimespan {
  timestampPoint : Point;
  spanBegin : Z;
  spanEnd : Z
}.

(** A coordinate of a wall axis: latitude and longitude of [over], at
    [level * wallAxesSeparation] above the altitude of [above]. *)
Record WallCoordinate : Type := mkWallCoordinate {
  over : Point;
  level : Z;
  above : HomeLocationData
}.

(** The members the slots read and write, with the static flag of
    [positionActualUpdated]. *)
Record Tracker : Type := mkTracker {
  homeLocationData : HomeLocationData;
  gpsStatus : GpsStatus;
  firstPoint : bool;
  oldPoint : Point;
  lastPlacemarkTime : Z;
  trackFolder : list LineString;
  timestampFolder : list Timespan;
  wallAxes : list (list WallCoordinate)
}.

(** [wallAxes[i]->add_latlngalt(...)].  The constructor creates
    [numberOfWallAxes] lists, so the index is always in range. *)
Definition add_latlngalt (i : nat) (c : WallCoordinate)
  (axes : list (list WallCoordinate)) : list (list WallCoordinate) :=
  match nth_error axes i with
  | Some axis => firstn i axes ++ (axis ++ [c]) :: skipn (S i) axes
  | None => axes
  end.

(** [KmlExport::positionActualUpdated], run while the member [timeStamp]
    holds [timeStamp]. *)
Definition positionActualUpdated (timeStamp : Z) (sample : Sample)
  (s : Tracker) : Tracker :=
  if negb (homeSet (homeLocationData s)) then s
  else if negb (has_lock (gpsStatus s)) then s
  else
    let newPoint := toPoint (homeLocationData s) sample in
    if negb (firstPoint s) then
      mkTracker (homeLocationData s) (gpsStatus s) true newPoint
        (lastPlacemarkTime s) (trackFolder s) (timestampFolder s)
        (wallAxes s)
    else
      let axes :=
        fold_left
          (fun axes i =>
             add_latlngalt i
               (mkWallCoordinate newPoint (Z.of_nat i) (homeLocationData s))
               axes)
          (seq 0 numberOfWallAxes) (wallAxes s) in
      let track :=
        trackFolder s ++ [mkLineString (oldPoint s) newPoint timeStamp] in
      if due timeStamp (lastPlacemarkTime s) then
        mkTracker (homeLocationData s) (gpsStatus s) true newPoint timeStamp
          track
          (timestampFolder s
           ++ [mkTimespan newPoint (lastPlacemarkTime s) timeStamp])
          axes
      else
        mkTracker (homeLocationData s) (gpsStatus s) true newPoint
          (lastPlacemarkTime s) track (timestampFolder s) axes.

(** [KmlExport::homeLocationUpdated] *)
Definition homeLocationUpdated (data : HomeLocationData) (s : Tracker)
  : Tracker :=
  mkTracker data (gpsStatus s) (firstPoint s) (oldPoint s)
    (lastPlacemarkTime s) (trackFolder s) (timestampFolder s) (wallAxes s).

(** [KmlExport::gpsPositionUpdated] *)
Definition gpsPositionUpdated (status : GpsStatus) (s : Tracker) : Tracker :=
  mkTracker (homeLocationData s) status (firstPoint s) (oldPoint s)
    (lastPlacemarkTime s) (trackFolder s) (timestampFolder s) (wallAxes s).

(** An update of one of the three objects the exporter listens to. *)
Inductive Update : Type :=
| HomeLocationUpdate (data : HomeLocationData)
| GPSPositionUpdate (status : GpsStatus)
| PositionActualUpdate (timeStamp : Z) (sample : Sample).

Definition objectUpdated (s : Tracker) (u : Update) : Tracker :=
  match u with
  | HomeLocationUpdate data => homeLocationUpdated data s
  | GPSPositionUpdate status => gpsPositionUpdated status s
  | PositionActualUpdate timeStamp sample =>
      positionActualUpdated timeStamp sample s
  end.

(** The updates of a whole export, in the order the decoder raises them. *)
Definition objectsUpdated (updates : list Update) (s : Tracker) : Tracker :=
  fold_left objectUpdated updates s.

(** Segments that start where the one before ends, the first at [from]. *)
Fixpoint chained (from : Point) (track : list LineString) : Prop :=
  match track with
  | [] => True
  | line :: rest => startPoint line = from /\ chained (endPoint line) rest
  end.


(** What the slots have drawn and remembered, without the two objects'
    data. *)
Definition drawn (s : Tracker)
  : bool * Point * Z * list LineString * list Timespan
    * list (list WallCoordinate) :=
  (firstPoint s, oldPoint s, lastPlacemarkTime s, trackFolder s,
   timestampFolder s, wallAxes s).

(** No update of the home location sets it. *)
Definition home_never_set (updates : list Update) : Prop :=
  Forall (fun u => match u with
                   | HomeLocationUpdate data => homeSet data = false
                   | _ => True
                   end) updates.

(** No update of the GPS position reports a 2D or 3D fix. *)
Definition never_locked (updates : list Update) : Prop :=
  Forall (fun u => match u with
                   | GPSPositionUpdate status => has_lock status = false
                   | _ => True
                   end) updates.

End Placemarks.

Unset Implicit Arguments.

(** A flight of four position updates, with points and samples numbered;
    times are compared as [quint32] values. *)
Definition sample_home (set : bool) : bool := set.

Definition sample_point (home : bool) (sample : Z) : Z := sample.

Definition sample_due (timeStamp lastPlacemarkTime : Z) : bool :=
  to_quint32 (timeStamp - lastPlacemarkTime) >? 2000.

Definition fresh_tracker : Tracker bool Z :=
  mkTracker false STATUS_OTHER false 0 0 [] [] (repeat [] numberOfWallAxes).

Definition sample_flight : list (Update bool Z) :=
  [ PositionActualUpdate bool 1000 1;
    HomeLocationUpdate Z true;
    GPSPositionUpdate bool Z STATUS_FIX3D;
    PositionActualUpdate bool 1000 2;
    PositionActualUpdate bool 2500 3;
    PositionActualUpdate bool 4000 4;
    PositionActualUpdate bool 4100 5 ].

(** The same updates without a fix. *)
Definition sample_flight_no_fix : list (Update bool Z) :=
  [ PositionActualUpdate bool 1000 1;
    HomeLocationUpdate Z true;
    GPSPositionUpdate bool Z STATUS_OTHER;
    PositionActualUpdate bool 1000 2;
    PositionActualUpdate bool 2500 3 ].

(** Side conditions on the sample logs are settled by evaluation. *)
Ltac addressable_by_evaluation :=
  unfold addressable; split; [|split];
  [reflexivity | cbn; lia | vm_compute; reflexivity].

Ltac frames_by_evaluation :=
  repeat constructor; unfold indexable, payloadLength; cbn; lia.

(** * Properties *)

(** ** Integer conversions *)

Lemma to_qint64_small x : 0 <= x < 2 ^ 63 -> to_qint64 x = x.
Proof.
  intros H. unfold to_qint64.
  rewrite Z.mod_small by lia.
  destruct (x <? 2 ^ 63) eqn:E; [reflexivity | apply Z.ltb_ge in E; lia].
Qed.

Lemma to_qint64_range x : - 2 ^ 63 <= to_qint64 x < 2 ^ 63.
Proof.
  unfold to_qint64.
  pose proof (Z.mod_pos_bound x (2 ^ 64) ltac:(lia)) as H.
  destruct (x mod 2 ^ 64 <? 2 ^ 63) eqn:E;
    [apply Z.ltb_lt in E | apply Z.ltb_ge in E]; lia.
Qed.

Lemma to_quint64_small x : 0 <= x < 2 ^ 64 -> to_quint64 x = x.
Proof. intros H. unfold to_quint64. apply Z.mod_small; lia. Qed.

Lemma sync_mask_land d :
  Z.land d sync_mask = Z.shiftl (Z.land (Z.shiftr d 16) (Z.ones 48)) 16.
Proof.
  unfold sync_mask.
  change 0xFFFFFFFFFFFF0000 with (Z.shiftl (Z.ones 48) 16).
  Z.bitblast.
Qed.

(** The sync bytes of a [qint64] are clear exactly when it is a 16-bit
    unsigned value. *)
Lemma sync_clear_iff d :
  - 2 ^ 63 <= d < 2 ^ 63 ->
  Z.land d sync_mask = 0 <-> 0 <= d <= 0xFFFF.
Proof.
  intros Hd. rewrite sync_mask_land, Z.shiftl_eq_0_iff by lia.
  rewrite Z.land_ones, Z.shiftr_div_pow2 by lia.
  split; intros H.
  - assert (d / 2 ^ 16 = 0) by (revert H; Z.div_mod_to_equations; lia).
    revert H0; Z.div_mod_to_equations; lia.
  - rewrite (Z.div_small d) by lia. reflexivity.
Qed.

Lemma load_full width var got :
  length got = width -> load width var got = le_combine got.
Proof.
  intros H. unfold load.
  rewrite skipn_all2 by (rewrite length_le_split; lia).
  now rewrite app_nil_r.
Qed.

Lemma load_le_split width var x :
  load width var (le_split width x) = x mod 2 ^ (Z.of_nat width * 8).
Proof.
  rewrite load_full by apply length_le_split. apply le_combine_split.
Qed.

(** ** The log file *)

Lemma remaining_advance f bs rest :
  0 <= QFile.cursor f ->
  QFile.remaining f = bs ++ rest ->
  QFile.remaining
    (QFile.mk (QFile.content f) (QFile.cursor f + Z.of_nat (length bs)) true)
  = rest.
Proof.
  unfold QFile.remaining. cbn [QFile.content QFile.cursor]. intros Hc H.
  rewrite Z2Nat.inj_add, Nat2Z.id, Nat.add_comm by lia.
  rewrite <- skipn_skipn, H, skipn_app, skipn_all, Nat.sub_diag.
  reflexivity.
Qed.

Lemma read_prefix f bs rest n :
  QFile.isOpen f = true ->
  QFile.remaining f = bs ++ rest ->
  Z.of_nat (length bs) = n ->
  QFile.read f n = (bs, QFile.mk (QFile.content f) (QFile.cursor f + n) true).
Proof.
  intros Ho H <-. unfold QFile.read. rewrite Ho, H, Nat2Z.id.
  rewrite firstn_app, firstn_all, Nat.sub_diag. cbn [firstn].
  now rewrite app_nil_r.
Qed.

Lemma read_content f n : QFile.content (snd (QFile.read f n)) = QFile.content f.
Proof. unfold QFile.read. now destruct (QFile.isOpen f). Qed.

Lemma read_isOpen f n : QFile.isOpen (snd (QFile.read f n)) = QFile.isOpen f.
Proof. unfold QFile.read. now destruct (QFile.isOpen f) eqn:E. Qed.

Lemma seek_content f p : QFile.content (QFile.seek f p) = QFile.content f.
Proof. unfold QFile.seek. now destruct (QFile.isOpen f && (0 <=? p)). Qed.

Lemma seek_isOpen f p : QFile.isOpen (QFile.seek f p) = QFile.isOpen f.
Proof.
  unfold QFile.seek. destruct (QFile.isOpen f) eqn:E; cbn; [|assumption].
  now destruct (0 <=? p).
Qed.

Lemma seek_to f p :
  QFile.isOpen f = true -> 0 <= p ->
  QFile.seek f p = QFile.mk (QFile.content f) p true.
Proof.
  intros Ho Hp. unfold QFile.seek. rewrite Ho.
  now replace (0 <=? p) with true by (symmetry; apply Z.leb_le; lia).
Qed.

Lemma bytesAvailable_remaining f :
  0 <= QFile.cursor f ->
  QFile.bytesAvailable f = Z.of_nat (length (QFile.remaining f)).
Proof.
  intros Hc. unfold QFile.bytesAvailable, QFile.remaining, QFile.size.
  rewrite length_skipn. lia.
Qed.

Lemma atEnd_false_lt f :
  QFile.atEnd f = false -> QFile.cursor f < QFile.size f.
Proof.
  unfold QFile.atEnd, QFile.bytesAvailable.
  destruct (QFile.isOpen f); [|discriminate].
  intros H. apply Z.eqb_neq in H. lia.
Qed.

Lemma atEnd_false_isOpen f : QFile.atEnd f = false -> QFile.isOpen f = true.
Proof. unfold QFile.atEnd. now destruct (QFile.isOpen f). Qed.

Lemma atEnd_nonempty f :
  QFile.isOpen f = true -> 0 <= QFile.cursor f ->
  QFile.remaining f <> [] -> QFile.atEnd f = false.
Proof.
  intros Ho Hc Hne. unfold QFile.atEnd. rewrite Ho.
  rewrite bytesAvailable_remaining by assumption.
  apply Z.eqb_neq. destruct (QFile.remaining f); [congruence | cbn; lia].
Qed.

Lemma atEnd_empty f :
  QFile.isOpen f = true -> 0 <= QFile.cursor f ->
  QFile.remaining f = [] -> QFile.atEnd f = true.
Proof.
  intros Ho Hc He. unfold QFile.atEnd. rewrite Ho.
  rewrite bytesAvailable_remaining, He by assumption. reflexivity.
Qed.

Lemma remaining_length f :
  (length (QFile.remaining f) <= length (QFile.content f))%nat.
Proof. unfold QFile.remaining. rewrite length_skipn. lia. Qed.

(** ** The index pass, one iteration *)

Section IndexStep.

Variable indeterminate : Z -> Z.

Lemma addressable_bounds f :
  addressable f -> QFile.atEnd f = false ->
  0 <= QFile.cursor f < 2 ^ 62.
Proof.
  intros (Ho & Hc & Hs) He. apply atEnd_false_lt in He. lia.
Qed.

(** Wrong sync bytes: the candidate is dropped and the cursor is one byte
    past it. *)
Lemma preparse_step_resync st lastTimeStamp :
  addressable (logFile st) ->
  QFile.atEnd (logFile st) = false ->
  Z.land (dataSize_at indeterminate (logFile st)) sync_mask <> 0 ->
  preparse_step indeterminate st lastTimeStamp =
  (mkKmlExport
     (QFile.mk (QFile.content (logFile st)) (QFile.cursor (logFile st) + 1) true)
     (timestampBuffer st) (timestampPos st) (timeStamp st) (kmlTalk st)
     (shown st),
   lastTimeStamp_at (logFile st) lastTimeStamp).
Proof.
  intros Ha He Hs. pose proof (addressable_bounds _ Ha He) as Hc.
  destruct Ha as (Ho & _ & _).
  revert Hs. unfold preparse_step, dataSize_at, lastTimeStamp_at.
  pose proof (read_isOpen (logFile st) 4) as O1.
  pose proof (read_content (logFile st) 4) as C1.
  destruct (QFile.read (logFile st) 4) as [g1 f1]. cbn [fst snd] in *.
  pose proof (read_isOpen f1 8) as O2.
  pose proof (read_content f1 8) as C2.
  destruct (QFile.read f1 8) as [g2 f2]. cbn [fst snd] in *.
  intros Hs. apply Z.eqb_neq in Hs. rewrite Hs. cbn [negb].
  rewrite last_last, removelast_last. unfold QFile.pos, to_offset.
  rewrite (to_quint64_small (QFile.cursor (logFile st))) by lia.
  rewrite to_quint64_small, to_qint64_small by lia.
  rewrite seek_to by (congruence || lia).
  now rewrite C2, C1.
Qed.

(** Clear sync bytes: the candidate and the timestamp are appended and the
    cursor is past the header and [dataSize] more bytes. *)
Lemma preparse_step_accept st lastTimeStamp :
  addressable (logFile st) ->
  QFile.atEnd (logFile st) = false ->
  Z.land (dataSize_at indeterminate (logFile st)) sync_mask = 0 ->
  preparse_step indeterminate st lastTimeStamp =
  (mkKmlExport
     (QFile.mk (QFile.content (logFile st))
        (QFile.cursor (logFile st) + 12
         + dataSize_at indeterminate (logFile st)) true)
     (timestampBuffer st ++ [lastTimeStamp_at (logFile st) lastTimeStamp])
     (timestampPos st ++ [QFile.cursor (logFile st)])
     (timeStamp st) (kmlTalk st)
     (if negb (isEmpty (timestampBuffer st))
         && (lastTimeStamp_at (logFile st) lastTimeStamp
             <? last (timestampBuffer st) 0)
      then shown st ++ [NonSequentialTimestamps] else shown st),
   lastTimeStamp_at (logFile st) lastTimeStamp).
Proof.
  intros Ha He Hs. pose proof (addressable_bounds _ Ha He) as Hc.
  destruct Ha as (Ho & _ & _).
  assert (Hd : 0 <= dataSize_at indeterminate (logFile st) <= 0xFFFF).
  { apply sync_clear_iff; [apply to_qint64_range | exact Hs]. }
  revert Hs Hd. unfold preparse_step, dataSize_at, lastTimeStamp_at.
  pose proof (read_isOpen (logFile st) 4) as O1.
  pose proof (read_content (logFile st) 4) as C1.
  destruct (QFile.read (logFile st) 4) as [g1 f1]. cbn [fst snd] in *.
  pose proof (read_isOpen f1 8) as O2.
  pose proof (read_content f1 8) as C2.
  destruct (QFile.read f1 8) as [g2 f2]. cbn [fst snd] in *.
  intros Hs Hd. rewrite Hs. cbn [Z.eqb negb].
  rewrite last_last. unfold QFile.pos, to_offset in *.
  rewrite (to_quint64_small (QFile.cursor (logFile st))) by lia.
  rewrite to_quint64_small, to_qint64_small by lia.
  rewrite seek_to by (congruence || lia).
  rewrite C2, C1. do 3 f_equal. lia.
Qed.

End IndexStep.

(** ** Reading a header *)

Section Header.

Variable indeterminate : Z -> Z.

Lemma dataSize_at_header f stamp field rest :
  QFile.isOpen f = true -> 0 <= QFile.cursor f ->
  QFile.remaining f = stamp ++ field ++ rest ->
  length stamp = 4%nat -> length field = 8%nat ->
  dataSize_at indeterminate f = to_qint64 (le_combine field).
Proof.
  intros Ho Hc Hr L4 L8. unfold dataSize_at.
  rewrite (read_prefix f stamp (field ++ rest) 4) by (assumption || lia).
  cbn [snd].
  rewrite (read_prefix _ field rest 8); cbn [fst]; try (reflexivity || lia).
  - now rewrite load_full.
  - replace 4 with (Z.of_nat (length stamp)) by lia.
    now apply remaining_advance.
Qed.

Lemma lastTimeStamp_at_header f lastTimeStamp stamp rest :
  QFile.isOpen f = true ->
  QFile.remaining f = stamp ++ rest ->
  length stamp = 4%nat ->
  lastTimeStamp_at f lastTimeStamp = le_combine stamp.
Proof.
  intros Ho Hr L4. unfold lastTimeStamp_at.
  rewrite (read_prefix f stamp rest 4) by (assumption || lia).
  cbn [fst]. now rewrite load_full.
Qed.

Lemma length_encode_frame fr :
  Z.of_nat (length (encode_frame fr)) = 12 + payloadLength fr.
Proof.
  unfold encode_frame, payloadLength.
  rewrite !length_app, !length_le_split. lia.
Qed.

Lemma dataSize_at_frame f fr rest :
  QFile.isOpen f = true -> 0 <= QFile.cursor f ->
  QFile.remaining f = encode_frame fr ++ rest ->
  indexable fr ->
  dataSize_at indeterminate f = payloadLength fr.
Proof.
  intros Ho Hc Hr (Ht & Hl). unfold encode_frame in Hr.
  rewrite <- !app_assoc in Hr.
  rewrite (dataSize_at_header f _ _ _ Ho Hc Hr)
    by apply length_le_split.
  rewrite le_combine_split.
  assert (0 <= payloadLength fr) by (unfold payloadLength; lia).
  change (Z.of_nat 8 * 8) with 64.
  rewrite Z.mod_small by lia. apply to_qint64_small. lia.
Qed.

Lemma lastTimeStamp_at_frame f lastTimeStamp fr rest :
  QFile.isOpen f = true ->
  QFile.remaining f = encode_frame fr ++ rest ->
  indexable fr ->
  lastTimeStamp_at f lastTimeStamp = timestampMs fr.
Proof.
  intros Ho Hr (Ht & Hl). unfold encode_frame in Hr.
  rewrite <- !app_assoc in Hr.
  rewrite (lastTimeStamp_at_header f _ _ _ Ho Hr)
    by apply length_le_split.
  rewrite le_combine_split. change (Z.of_nat 4 * 8) with 32.
  apply Z.mod_small. lia.
Qed.

(** An accepted frame leaves the index pass in [index_frame]. *)
Lemma preparse_step_frame st lastTimeStamp fr rest :
  addressable (logFile st) ->
  QFile.remaining (logFile st) = encode_frame fr ++ rest ->
  indexable fr ->
  preparse_step indeterminate st lastTimeStamp
  = (index_frame st fr, timestampMs fr).
Proof.
  intros Ha Hr Hi. pose proof Ha as (Ho & Hc & Hs).
  assert (He : QFile.atEnd (logFile st) = false).
  { apply atEnd_nonempty; try assumption. rewrite Hr.
    unfold encode_frame. discriminate. }
  assert (Hd := dataSize_at_frame _ _ _ Ho Hc Hr Hi).
  rewrite preparse_step_accept; try assumption.
  - rewrite Hd, (lastTimeStamp_at_frame _ _ _ _ Ho Hr Hi). reflexivity.
  - rewrite Hd. apply sync_clear_iff; destruct Hi as (_ & Hl);
      unfold payloadLength in *; lia.
Qed.

Lemma index_frame_remaining st fr rest :
  0 <= QFile.cursor (logFile st) ->
  QFile.remaining (logFile st) = encode_frame fr ++ rest ->
  QFile.remaining (logFile (index_frame st fr)) = rest.
Proof.
  intros Hc Hr. unfold index_frame. cbn [logFile].
  rewrite <- Z.add_assoc, <- length_encode_frame.
  now apply remaining_advance.
Qed.

Lemma index_frame_addressable st fr :
  addressable (logFile st) -> addressable (logFile (index_frame st fr)).
Proof.
  intros (Ho & Hc & Hs). unfold addressable, index_frame, QFile.size in *.
  cbn [logFile QFile.isOpen QFile.cursor QFile.content].
  unfold payloadLength. repeat split; lia.
Qed.

End Header.

(** ** The index pass, the loop *)

Section IndexLoop.

Variable indeterminate : Z -> Z.

Lemma preparse_loop_atEnd fuel st lastTimeStamp :
  QFile.atEnd (logFile st) = true ->
  preparse_loop indeterminate fuel st lastTimeStamp = Some st.
Proof. intros H. destruct fuel; cbn [preparse_loop]; now rewrite H. Qed.

Lemma preparse_loop_unfold fuel st lastTimeStamp :
  QFile.atEnd (logFile st) = false ->
  preparse_loop indeterminate (S fuel) st lastTimeStamp =
  preparse_loop indeterminate fuel
    (fst (preparse_step indeterminate st lastTimeStamp))
    (snd (preparse_step indeterminate st lastTimeStamp)).
Proof.
  intros H. cbn [preparse_loop]. rewrite H.
  now destruct (preparse_step indeterminate st lastTimeStamp).
Qed.

(** More fuel does not change a result. *)
Lemma preparse_loop_more fuel extra : forall st lastTimeStamp r,
  preparse_loop indeterminate fuel st lastTimeStamp = Some r ->
  preparse_loop indeterminate (fuel + extra) st lastTimeStamp = Some r.
Proof.
  induction fuel as [|fuel IH]; intros st l r H;
    destruct (QFile.atEnd (logFile st)) eqn:E.
  - rewrite preparse_loop_atEnd in * by assumption. assumption.
  - cbn [preparse_loop] in H. rewrite E in H. discriminate.
  - rewrite preparse_loop_atEnd in * by assumption. assumption.
  - cbn [Nat.add]. rewrite preparse_loop_unfold in * by assumption.
    now apply IH.
Qed.

Lemma encode_log_cons fr frames :
  encode_log (fr :: frames) = encode_frame fr ++ encode_log frames.
Proof. reflexivity. Qed.

Lemma encode_frame_nonempty fr rest : encode_frame fr ++ rest <> [].
Proof. unfold encode_frame. discriminate. Qed.

(** A run of accepted frames takes one iteration each. *)
Lemma preparse_loop_frames frames : forall st lastTimeStamp rest fuel,
  addressable (logFile st) ->
  Forall indexable frames ->
  QFile.remaining (logFile st) = encode_log frames ++ rest ->
  exists lastTimeStamp',
    preparse_loop indeterminate (length frames + fuel) st lastTimeStamp
    = preparse_loop indeterminate fuel (index_frames frames st)
        lastTimeStamp'.
Proof.
  unfold index_frames.
  induction frames as [|fr frames IH]; intros st l rest fuel Ha Hf Hr.
  - now exists l.
  - inversion Hf as [|? ? Hi Hf']; subst.
    rewrite encode_log_cons, <- app_assoc in Hr.
    pose proof Ha as (Ho & Hc & _).
    cbn [length Nat.add fold_left].
    rewrite preparse_loop_unfold
      by (apply atEnd_nonempty; try assumption;
          rewrite Hr; apply encode_frame_nonempty).
    rewrite (preparse_step_frame indeterminate st l fr _ Ha Hr Hi).
    cbn [fst snd].
    apply (IH _ _ rest); try assumption.
    + now apply index_frame_addressable.
    + now apply index_frame_remaining.
Qed.

Lemma set_logFile_same st :
  QFile.isOpen (logFile st) = true ->
  set_logFile st
    (QFile.mk (QFile.content (logFile st)) (QFile.cursor (logFile st)) true)
  = st.
Proof.
  destruct st as [[c p o] tb tp ts talk sh]. cbn. now intros ->.
Qed.

(** A span in which no offset passes the sync check is crossed one byte
    per iteration, and nothing is indexed. *)
Lemma preparse_loop_resync count : forall st lastTimeStamp fuel,
  addressable (logFile st) ->
  (count <= length (QFile.remaining (logFile st)))%nat ->
  no_sync indeterminate (logFile st) count = true ->
  exists lastTimeStamp',
    preparse_loop indeterminate (count + fuel) st lastTimeStamp
    = preparse_loop indeterminate fuel
        (move_to st (QFile.cursor (logFile st) + Z.of_nat count))
        lastTimeStamp'.
Proof.
  unfold move_to.
  induction count as [|count IH]; intros st l fuel Ha Hn Hs.
  - exists l. cbn [Nat.add Z.of_nat]. rewrite Z.add_0_r.
    rewrite set_logFile_same by apply Ha. reflexivity.
  - cbn [no_sync] in Hs. apply andb_prop in Hs as [Hs0 Hs1].
    apply negb_true_iff, Z.eqb_neq in Hs0.
    pose proof Ha as (Ho & Hc & Hz).
    assert (He : QFile.atEnd (logFile st) = false).
    { apply atEnd_nonempty; try assumption.
      destruct (QFile.remaining (logFile st)); [cbn in Hn; lia | discriminate]. }
    cbn [Nat.add]. rewrite preparse_loop_unfold by assumption.
    rewrite preparse_step_resync by assumption. cbn [fst snd].
    match goal with |- context [preparse_loop _ _ ?s ?t] =>
      destruct (IH s t fuel) as [l' Hl] end.
    + unfold addressable, QFile.size in *. cbn. repeat split; lia.
    + unfold QFile.remaining in *.
      cbn [logFile QFile.cursor QFile.content].
      rewrite length_skipn in *. lia.
    + exact Hs1.
    + exists l'. rewrite Hl. unfold set_logFile.
      cbn [logFile QFile.cursor QFile.content timestampBuffer timestampPos
           timeStamp kmlTalk shown].
      do 3 f_equal. lia.
Qed.

(** The loop always comes to the end of the file. *)
Lemma preparse_loop_total fuel : forall st lastTimeStamp,
  addressable (logFile st) ->
  QFile.size (logFile st) - QFile.cursor (logFile st) <= Z.of_nat fuel ->
  exists st',
    preparse_loop indeterminate fuel st lastTimeStamp = Some st'
    /\ QFile.atEnd (logFile st') = true.
Proof.
  induction fuel as [|fuel IH]; intros st l Ha Hm;
    destruct (QFile.atEnd (logFile st)) eqn:He;
    try (exists st; split;
         [now apply preparse_loop_atEnd | assumption]).
  - apply atEnd_false_lt in He. lia.
  - pose proof (addressable_bounds _ Ha He) as Hc.
    pose proof (atEnd_false_lt _ He) as Hlt.
    destruct Ha as (Ho & _ & Hz).
    assert (Ha : addressable (logFile st)) by (repeat split; (assumption || lia)).
    rewrite preparse_loop_unfold by assumption.
    destruct (Z.eq_dec
                (Z.land (dataSize_at indeterminate (logFile st)) sync_mask) 0)
      as [Hs|Hs].
    + rewrite preparse_step_accept by assumption. cbn [fst snd].
      apply sync_clear_iff in Hs; [|apply to_qint64_range].
      apply IH; unfold addressable, QFile.size in *;
        cbn [logFile QFile.isOpen QFile.cursor QFile.content];
        repeat split; lia.
    + rewrite preparse_step_resync by assumption. cbn [fst snd].
      apply IH; unfold addressable, QFile.size in *;
        cbn [logFile QFile.isOpen QFile.cursor QFile.content];
        repeat split; lia.
Qed.

(** What an iteration never touches, and what it only extends. *)
Lemma preparse_step_keeps st lastTimeStamp :
  let st' := fst (preparse_step indeterminate st lastTimeStamp) in
  QFile.content (logFile st') = QFile.content (logFile st)
  /\ QFile.isOpen (logFile st') = QFile.isOpen (logFile st)
  /\ timeStamp st' = timeStamp st
  /\ kmlTalk st' = kmlTalk st
  /\ exists more, timestampBuffer st' = timestampBuffer st ++ more.
Proof.
  unfold preparse_step.
  pose proof (read_isOpen (logFile st) 4) as O1.
  pose proof (read_content (logFile st) 4) as C1.
  destruct (QFile.read (logFile st) 4) as [g1 f1]. cbn [fst snd] in *.
  pose proof (read_isOpen f1 8) as O2.
  pose proof (read_content f1 8) as C2.
  destruct (QFile.read f1 8) as [g2 f2]. cbn [fst snd] in *.
  match goal with |- context [if ?b then _ else _] => destruct b end;
    cbn [fst logFile timeStamp kmlTalk timestampBuffer];
    rewrite seek_content, seek_isOpen; repeat split; try congruence.
  - exists []. now rewrite app_nil_r.
  - eexists. reflexivity.
Qed.

Lemma preparse_loop_keeps fuel : forall st lastTimeStamp st',
  preparse_loop indeterminate fuel st lastTimeStamp = Some st' ->
  QFile.content (logFile st') = QFile.content (logFile st)
  /\ QFile.isOpen (logFile st') = QFile.isOpen (logFile st)
  /\ timeStamp st' = timeStamp st
  /\ kmlTalk st' = kmlTalk st
  /\ exists more, timestampBuffer st' = timestampBuffer st ++ more.
Proof.
  induction fuel as [|fuel IH]; intros st l st' H;
    destruct (QFile.atEnd (logFile st)) eqn:He;
    try (rewrite preparse_loop_atEnd in H by assumption;
         injection H as <-; repeat split; exists [];
         now rewrite app_nil_r).
  - cbn [preparse_loop] in H. rewrite He in H. discriminate.
  - rewrite preparse_loop_unfold in H by assumption.
    apply IH in H. destruct H as (C & O & T & K & more & B).
    destruct (preparse_step_keeps st l) as (C' & O' & T' & K' & more' & B').
    repeat split; try congruence.
    exists (more' ++ more). rewrite B, B'. now rewrite app_assoc.
Qed.

End IndexLoop.

(** ** The index after a run of accepted frames *)

Lemma previous_snoc buffer t : previous (buffer ++ [t]) = Some t.
Proof.
  unfold previous. rewrite last_last. now destruct buffer.
Qed.

Lemma index_frame_shown st fr :
  shown (index_frame st fr)
  = shown st
    ++ match previous (timestampBuffer st) with
       | Some p => if timestampMs fr <? p then [NonSequentialTimestamps] else []
       | None => []
       end.
Proof.
  unfold index_frame, previous. cbn [shown].
  destruct (isEmpty (timestampBuffer st)); cbn [negb andb].
  - now rewrite app_nil_r.
  - destruct (timestampMs fr <? last (timestampBuffer st) 0);
      [reflexivity | now rewrite app_nil_r].
Qed.

Lemma index_frames_fields frames : forall st,
  let st' := index_frames frames st in
  timestampPos st'
  = timestampPos st ++ frame_offsets (QFile.cursor (logFile st)) frames
  /\ timestampBuffer st' = timestampBuffer st ++ map timestampMs frames
  /\ shown st'
     = shown st ++ regressions (previous (timestampBuffer st)) frames
  /\ QFile.content (logFile st') = QFile.content (logFile st)
  /\ QFile.cursor (logFile st')
     = QFile.cursor (logFile st) + Z.of_nat (length (encode_log frames))
  /\ timeStamp st' = timeStamp st
  /\ kmlTalk st' = kmlTalk st.
Proof.
  unfold index_frames.
  induction frames as [|fr frames IH]; intros st; cbn zeta.
  - cbn [fold_left frame_offsets map regressions encode_log flat_map length].
    rewrite !app_nil_r. repeat split. cbn. lia.
  - cbn [fold_left]. destruct (IH (index_frame st fr)) as (P & B & S & C & K & T & U).
    cbn zeta in *. rewrite P, B, S, C, K, T, U. clear IH P B S C K T U.
    rewrite index_frame_shown.
    cbn [index_frame timestampPos timestampBuffer logFile timeStamp kmlTalk
         QFile.content QFile.cursor frame_offsets map regressions].
    rewrite previous_snoc, encode_log_cons, length_app, Nat2Z.inj_add.
    rewrite length_encode_frame, <- !app_assoc.
    repeat split. lia.
Qed.

Lemma index_frames_remaining frames : forall st rest,
  addressable (logFile st) ->
  QFile.remaining (logFile st) = encode_log frames ++ rest ->
  addressable (logFile (index_frames frames st))
  /\ QFile.remaining (logFile (index_frames frames st)) = rest.
Proof.
  unfold index_frames.
  induction frames as [|fr frames IH]; intros st rest Ha Hr.
  - now split.
  - cbn [fold_left]. rewrite encode_log_cons, <- app_assoc in Hr.
    apply IH.
    + now apply index_frame_addressable.
    + apply (index_frame_remaining st fr); [apply Ha | exact Hr].
Qed.

Lemma length_encode_log frames :
  (length frames <= length (encode_log frames))%nat.
Proof.
  induction frames as [|fr frames IH]; [reflexivity|].
  rewrite encode_log_cons, length_app.
  pose proof (length_encode_frame fr). unfold payloadLength in *.
  cbn [length]. lia.
Qed.

Lemma frame_offsets_length start frames :
  length (frame_offsets start frames) = length frames.
Proof.
  revert start. induction frames as [|fr frames IH]; intros start;
    cbn [frame_offsets length]; [reflexivity | now rewrite IH].
Qed.

Lemma frame_offsets_lower frames : forall start x,
  In x (frame_offsets start frames) -> start <= x.
Proof.
  induction frames as [|fr frames IH]; intros start x; cbn [frame_offsets In].
  - tauto.
  - intros [<-|H]; [lia|]. apply IH in H. unfold payloadLength in H. lia.
Qed.

(** Offsets of consecutive frames increase strictly. *)
Lemma frame_offsets_sorted frames : forall start,
  StronglySorted Z.lt (frame_offsets start frames).
Proof.
  induction frames as [|fr frames IH]; intros start; cbn [frame_offsets].
  - constructor.
  - constructor; [apply IH|]. apply Forall_forall. intros x H.
    apply frame_offsets_lower in H. unfold payloadLength in H. lia.
Qed.

(** Each offset is the one before it plus the header and the payload of the
    frame before it. *)
Lemma frame_offsets_succ frames : forall start i d,
  (S i < length frames)%nat ->
  nth (S i) (frame_offsets start frames) 0
  = nth i (frame_offsets start frames) 0 + 12
    + payloadLength (nth i frames d).
Proof.
  induction frames as [|fr frames IH]; intros start i d Hi;
    cbn [length] in Hi; [lia|].
  destruct i as [|i].
  - destruct frames as [|fr' frames]; cbn [length] in Hi; [lia|]. reflexivity.
  - cbn [frame_offsets nth]. apply IH. lia.
Qed.

(** ** The streaming pass, one iteration *)

Lemma processInputByte_all buffer : forall talk,
  fold_left processInputByte buffer talk = talk ++ buffer.
Proof.
  induction buffer as [|b buffer IH]; intros talk; cbn [fold_left].
  - now rewrite app_nil_r.
  - rewrite IH. unfold processInputByte. now rewrite <- app_assoc.
Qed.

(** An iteration that finds a whole header in front of it. *)
Lemma parse_step_header st loc stamp field rest :
  addressable (logFile st) ->
  QFile.remaining (logFile st) = stamp ++ field ++ rest ->
  length stamp = 4%nat -> length field = 8%nat ->
  let p := to_qint64 (le_combine field) in
  let header_read :=
    mkKmlExport
      (QFile.mk (QFile.content (logFile st)) (QFile.cursor (logFile st) + 12)
         true)
      (timestampBuffer st) (timestampPos st) (le_combine stamp) (kmlTalk st)
      (shown st) in
  parse_step st loc =
  if (p <? 1) || (p >? 1024 * 1024) then
    (Some StoppedOnCorruption, show header_read IncorrectPacketSize,
     mkParseLocals p (timeStampIdx loc))
  else if Z.of_nat (length rest) <? p then
    (Some Completed, header_read, mkParseLocals p (timeStampIdx loc))
  else
    (None,
     mkKmlExport
       (QFile.mk (QFile.content (logFile st))
          (QFile.cursor (logFile st) + 12 + p) true)
       (timestampBuffer st) (timestampPos st) (le_combine stamp)
       (kmlTalk st ++ firstn (Z.to_nat p) rest) (shown st),
     mkParseLocals p (to_quint32 (timeStampIdx loc + 1))).
Proof.
  intros (Ho & Hc & Hz) Hr L4 L8 p header_read. unfold parse_step.
  rewrite bytesAvailable_remaining, Hr, !length_app, L4 by assumption.
  replace (_ <? 4) with false by (symmetry; apply Z.ltb_ge; lia).
  rewrite (read_prefix _ stamp (field ++ rest) 4) by (assumption || lia).
  assert (R1 : QFile.remaining
                 (QFile.mk (QFile.content (logFile st))
                    (QFile.cursor (logFile st) + 4) true) = field ++ rest).
  { replace 4 with (Z.of_nat (length stamp)) by lia.
    now apply remaining_advance. }
  rewrite (read_prefix _ field rest 8) by (reflexivity || assumption || lia).
  cbn [QFile.content QFile.cursor].
  rewrite !load_full by assumption. fold p.
  replace (QFile.cursor (logFile st) + 4 + 8)
    with (QFile.cursor (logFile st) + 12) by lia.
  fold header_read.
  destruct ((p <? 1) || (p >? 1024 * 1024)) eqn:Hp; [reflexivity|].
  assert (R2 : QFile.remaining
                 (QFile.mk (QFile.content (logFile st))
                    (QFile.cursor (logFile st) + 12) true) = rest).
  { replace 12 with (Z.of_nat (length (stamp ++ field)))
      by (rewrite length_app; lia).
    apply remaining_advance; [assumption|]. now rewrite <- app_assoc. }
  rewrite bytesAvailable_remaining by (cbn; lia). rewrite R2.
  destruct (Z.of_nat (length rest) <? p) eqn:Hl; [reflexivity|].
  apply Z.ltb_ge in Hl. apply orb_false_elim in Hp as [Hp1 Hp2].
  apply Z.ltb_ge in Hp1.
  unfold QFile.read. cbn [QFile.isOpen QFile.content QFile.cursor].
  rewrite R2, processInputByte_all, length_firstn.
  do 4 f_equal. lia.
Qed.

(** A frame both passes accept is forwarded whole. *)
Lemma parse_step_frame st loc fr rest :
  addressable (logFile st) ->
  QFile.remaining (logFile st) = encode_frame fr ++ rest ->
  streamable fr ->
  parse_step st loc = (None, stream_frame st fr, count_frame loc fr).
Proof.
  intros Ha Hr ((Ht & Hl) & H1). unfold encode_frame in Hr.
  rewrite <- !app_assoc in Hr.
  rewrite (parse_step_header st loc _ _ _ Ha Hr)
    by apply length_le_split.
  rewrite !le_combine_split.
  change (Z.of_nat 8 * 8) with 64. change (Z.of_nat 4 * 8) with 32.
  rewrite (Z.mod_small (payloadLength fr)) by lia.
  rewrite (Z.mod_small (timestampMs fr)) by lia.
  rewrite to_qint64_small by lia.
  replace (_ || _) with false
    by (symmetry; rewrite Z.gtb_ltb; apply orb_false_intro;
        apply Z.ltb_ge; lia).
  replace (_ <? payloadLength fr) with false
    by (symmetry; apply Z.ltb_ge; rewrite length_app;
        unfold payloadLength; lia).
  unfold stream_frame, count_frame, payloadLength. rewrite Nat2Z.id.
  rewrite firstn_app, firstn_all, Nat.sub_diag. cbn [firstn].
  now rewrite app_nil_r.
Qed.

Lemma stream_frame_remaining st fr rest :
  0 <= QFile.cursor (logFile st) ->
  QFile.remaining (logFile st) = encode_frame fr ++ rest ->
  QFile.remaining (logFile (stream_frame st fr)) = rest.
Proof.
  intros Hc Hr. unfold stream_frame. cbn [logFile].
  rewrite <- Z.add_assoc, <- length_encode_frame.
  now apply remaining_advance.
Qed.

Lemma stream_frame_addressable st fr :
  addressable (logFile st) -> addressable (logFile (stream_frame st fr)).
Proof.
  intros (Ho & Hc & Hs). unfold addressable, stream_frame, QFile.size in *.
  cbn [logFile QFile.isOpen QFile.cursor QFile.content].
  unfold payloadLength. repeat split; lia.
Qed.

(** ** The streaming pass, the loop *)

Lemma parse_loop_atEnd fuel st loc :
  QFile.atEnd (logFile st) = true ->
  parse_loop fuel st loc = Some (Completed, st, loc).
Proof. intros H. destruct fuel; cbn [parse_loop]; now rewrite H. Qed.

Lemma parse_loop_continue fuel st loc st' loc' :
  QFile.atEnd (logFile st) = false ->
  parse_step st loc = (None, st', loc') ->
  parse_loop (S fuel) st loc = parse_loop fuel st' loc'.
Proof. intros He Hs. cbn [parse_loop]. now rewrite He, Hs. Qed.

Lemma parse_loop_break fuel st loc status st' loc' :
  QFile.atEnd (logFile st) = false ->
  parse_step st loc = (Some status, st', loc') ->
  parse_loop (S fuel) st loc = Some (status, st', loc').
Proof. intros He Hs. cbn [parse_loop]. now rewrite He, Hs. Qed.

Lemma parse_loop_more fuel extra : forall st loc r,
  parse_loop fuel st loc = Some r ->
  parse_loop (fuel + extra) st loc = Some r.
Proof.
  induction fuel as [|fuel IH]; intros st loc r H;
    destruct (QFile.atEnd (logFile st)) eqn:E.
  - rewrite parse_loop_atEnd in * by assumption. assumption.
  - cbn [parse_loop] in H. rewrite E in H. discriminate.
  - rewrite parse_loop_atEnd in * by assumption. assumption.
  - cbn [Nat.add]. cbn [parse_loop] in *. rewrite E in *.
    destruct (parse_step st loc) as [[[status|] st'] loc'];
      [assumption | now apply IH].
Qed.

(** A run of forwarded frames takes one iteration each. *)
Lemma parse_loop_frames frames : forall st loc rest fuel,
  addressable (logFile st) ->
  Forall streamable frames ->
  QFile.remaining (logFile st) = encode_log frames ++ rest ->
  parse_loop (length frames + fuel) st loc
  = parse_loop fuel (stream_frames frames st) (count_frames frames loc).
Proof.
  induction frames as [|fr frames IH]; intros st loc rest fuel Ha Hf Hr.
  - reflexivity.
  - inversion Hf as [|? ? Hi Hf']; subst.
    rewrite encode_log_cons, <- app_assoc in Hr.
    pose proof Ha as (Ho & Hc & _).
    cbn [length Nat.add].
    rewrite (parse_loop_continue _ st loc (stream_frame st fr)
               (count_frame loc fr)).
    + apply (IH _ _ rest); try assumption.
      * now apply stream_frame_addressable.
      * now apply (stream_frame_remaining st fr).
    + apply atEnd_nonempty; try assumption.
      rewrite Hr. apply encode_frame_nonempty.
    + now apply (parse_step_frame st loc fr _ Ha Hr).
Qed.

Lemma stream_frames_fields frames : forall st,
  let st' := stream_frames frames st in
  kmlTalk st' = kmlTalk st ++ flat_map payload frames
  /\ shown st' = shown st
  /\ timestampBuffer st' = timestampBuffer st
  /\ timestampPos st' = timestampPos st
  /\ QFile.content (logFile st') = QFile.content (logFile st)
  /\ QFile.cursor (logFile st')
     = QFile.cursor (logFile st) + Z.of_nat (length (encode_log frames)).
Proof.
  unfold stream_frames.
  induction frames as [|fr frames IH]; intros st; cbn zeta.
  - cbn [fold_left flat_map map last encode_log length].
    rewrite !app_nil_r. repeat split. cbn. lia.
  - cbn [fold_left].
    destruct (IH (stream_frame st fr)) as (K & S & B & P & C & U).
    cbn zeta in *. rewrite K, S, B, P, C, U. clear IH K S B P C U.
    cbn [stream_frame kmlTalk shown timestampBuffer timestampPos logFile
         timeStamp QFile.content QFile.cursor flat_map].
    rewrite encode_log_cons, length_app, Nat2Z.inj_add.
    rewrite length_encode_frame, <- !app_assoc.
    repeat split. lia.
Qed.

Lemma stream_frames_remaining frames : forall st rest,
  addressable (logFile st) ->
  QFile.remaining (logFile st) = encode_log frames ++ rest ->
  addressable (logFile (stream_frames frames st))
  /\ QFile.remaining (logFile (stream_frames frames st)) = rest.
Proof.
  unfold stream_frames.
  induction frames as [|fr frames IH]; intros st rest Ha Hr.
  - now split.
  - cbn [fold_left]. rewrite encode_log_cons, <- app_assoc in Hr.
    apply IH.
    + now apply stream_frame_addressable.
    + apply (stream_frame_remaining st fr); [apply Ha | exact Hr].
Qed.

(** [timeStampIdx] counts the forwarded frames, modulo 2^32. *)
Lemma count_frames_idx frames : forall loc,
  timeStampIdx (count_frames frames loc)
  = if isEmpty frames then timeStampIdx loc
    else to_quint32 (timeStampIdx loc + Z.of_nat (length frames)).
Proof.
  unfold count_frames.
  induction frames as [|fr frames IH]; intros loc; [reflexivity|].
  cbn [fold_left isEmpty]. rewrite IH.
  cbn [count_frame timeStampIdx length].
  destruct frames as [|fr' frames]; cbn [isEmpty].
  - cbn. reflexivity.
  - unfold to_quint32. rewrite Zplus_mod_idemp_l. f_equal. lia.
Qed.

(** An iteration that does not leave the loop moves the cursor forward. *)
Lemma parse_step_progress st loc st' loc' :
  QFile.isOpen (logFile st) = true ->
  0 <= QFile.cursor (logFile st) ->
  parse_step st loc = (None, st', loc') ->
  QFile.isOpen (logFile st') = true
  /\ QFile.content (logFile st') = QFile.content (logFile st)
  /\ QFile.cursor (logFile st) < QFile.cursor (logFile st').
Proof.
  intros Ho Hc. unfold parse_step.
  destruct (QFile.bytesAvailable (logFile st) <? 4) eqn:E4; [discriminate|].
  apply Z.ltb_ge in E4. rewrite bytesAvailable_remaining in E4 by assumption.
  unfold QFile.read at 1. rewrite Ho.
  set (gotStamp := firstn (Z.to_nat 4) (QFile.remaining (logFile st))).
  assert (L4 : length gotStamp = 4%nat).
  { subst gotStamp. rewrite length_firstn. change (Z.to_nat 4) with 4%nat.
    lia. }
  rewrite L4. unfold QFile.read at 1. cbn [QFile.isOpen].
  match goal with |- context [firstn (Z.to_nat 8) ?r] =>
    set (gotSize := firstn (Z.to_nat 8) r) end.
  cbn [QFile.content QFile.cursor].
  match goal with |- context [to_qint64 ?v] => set (p := to_qint64 v) end.
  destruct ((p <? 1) || (p >? 1024 * 1024)); [discriminate|].
  match goal with |- context [QFile.bytesAvailable ?f <? p] =>
    destruct (QFile.bytesAvailable f <? p); [discriminate|] end.
  unfold QFile.read. cbn [QFile.isOpen QFile.content QFile.cursor].
  intros H. injection H as <- _. cbn [logFile QFile.isOpen QFile.content
                                      QFile.cursor].
  repeat split. lia.
Qed.

(** The streaming pass returns on every open log. *)
Lemma parse_loop_total fuel : forall st loc,
  QFile.isOpen (logFile st) = true ->
  0 <= QFile.cursor (logFile st) ->
  QFile.size (logFile st) - QFile.cursor (logFile st) <= Z.of_nat fuel ->
  exists r, parse_loop fuel st loc = Some r.
Proof.
  induction fuel as [|fuel IH]; intros st loc Ho Hc Hm;
    destruct (QFile.atEnd (logFile st)) eqn:He;
    try (eexists; now apply parse_loop_atEnd).
  - apply atEnd_false_lt in He. lia.
  - cbn [parse_loop]. rewrite He.
    destruct (parse_step st loc) as [[[status|] st'] loc'] eqn:Hs.
    + eexists. reflexivity.
    + destruct (parse_step_progress _ _ _ _ Ho Hc Hs) as (Ho' & C & P).
      apply IH; try assumption; unfold QFile.size in *; rewrite ?C; lia.
Qed.

Lemma parseLogFile_total loc st :
  QFile.isOpen (logFile st) = true ->
  0 <= QFile.cursor (logFile st) ->
  exists r, parseLogFile loc st = Some r.
Proof.
  intros Ho Hc. unfold parseLogFile.
  destruct (parse_loop_total (length (QFile.content (logFile st))) st loc
              Ho Hc) as [[[status st'] loc'] H].
  { unfold QFile.size. lia. }
  rewrite H. eexists. reflexivity.
Qed.

(** ** The index pass as a whole *)

Section IndexPassFacts.

Variable indeterminate : Z -> Z.

(** What the pass returns once the loop has come to the end of the file. *)
Lemma preparseLogFile_of_loop st fuel st1 :
  preparse_loop indeterminate fuel (clear_index st) 0 = Some st1 ->
  (fuel <= length (QFile.content (logFile st)))%nat ->
  exists st',
    preparseLogFile indeterminate st
    = Some (negb (isEmpty (timestampBuffer st1)), st')
    /\ timestampPos st' = timestampPos st1
    /\ timestampBuffer st' = timestampBuffer st1
    /\ shown st'
       = shown st1
         ++ (if isEmpty (timestampBuffer st1) then [EmptyLogfile] else []).
Proof.
  intros H Hf. unfold preparseLogFile.
  replace (length (QFile.content (logFile st)))
    with (fuel + (length (QFile.content (logFile st)) - fuel))%nat by lia.
  rewrite (preparse_loop_more _ _ _ _ _ _ H).
  destruct (timestampBuffer st1) as [|t b] eqn:E; cbn [length isEmpty negb].
  - eexists. split; [reflexivity|]. cbn. rewrite E. repeat split.
  - replace (Z.of_nat (S (length b)) =? 0) with false
      by (symmetry; apply Z.eqb_neq; lia).
    eexists. split; [reflexivity|]. cbn. rewrite E, app_nil_r. repeat split.
Qed.

(** The fuel the pass gives its loop is enough: the pass returns on every
    log it can address. *)
Lemma preparseLogFile_total st :
  addressable (logFile st) ->
  exists r, preparseLogFile indeterminate st = Some r.
Proof.
  intros Ha.
  destruct (preparse_loop_total indeterminate
              (length (QFile.content (logFile st))) (clear_index st) 0 Ha)
    as (st1 & Hl & _).
  { destruct Ha as (_ & Hc & _). cbn [clear_index logFile].
    unfold QFile.size. lia. }
  destruct (preparseLogFile_of_loop st _ _ Hl (Nat.le_refl _))
    as (st' & H & _).
  eexists. exact H.
Qed.

End IndexPassFacts.

(** The index pass over a log that is a run of accepted frames. *)
Lemma preparseLogFile_frames indeterminate st frames :
  addressable (logFile st) ->
  Forall indexable frames ->
  QFile.remaining (logFile st) = encode_log frames ->
  exists st',
    preparseLogFile indeterminate st = Some (negb (isEmpty frames), st')
    /\ timestampPos st' = frame_offsets (QFile.cursor (logFile st)) frames
    /\ timestampBuffer st' = map timestampMs frames
    /\ shown st'
       = shown st ++ regressions None frames
         ++ (if isEmpty frames then [EmptyLogfile] else []).
Proof.
  intros Ha Hf Hr.
  assert (Hr' : QFile.remaining (logFile (clear_index st))
                = encode_log frames ++ []) by now rewrite app_nil_r.
  destruct (preparse_loop_frames indeterminate frames (clear_index st) 0 []
              0%nat Ha Hf Hr') as [l Hl].
  destruct (index_frames_remaining frames (clear_index st) [] Ha Hr')
    as [Ha1 Hr1].
  rewrite (preparse_loop_atEnd indeterminate 0) in Hl
    by (apply atEnd_empty; (apply Ha1 || exact Hr1)).
  destruct (preparseLogFile_of_loop indeterminate st _ _ Hl)
    as (st' & Hp & HP & HB & HS).
  { rewrite Nat.add_0_r.
    pose proof (length_encode_log frames).
    pose proof (remaining_length (logFile st)) as Hlen.
    rewrite Hr in Hlen. lia. }
  destruct (index_frames_fields frames (clear_index st))
    as (P & B & S & _).
  cbn [clear_index timestampPos timestampBuffer logFile shown app] in P, B, S.
  exists st'. rewrite HP, P, HS, S. rewrite HB, B in *.
  assert (E : isEmpty (map timestampMs frames) = isEmpty frames)
    by now destruct frames.
  rewrite E in *. rewrite <- app_assoc. now repeat split.
Qed.

(** Claim C3.  For a log of N well-formed frames (sync bytes clear, payload
    fully present) the index pass records exactly N entries, one per frame,
    in file order; the offsets increase strictly, and each is the offset
    before it plus the 12 header bytes plus the payload length of the frame
    before it.  The pass reports success exactly when N is not zero. *)
Theorem index_completeness indeterminate st frames :
  addressable (logFile st) ->
  Forall indexable frames ->
  QFile.remaining (logFile st) = encode_log frames ->
  exists st',
    preparseLogFile indeterminate st = Some (negb (isEmpty frames), st')
    /\ timestampPos st' = frame_offsets (QFile.cursor (logFile st)) frames
    /\ timestampBuffer st' = map timestampMs frames
    /\ length (timestampPos st') = length frames
    /\ StronglySorted Z.lt (timestampPos st')
    /\ forall i d, (S i < length frames)%nat ->
         nth (S i) (timestampPos st') 0
         = nth i (timestampPos st') 0 + 12 + payloadLength (nth i frames d).
Proof.
  intros Ha Hf Hr.
  destruct (preparseLogFile_frames indeterminate st frames Ha Hf Hr)
    as (st' & Hp & HP & HB & _).
  exists st'. rewrite HP.
  split; [exact Hp|]. split; [reflexivity|]. split; [exact HB|].
  split; [apply frame_offsets_length|].
  split; [apply frame_offsets_sorted|].
  intros. now apply frame_offsets_succ.
Qed.

Lemma index_completeness_witness :
  exists st',
    preparseLogFile (fun _ => 0) two_frame_log = Some (true, st')
    /\ timestampPos st' = [3; 17]
    /\ timestampBuffer st' = [1000; 1020].
Proof.
  destruct (index_completeness (fun _ => 0) two_frame_log two_frames)
    as (st' & H & P & B & _).
  - addressable_by_evaluation.
  - frames_by_evaluation.
  - reflexivity.
  - exists st'. repeat split; assumption.
Defined.

(** Claim C5, as the code has it.  When no offset from the cursor to the
    end of the file passes the sync check, so that the pass validates no
    frame, the pass shows "Empty logfile", closes the file and returns
    [false].  The empty input is the case of no offset at all. *)
Theorem empty_log_rejected indeterminate st :
  addressable (logFile st) ->
  no_sync indeterminate (logFile st)
    (length (QFile.remaining (logFile st))) = true ->
  preparseLogFile indeterminate st
  = Some (false,
          mkKmlExport (QFile.mk (QFile.content (logFile st)) 0 false)
            [] [] (timeStamp st) (kmlTalk st) (shown st ++ [EmptyLogfile])).
Proof.
  intros Ha Hn. pose proof Ha as (Ho & Hc & Hz).
  set (count := length (QFile.remaining (logFile st))) in *.
  assert (Hloop : exists f,
             preparse_loop indeterminate count (clear_index st) 0
             = Some (set_logFile (clear_index st) f)
             /\ QFile.content f = QFile.content (logFile st)).
  { destruct (preparse_loop_resync indeterminate count (clear_index st) 0
                0%nat Ha (Nat.le_refl _) Hn) as [l Hl].
    rewrite Nat.add_0_r in Hl. rewrite Hl.
    exists (QFile.mk (QFile.content (logFile st))
              (QFile.cursor (logFile st) + Z.of_nat count) true).
    split; [|reflexivity].
    rewrite preparse_loop_atEnd; [reflexivity|].
    unfold move_to. cbn [set_logFile clear_index logFile].
    unfold QFile.atEnd, QFile.bytesAvailable, QFile.size.
    cbn [QFile.isOpen QFile.content QFile.cursor].
    apply Z.eqb_eq. subst count. unfold QFile.remaining.
    rewrite length_skipn. lia. }
  destruct Hloop as (f & Hl & Hf).
  unfold preparseLogFile.
  replace (length (QFile.content (logFile st)))
    with (count + (length (QFile.content (logFile st)) - count))%nat
    by (pose proof (remaining_length (logFile st)); lia).
  rewrite (preparse_loop_more _ _ _ _ _ _ Hl).
  cbn. unfold stopExport, show, set_logFile, clear_index, QFile.close.
  cbn. now rewrite Hf.
Qed.

Lemma empty_log_rejected_witness :
  preparseLogFile (fun _ => -1) noise_log
  = Some (false,
          mkKmlExport (QFile.mk (repeat Byte.xff 12) 0 false)
            [] [] 0 [] [EmptyLogfile]).
Proof.
  apply (empty_log_rejected (fun _ => -1) noise_log).
  - addressable_by_evaluation.
  - vm_compute. reflexivity.
Defined.

(** Claim C5 as stated fails: an input shorter than one complete frame, a
    header without its payload, is indexed and the pass succeeds. *)
Lemma header_only_log_accepted :
  QFile.remaining (logFile header_only_log)
  = firstn 12 (encode_frame (mkFrame 7 (bytes [1; 2; 3; 4; 5])))
  /\ exists st',
       preparseLogFile (fun _ => 0) header_only_log = Some (true, st')
       /\ timestampPos st' = [0] /\ timestampBuffer st' = [7].
Proof.
  split; [reflexivity|]. eexists. split; [vm_compute; reflexivity|].
  split; reflexivity.
Qed.

(** A successful index pass ran its loop to a state with a timestamp in the
    buffer, then moved the cursor. *)
Lemma preparseLogFile_success indeterminate st st' :
  preparseLogFile indeterminate st = Some (true, st') ->
  exists st1,
    preparse_loop indeterminate (length (QFile.content (logFile st)))
      (clear_index st) 0 = Some st1
    /\ timestampBuffer st1 <> []
    /\ st' = set_logFile st1
               (QFile.seek (logFile st1)
                  (to_qint64 (to_quint64 (QFile.pos (logFile st))))).
Proof.
  unfold preparseLogFile. intros H.
  destruct (preparse_loop indeterminate _ (clear_index st) 0)
    as [st1|]; [|discriminate].
  exists st1. split; [reflexivity|].
  destruct (timestampBuffer st1) eqn:E; [discriminate|].
  split; [discriminate|].
  cbn [length] in H.
  destruct (Z.of_nat (S (length l)) =? 0); [discriminate|].
  now injection H as <-.
Qed.

(** A successful index pass gives the log file back as it found it. *)
Lemma preparseLogFile_restores indeterminate st st' :
  0 <= QFile.cursor (logFile st) < 2 ^ 63 ->
  preparseLogFile indeterminate st = Some (true, st') ->
  logFile st' = logFile st.
Proof.
  intros Hc H.
  destruct (preparseLogFile_success _ _ _ H) as (st1 & Hl & Hb & ->).
  destruct (preparse_loop_keeps indeterminate _ _ _ _ Hl) as (C & O & _).
  cbn [clear_index logFile] in C, O. cbn [set_logFile logFile].
  assert (Ho : QFile.isOpen (logFile st) = true).
  { destruct (QFile.isOpen (logFile st)) eqn:E; [reflexivity|].
    rewrite preparse_loop_atEnd in Hl
      by (cbn [clear_index logFile]; unfold QFile.atEnd; now rewrite E).
    injection Hl as <-. now contradiction Hb. }
  unfold QFile.pos.
  rewrite to_quint64_small, to_qint64_small by lia.
  rewrite seek_to by (congruence || lia).
  rewrite C. destruct (logFile st) as [c p o].
  cbn [QFile.isOpen QFile.content QFile.cursor] in *. now rewrite Ho.
Qed.

(** On [header_only_log] and on [false_sync_log] every read of the index
    pass returns all the bytes asked for, so the content left in [dataSize]
    plays no part. *)
Lemma full_reads_ignore_indeterminate indeterminate :
  preparseLogFile indeterminate header_only_log
  = preparseLogFile (fun _ => 0) header_only_log
  /\ preparseLogFile indeterminate false_sync_log
     = preparseLogFile (fun _ => 0) false_sync_log.
Proof. split; lazy; reflexivity. Qed.

(** Claim C8.  When the index pass succeeds, the log file is as it was when
    the pass began: the same bytes, open, and the cursor back at the offset
    it started from.  The members the pass does not own, the current
    timestamp and the UAVTalk decoder, are untouched. *)
Theorem cursor_restored indeterminate st st' :
  0 <= QFile.cursor (logFile st) < 2 ^ 63 ->
  preparseLogFile indeterminate st = Some (true, st') ->
  logFile st' = logFile st
  /\ timeStamp st' = timeStamp st
  /\ kmlTalk st' = kmlTalk st.
Proof.
  intros Hc H. split; [now apply (preparseLogFile_restores indeterminate)|].
  destruct (preparseLogFile_success _ _ _ H) as (st1 & Hl & _ & ->).
  destruct (preparse_loop_keeps indeterminate _ _ _ _ Hl)
    as (_ & _ & T & K & _).
  split; [exact T | exact K].
Qed.

Lemma cursor_restored_witness :
  exists st',
    preparseLogFile (fun _ => 0) two_frame_log = Some (true, st')
    /\ logFile st' = logFile two_frame_log
    /\ QFile.cursor (logFile st') = 3.
Proof.
  eexists. split; [vm_compute; reflexivity|].
  match goal with |- logFile ?s = _ /\ _ =>
    destruct (cursor_restored (fun _ => 0) two_frame_log s) as (L & _)
  end.
  - cbn. lia.
  - vm_compute. reflexivity.
  - split; [exact L | reflexivity].
Defined.

(** ** Resynchronisation *)

Lemma no_sync_at indeterminate count : forall c p k,
  no_sync indeterminate (QFile.mk c p true) count = true ->
  (k < count)%nat ->
  Z.land (dataSize_at indeterminate (QFile.mk c (p + Z.of_nat k) true))
    sync_mask <> 0.
Proof.
  induction count as [|count IH]; intros c p k H Hk; [lia|].
  cbn [no_sync QFile.content QFile.cursor] in H.
  apply andb_prop in H as [H0 H1].
  destruct k as [|k].
  - cbn [Z.of_nat]. rewrite Z.add_0_r.
    now apply negb_true_iff, Z.eqb_neq in H0.
  - replace (p + Z.of_nat (S k)) with (p + 1 + Z.of_nat k) by lia.
    apply IH; [assumption | lia].
Qed.

(** Claim C2, as the code has it.  [span] is the corrupted stretch of the
    log, between the frames [before] and the frames [after]; no offset in
    it passes the sync check.  At each of its offsets the iteration drops
    the candidate and leaves the cursor one byte further, and the index the
    pass ends with has exactly the entries of the frames before and after
    the span. *)
Theorem resync_skips_span indeterminate st before span after :
  addressable (logFile st) ->
  Forall indexable before ->
  Forall indexable after ->
  QFile.remaining (logFile st) = encode_log before ++ span ++ encode_log after ->
  let resume :=
    QFile.cursor (logFile st) + Z.of_nat (length (encode_log before)) in
  let at_span k :=
    move_to (index_frames before (clear_index st)) (resume + Z.of_nat k) in
  no_sync indeterminate
    (QFile.mk (QFile.content (logFile st)) resume true) (length span) = true ->
  (forall k lastTimeStamp, (k < length span)%nat ->
     fst (preparse_step indeterminate (at_span k) lastTimeStamp)
     = at_span (S k))
  /\ exists st',
       preparseLogFile indeterminate st
       = Some (negb (isEmpty (before ++ after)), st')
       /\ timestampPos st'
          = frame_offsets (QFile.cursor (logFile st)) before
            ++ frame_offsets (resume + Z.of_nat (length span)) after
       /\ timestampBuffer st'
          = map timestampMs before ++ map timestampMs after.
Proof.
  intros Ha Hb Haf Hr resume at_span Hn.
  set (s0 := index_frames before (clear_index st)) in *.
  destruct (index_frames_fields before (clear_index st))
    as (P0 & B0 & _ & C0 & K0 & _).
  fold s0 in P0, B0, C0, K0.
  cbn [clear_index logFile timestampPos timestampBuffer app] in P0, B0, C0, K0.
  fold resume in K0. clearbody resume.
  destruct (index_frames_remaining before (clear_index st) _ Ha Hr)
    as [Ha0 Hr0]. fold s0 in Ha0, Hr0.
  pose proof Ha0 as (Ho0 & Hc0 & Hz0).
  assert (Hfit : (0 < length span)%nat ->
                 resume + Z.of_nat (length span) <= QFile.size (logFile s0)).
  { intros Hpos. pose proof (bytesAvailable_remaining _ Hc0) as Hb0.
    rewrite Hr0, length_app in Hb0. unfold QFile.bytesAvailable in Hb0.
    rewrite K0 in Hb0. lia. }
  assert (Hat : forall k, (k <= length span)%nat ->
                  addressable (logFile (at_span k))
                  /\ QFile.size (logFile (at_span k)) = QFile.size (logFile s0)).
  { intros k Hk. unfold at_span, move_to, addressable, QFile.size in *.
    cbn [set_logFile logFile QFile.isOpen QFile.cursor QFile.content].
    repeat split; lia. }
  split.
  - intros k l Hk. destruct (Hat k) as [Hak Hsk]; [lia|].
    rewrite preparse_step_resync; try assumption.
    + unfold at_span, move_to, set_logFile.
      cbn [fst logFile QFile.content QFile.cursor timestampBuffer
           timestampPos timeStamp kmlTalk shown].
      do 2 f_equal. lia.
    + unfold QFile.atEnd, QFile.bytesAvailable. rewrite Hsk.
      unfold at_span, move_to.
      cbn [set_logFile logFile QFile.isOpen QFile.cursor].
      apply Z.eqb_neq. assert (0 < length span)%nat by lia.
      specialize (Hfit H). lia.
    + unfold at_span, move_to. cbn [set_logFile logFile]. rewrite C0.
      now apply no_sync_at with (count := length span).
  - assert (Hr' : QFile.remaining (logFile (clear_index st))
                  = encode_log before ++ span ++ encode_log after)
      by exact Hr.
    set (fuel := (length before + (length span + (length after + 0)))%nat).
    destruct (preparse_loop_frames indeterminate before (clear_index st) 0 _
                (length span + (length after + 0))%nat Ha Hb Hr')
      as [l1 H1]. fold s0 in H1.
    destruct (preparse_loop_resync indeterminate (length span) s0 l1
                (length after + 0)%nat Ha0) as [l2 H2].
    { rewrite Hr0, length_app. lia. }
    { destruct (logFile s0) as [c p o] eqn:E.
      cbn [QFile.isOpen QFile.content QFile.cursor] in *. subst. exact Hn. }
    rewrite K0 in H2. fold (at_span (length span)) in H2.
    destruct (Hat (length span)) as [Ha2 _]; [lia|].
    assert (Hr2 : QFile.remaining (logFile (at_span (length span)))
                  = encode_log after ++ []).
    { unfold at_span, move_to. cbn [set_logFile logFile].
      rewrite <- K0, app_nil_r. now apply remaining_advance. }
    destruct (preparse_loop_frames indeterminate after
                (at_span (length span)) l2 [] 0%nat Ha2 Haf Hr2)
      as [l3 H3].
    destruct (index_frames_remaining after (at_span (length span)) []
                Ha2 Hr2) as [Ha3 Hr3].
    rewrite (preparse_loop_atEnd indeterminate 0) in H3
      by (apply atEnd_empty; (apply Ha3 || exact Hr3)).
    rewrite <- H2, <- H1 in H3.
    destruct (preparseLogFile_of_loop indeterminate st _ _ H3)
      as (st' & Hp & HP & HB & _).
    { pose proof (length_encode_log before).
      pose proof (length_encode_log after).
      pose proof (remaining_length (logFile st)) as Hlen.
      rewrite Hr, !length_app in Hlen. lia. }
    destruct (index_frames_fields after (at_span (length span)))
      as (P3 & B3 & _).
    change (timestampPos (at_span (length span))) with (timestampPos s0)
      in P3.
    change (QFile.cursor (logFile (at_span (length span))))
      with (resume + Z.of_nat (length span)) in P3.
    change (timestampBuffer (at_span (length span)))
      with (timestampBuffer s0) in B3.
    rewrite P0 in P3. rewrite B0 in B3.
    exists st'. rewrite HP, HB, P3, B3. repeat split.
    rewrite Hp, B3. f_equal. f_equal.
    rewrite <- map_app. now destruct (before ++ after).
Qed.

Lemma resync_skips_span_witness :
  exists st',
    preparseLogFile (fun _ => 0) resync_log = Some (true, st')
    /\ timestampPos st' = [0; 27]
    /\ timestampBuffer st' = [1; 3].
Proof.
  destruct (resync_skips_span (fun _ => 0) resync_log [first_frame]
              (corrupted (bytes [9; 9])) [long_frame])
    as (_ & st' & H & P & B).
  - addressable_by_evaluation.
  - frames_by_evaluation.
  - frames_by_evaluation.
  - vm_compute. reflexivity.
  - vm_compute. reflexivity.
  - exists st'. repeat split; assumption.
Defined.

(** Claim C2 as stated fails.  In [false_sync_log] one header, at offset
    13, has a sync bit set; the frame it heads ends at offset 26 and a
    valid frame follows at offset 27.  One byte after the corrupted header
    the bytes read as a size field have clear sync bytes, so offset 14,
    inside the corrupted frame, is indexed, and the frame at 27 is not. *)
Lemma false_sync_log_misindexed :
  QFile.content (logFile false_sync_log)
  = encode_frame first_frame ++ corrupted (bytes [0; 0])
    ++ encode_frame (mkFrame 3 (bytes [7; 8]))
  /\ length (encode_frame first_frame) = 13%nat
  /\ length (corrupted (bytes [0; 0])) = 14%nat
  /\ exists st',
       preparseLogFile (fun _ => 0) false_sync_log = Some (true, st')
       /\ timestampPos st' = [0; 14]
       /\ ~ In 27 (timestampPos st').
Proof.
  split; [reflexivity|]. split; [reflexivity|]. split; [reflexivity|].
  eexists. split; [vm_compute; reflexivity|]. split; [reflexivity|].
  cbn. intros [H|[H|[]]]; discriminate.
Qed.






(** ** The streaming pass as a whole *)

Lemma parseLogFile_of_loop loc st fuel status st1 loc1 :
  parse_loop fuel st loc = Some (status, st1, loc1) ->
  (fuel <= length (QFile.content (logFile st)))%nat ->
  parseLogFile loc st = Some (status, stopExport st1, loc1).
Proof.
  intros H Hf. unfold parseLogFile.
  replace (length (QFile.content (logFile st)))
    with (fuel + (length (QFile.content (logFile st)) - fuel))%nat by lia.
  now rewrite (parse_loop_more _ _ _ _ _ H).
Qed.

Lemma unlikely_packetSize field :
  length field = 8%nat -> unlikely field ->
  (to_qint64 (le_combine field) <? 1)
  || (to_qint64 (le_combine field) >? 1024 * 1024) = true.
Proof.
  intros L8 Hu. pose proof (le_combine_bound field) as Hb.
  rewrite L8 in Hb. change (2 ^ (8 * Z.of_nat 8)) with (2 ^ 64) in Hb.
  rewrite Z.gtb_ltb. apply orb_true_iff.
  unfold to_qint64. rewrite Z.mod_small by lia.
  destruct (le_combine field <? 2 ^ 63) eqn:E.
  - apply Z.ltb_lt in E. destruct Hu as [Hu|Hu].
    + left. apply Z.ltb_lt. lia.
    + right. apply Z.ltb_lt. lia.
  - apply Z.ltb_ge in E. left. apply Z.ltb_lt. lia.
Qed.

(** Forwarded frames, then a header with an unlikely packet size: the loop
    is left through the corruption branch. *)
Lemma parse_loop_unlikely loc st frames stamp field rest :
  addressable (logFile st) ->
  Forall streamable frames ->
  length stamp = 4%nat -> length field = 8%nat ->
  unlikely field ->
  QFile.remaining (logFile st) = encode_log frames ++ stamp ++ field ++ rest ->
  exists st1,
    parse_loop (length frames + 1) st loc
    = Some (StoppedOnCorruption, st1,
            mkParseLocals (to_qint64 (le_combine field))
              (timeStampIdx (count_frames frames loc)))
    /\ kmlTalk st1 = kmlTalk st ++ flat_map payload frames
    /\ shown st1 = shown st ++ [IncorrectPacketSize]
    /\ timeStamp st1 = le_combine stamp.
Proof.
  intros Ha Hf L4 L8 Hu Hr.
  destruct (stream_frames_remaining frames st _ Ha Hr) as [Ha1 Hr1].
  destruct (stream_frames_fields frames st) as (K & S & _).
  pose proof (parse_loop_frames frames st loc _ 1 Ha Hf Hr) as Hl.
  pose proof (parse_step_header _ (count_frames frames loc) _ _ _ Ha1 Hr1
                L4 L8) as Hs.
  cbn zeta in Hs. rewrite unlikely_packetSize in Hs by assumption.
  rewrite (parse_loop_break _ _ _ _ _ _
             (atEnd_nonempty _ (proj1 Ha1) (proj1 (proj2 Ha1))
                ltac:(rewrite Hr1; destruct stamp; discriminate)) Hs) in Hl.
  eexists. split; [exact Hl|]. cbn zeta in K, S.
  cbn [show kmlTalk shown timeStamp]. now rewrite K, S.
Qed.

Lemma quint32_count loc frames :
  to_quint32 (timeStampIdx (count_frames frames loc))
  = to_quint32 (timeStampIdx loc + Z.of_nat (length frames)).
Proof.
  rewrite count_frames_idx.
  destruct frames; cbn [isEmpty length].
  - f_equal. cbn. lia.
  - unfold to_quint32. now rewrite Z.mod_mod by lia.
Qed.

(** Claim C1.  A log of K frames that pass the sync check and the sanity
    bound, followed by a header whose size field decodes to 0 or to more
    than 1 MiB: the streaming pass hands the decoder exactly the payload
    bytes of the K frames, in file order, and nothing of the bad frame; it
    shows "Incorrect packet size" and ends with [StoppedOnCorruption];
    [timeStampIdx] has advanced by K. *)
Theorem corruption_stops_stream loc st frames stamp field rest :
  addressable (logFile st) ->
  Forall streamable frames ->
  length stamp = 4%nat -> length field = 8%nat ->
  le_combine field = 0 \/ 1024 * 1024 < le_combine field ->
  QFile.remaining (logFile st) = encode_log frames ++ stamp ++ field ++ rest ->
  exists st' loc',
    parseLogFile loc st = Some (StoppedOnCorruption, st', loc')
    /\ kmlTalk st' = kmlTalk st ++ flat_map payload frames
    /\ shown st' = shown st ++ [IncorrectPacketSize]
    /\ to_quint32 (timeStampIdx loc')
       = to_quint32 (timeStampIdx loc + Z.of_nat (length frames)).
Proof.
  intros Ha Hf L4 L8 Hu Hr.
  destruct (parse_loop_unlikely loc st frames stamp field rest Ha Hf L4 L8
              Hu Hr) as (st1 & Hl & K & S & _).
  apply parseLogFile_of_loop in Hl.
  - eexists _, _. split; [exact Hl|].
    cbn [stopExport set_logFile kmlTalk shown timeStampIdx].
    split; [exact K|]. split; [exact S|].
    apply quint32_count.
  - pose proof (length_encode_log frames).
    pose proof (remaining_length (logFile st)) as Hlen.
    rewrite Hr, !length_app, L4 in Hlen. lia.
Qed.

Lemma corruption_stops_stream_witness :
  exists st' loc',
    parseLogFile (mkParseLocals 0 0) salvage_log
    = Some (StoppedOnCorruption, st', loc')
    /\ kmlTalk st' = bytes [60; 32; 60; 33; 7]
    /\ shown st' = [IncorrectPacketSize].
Proof.
  destruct (corruption_stops_stream (mkParseLocals 0 0) salvage_log
              two_frames (bytes [9; 0; 0; 0])
              (bytes [0; 0; 0; 0; 0; 0; 0; 0]) (bytes [5; 5]))
    as (st' & loc' & H & K & S & _).
  - addressable_by_evaluation.
  - repeat constructor; unfold payloadLength; cbn; lia.
  - reflexivity.
  - reflexivity.
  - left. reflexivity.
  - vm_compute. reflexivity.
  - exists st', loc'. repeat split; assumption.
Defined.

(** Claim C6, as the code has it.  After any number of forwarded frames, a
    header whose size field is within the sanity bound and promises more
    bytes than the file still holds ends the streaming pass as the end of
    the file does: status [Completed], no message box, and the decoder
    keeps every payload byte forwarded before. *)
Theorem truncated_tail_is_normal_end loc st frames stamp field tail :
  addressable (logFile st) ->
  Forall streamable frames ->
  length stamp = 4%nat -> length field = 8%nat ->
  le_combine field <= 1024 * 1024 ->
  Z.of_nat (length tail) < le_combine field ->
  QFile.remaining (logFile st) = encode_log frames ++ stamp ++ field ++ tail ->
  exists st' loc',
    parseLogFile loc st = Some (Completed, st', loc')
    /\ kmlTalk st' = kmlTalk st ++ flat_map payload frames
    /\ shown st' = shown st.
Proof.
  intros Ha Hf L4 L8 Hmax Hlt Hr.
  destruct (stream_frames_remaining frames st _ Ha Hr) as [Ha1 Hr1].
  destruct (stream_frames_fields frames st) as (K & S & _).
  pose proof (parse_loop_frames frames st loc _ 1 Ha Hf Hr) as Hl.
  pose proof (parse_step_header _ (count_frames frames loc) _ _ _ Ha1 Hr1
                L4 L8) as Hs.
  cbn zeta in Hs.
  rewrite to_qint64_small in Hs by lia.
  replace ((le_combine field <? 1) || (le_combine field >? 1024 * 1024))
    with false in Hs
    by (symmetry; rewrite Z.gtb_ltb; apply orb_false_intro;
        apply Z.ltb_ge; lia).
  replace (Z.of_nat (length tail) <? le_combine field) with true in Hs
    by (symmetry; now apply Z.ltb_lt).
  rewrite (parse_loop_break _ _ _ _ _ _
             (atEnd_nonempty _ (proj1 Ha1) (proj1 (proj2 Ha1))
                ltac:(rewrite Hr1; destruct stamp; discriminate)) Hs) in Hl.
  apply parseLogFile_of_loop in Hl.
  - eexists _, _. split; [exact Hl|]. cbn zeta in K, S.
    cbn [stopExport set_logFile kmlTalk shown].
    rewrite K, S. split; reflexivity.
  - pose proof (length_encode_log frames).
    pose proof (remaining_length (logFile st)) as Hlen.
    rewrite Hr, !length_app, L4 in Hlen. lia.
Qed.

Lemma truncated_tail_is_normal_end_witness :
  exists st' loc',
    parseLogFile (mkParseLocals 0 0) truncated_log
    = Some (Completed, st', loc')
    /\ kmlTalk st' = bytes [60; 32; 60; 33; 7]
    /\ shown st' = [].
Proof.
  destruct (truncated_tail_is_normal_end (mkParseLocals 0 0) truncated_log
              two_frames (bytes [9; 0; 0; 0])
              (bytes [4; 0; 0; 0; 0; 0; 0; 0]) (bytes [5; 5]))
    as (st' & loc' & H & K & S).
  - addressable_by_evaluation.
  - repeat constructor; unfold payloadLength; cbn; lia.
  - reflexivity.
  - reflexivity.
  - vm_compute. discriminate.
  - vm_compute. reflexivity.
  - vm_compute. reflexivity.
  - exists st', loc'. repeat split; assumption.
Defined.

(** Claim C6 as stated fails.  The last frame of [oversized_tail_log]
    declares 0x200005 payload bytes, five by the low 16 bits of the size
    field, and two bytes remain after its header; the streaming pass
    reports corruption. *)
Lemma oversized_tail_is_corruption :
  QFile.content (logFile oversized_tail_log)
  = encode_log two_frames
    ++ bytes [9; 0; 0; 0] ++ bytes [5; 0; 32; 0; 0; 0; 0; 0] ++ bytes [5; 5]
  /\ le_combine (bytes [5; 0; 32; 0; 0; 0; 0; 0]) = 0x200005
  /\ Z.land 0x200005 0xFFFF = 5
  /\ exists st' loc',
       parseLogFile (mkParseLocals 0 0) oversized_tail_log
       = Some (StoppedOnCorruption, st', loc')
       /\ shown st' = [IncorrectPacketSize].
Proof.
  split; [reflexivity|]. split; [reflexivity|]. split; [reflexivity|].
  eexists _, _. split; [vm_compute; reflexivity | reflexivity].
Qed.

(** ** One frame through both passes *)

Lemma encode_log_app before after :
  encode_log (before ++ after) = encode_log before ++ encode_log after.
Proof. apply flat_map_app. Qed.

Lemma streamable_indexable frames :
  Forall streamable frames -> Forall indexable frames.
Proof. apply Forall_impl. now intros fr [H _]. Qed.

Lemma le_combine_zero_field : le_combine (le_split 8 0) = 0.
Proof. reflexivity. Qed.

(** Claim C9.  A frame with timestamp T and a payload P of 1 to 0xFFFF
    bytes, laid out as the log has it, is decoded to T and P: the index
    pass records T at the offset of the frame and reads the size field as
    the length of P; the streaming pass accepts the frame, sets the current
    timestamp to T, hands the decoder exactly the bytes of P and shows no
    box. *)
Theorem frame_round_trip indeterminate loc st stamp data :
  addressable (logFile st) ->
  0 <= stamp < 2 ^ 32 ->
  1 <= Z.of_nat (length data) <= 0xFFFF ->
  QFile.remaining (logFile st) = encode_frame (mkFrame stamp data) ->
  (exists st',
     preparseLogFile indeterminate st = Some (true, st')
     /\ timestampBuffer st' = [stamp]
     /\ timestampPos st' = [QFile.cursor (logFile st)])
  /\ dataSize_at indeterminate (logFile st) = Z.of_nat (length data)
  /\ exists st' loc',
       parseLogFile loc st = Some (Completed, st', loc')
       /\ timeStamp st' = stamp
       /\ kmlTalk st' = kmlTalk st ++ data
       /\ shown st' = shown st.
Proof.
  intros Ha Ht Hl Hr.
  assert (Hi : indexable (mkFrame stamp data))
    by (split; [assumption | unfold payloadLength; cbn [payload]; lia]).
  pose proof Ha as (Ho & Hc & Hz).
  assert (Hr1 : QFile.remaining (logFile st)
                = encode_frame (mkFrame stamp data) ++ [])
    by now rewrite app_nil_r.
  assert (Hlen : (1 <= length (QFile.content (logFile st)))%nat).
  { pose proof (remaining_length (logFile st)) as H. rewrite Hr in H.
    pose proof (length_encode_frame (mkFrame stamp data)) as H2.
    unfold payloadLength in H2. lia. }
  split; [|split].
  - destruct (preparseLogFile_frames indeterminate st [mkFrame stamp data] Ha)
      as (st' & H & P & B & _).
    + now constructor.
    + cbn [encode_log flat_map]. exact Hr1.
    + exists st'. repeat split; assumption.
  - apply (dataSize_at_frame indeterminate _ (mkFrame stamp data) []);
      assumption.
  - assert (Hs : Forall streamable [mkFrame stamp data]).
    { constructor; [|constructor]. split; [exact Hi|].
      unfold payloadLength. cbn [payload]. lia. }
    pose proof (parse_loop_frames _ st loc [] 0 Ha Hs) as Hloop.
    cbn [encode_log flat_map] in Hloop. rewrite !app_nil_r in Hloop.
    specialize (Hloop Hr).
    rewrite (parse_loop_atEnd 0) in Hloop.
    + apply parseLogFile_of_loop in Hloop; [|exact Hlen].
      eexists _, _. split; [exact Hloop|].
      split; [reflexivity|]. split; reflexivity.
    + destruct (stream_frames_remaining [mkFrame stamp data] st [] Ha)
        as [Ha1 Hr2].
      { cbn [encode_log flat_map]. now rewrite !app_nil_r. }
      apply atEnd_empty; (apply Ha1 || exact Hr2).
Qed.

Lemma frame_round_trip_witness :
  (exists st',
     preparseLogFile (fun _ => 0) one_frame_log = Some (true, st')
     /\ timestampBuffer st' = [70000]
     /\ timestampPos st' = [3])
  /\ exists st' loc',
       parseLogFile (mkParseLocals 0 0) one_frame_log
       = Some (Completed, st', loc')
       /\ timeStamp st' = 70000
       /\ kmlTalk st' = bytes [60; 0; 255]
       /\ shown st' = [].
Proof.
  destruct (frame_round_trip (fun _ => 0) (mkParseLocals 0 0) one_frame_log
              70000 (bytes [60; 0; 255])) as (I & _ & S).
  - addressable_by_evaluation.
  - lia.
  - cbn. lia.
  - vm_compute. reflexivity.
  - split; [exact I | exact S].
Defined.

(** Claim C9, as stated, at a payload of no bytes.  The frame is laid out
    as the claim says and its length is within 0xFFFF, but the streaming
    pass does not decode it: the size field fails the test
    [packetSize < 1], the "Incorrect packet size" box is shown and the pass
    stops with [StoppedOnCorruption], whatever [packetSize] held. *)
Lemma empty_payload_is_rejected :
  Z.of_nat (length (payload (mkFrame 5 []))) <= 0xFFFF
  /\ QFile.remaining (logFile empty_payload_log) = encode_frame (mkFrame 5 [])
  /\ forall loc,
       exists st' loc',
         parseLogFile loc empty_payload_log
         = Some (StoppedOnCorruption, st', loc')
         /\ shown st' = [IncorrectPacketSize]
         /\ ~ (exists st'' loc'',
                 parseLogFile loc empty_payload_log
                 = Some (Completed, st'', loc'')).
Proof.
  split; [cbn; lia|]. split; [reflexivity|].
  intros [size idx]. eexists _, _.
  split; [lazy; reflexivity|]. split; [reflexivity|].
  intros (st'' & loc'' & H). lazy in H. discriminate H.
Qed.

(** Claim C10.  A frame whose size field is zero, between frames that both
    passes accept: the index pass indexes it like any other frame, with the
    next candidate 12 bytes further, and succeeds; the streaming pass run
    after it forwards the frames in front of the empty one and stops there
    with [StoppedOnCorruption].  The index holds more entries than frames
    were forwarded. *)
Theorem empty_frame_indexed_not_streamed
  indeterminate loc st before stamp after :
  addressable (logFile st) ->
  Forall streamable before ->
  Forall indexable after ->
  0 <= stamp < 2 ^ 32 ->
  QFile.remaining (logFile st)
  = encode_log before ++ encode_frame (mkFrame stamp []) ++ encode_log after ->
  exists indexed streamed loc',
    preparseLogFile indeterminate st = Some (true, indexed)
    /\ timestampPos indexed
       = frame_offsets (QFile.cursor (logFile st))
           (before ++ mkFrame stamp [] :: after)
    /\ nth (length before) (timestampBuffer indexed) 0 = stamp
    /\ (after <> [] ->
        nth (S (length before)) (timestampPos indexed) 0
        = nth (length before) (timestampPos indexed) 0 + 12)
    /\ parseLogFile loc indexed = Some (StoppedOnCorruption, streamed, loc')
    /\ kmlTalk streamed = kmlTalk st ++ flat_map payload before
    /\ to_quint32 (timeStampIdx loc')
       = to_quint32 (timeStampIdx loc + Z.of_nat (length before))
    /\ (length before < length (timestampPos indexed))%nat.
Proof.
  intros Ha Hb Haf Ht Hr.
  set (empty := mkFrame stamp []) in *.
  set (frames := before ++ empty :: after).
  assert (Hf : Forall indexable frames).
  { apply Forall_app. split; [now apply streamable_indexable|].
    constructor; [|exact Haf].
    split; [exact Ht | cbn; lia]. }
  assert (Hr' : QFile.remaining (logFile st) = encode_log frames).
  { subst frames. now rewrite encode_log_app, encode_log_cons. }
  destruct (preparseLogFile_frames indeterminate st frames Ha Hf Hr')
    as (indexed & Hp & HP & HB & _).
  replace (negb (isEmpty frames)) with true in Hp
    by (subst frames; now destruct before).
  pose proof Ha as (Ho & Hc & Hz).
  assert (Hlt : QFile.cursor (logFile st) < QFile.size (logFile st)).
  { apply atEnd_false_lt, atEnd_nonempty; try assumption.
    rewrite Hr. destruct before; cbn; discriminate. }
  assert (L : logFile indexed = logFile st)
    by (apply (preparseLogFile_restores indeterminate); [lia | exact Hp]).
  assert (K : kmlTalk indexed = kmlTalk st).
  { destruct (preparseLogFile_success _ _ _ Hp) as (st1 & Hl & _ & ->).
    now destruct (preparse_loop_keeps indeterminate _ _ _ _ Hl)
      as (_ & _ & _ & K & _). }
  assert (Hr2 : QFile.remaining (logFile indexed)
                = encode_log before ++ le_split 4 stamp ++ le_split 8 0
                  ++ encode_log after).
  { rewrite L, Hr. reflexivity. }
  destruct (parse_loop_unlikely loc indexed before _ _ _
              ltac:(rewrite L; exact Ha) Hb
              (length_le_split 4 stamp) (length_le_split 8 0)
              (or_introl le_combine_zero_field) Hr2)
    as (st1 & Hs & HK & _).
  apply parseLogFile_of_loop in Hs.
  2:{ pose proof (length_encode_log before).
      pose proof (remaining_length (logFile indexed)) as Hlen.
      rewrite Hr2, !length_app, length_le_split in Hlen. lia. }
  assert (HI : to_quint32
                 (timeStampIdx (count_frames before loc))
               = to_quint32 (timeStampIdx loc + Z.of_nat (length before)))
    by apply quint32_count.
  eexists indexed, (stopExport st1), _.
  split; [exact Hp|]. split; [exact HP|].
  split; [rewrite HB; subst frames; rewrite map_app;
          rewrite <- (length_map timestampMs before); apply nth_middle|].
  split.
  { intros Hne. rewrite HP.
    rewrite (frame_offsets_succ frames _ (length before) empty).
    - subst frames. now rewrite nth_middle, Z.add_0_r.
    - subst frames. rewrite length_app. cbn [length].
      destruct after; [congruence | cbn [length]; lia]. }
  split; [exact Hs|].
  split; [cbn [stopExport set_logFile kmlTalk]; now rewrite HK, K|].
  split; [exact HI|].
  rewrite HP, frame_offsets_length. subst frames.
  rewrite length_app. cbn [length]. lia.
Qed.

Lemma empty_frame_indexed_not_streamed_witness :
  exists indexed streamed loc',
    preparseLogFile (fun _ => 0) empty_frame_log = Some (true, indexed)
    /\ timestampPos indexed = [0; 13; 25]
    /\ parseLogFile (mkParseLocals 0 0) indexed
       = Some (StoppedOnCorruption, streamed, loc')
    /\ kmlTalk streamed = bytes [1].
Proof.
  destruct (empty_frame_indexed_not_streamed (fun _ => 0) (mkParseLocals 0 0)
              empty_frame_log [first_frame] 5 [mkFrame 6 (bytes [7; 8])])
    as (indexed & streamed & loc' & Hp & HP & _ & _ & Hs & HK & _).
  - addressable_by_evaluation.
  - repeat constructor; unfold payloadLength; cbn; lia.
  - frames_by_evaluation.
  - lia.
  - vm_compute. reflexivity.
  - exists indexed, streamed, loc'. repeat split; assumption.
Defined.

(** [cut_header_log] reaches the streaming pass: whatever is left in
    [dataSize] when the index pass reads the cut-off header, the two whole
    frames are indexed, the pass succeeds and hands the log back with the
    cursor at its start. *)
Lemma cut_header_log_is_indexed indeterminate :
  exists st',
    preparseLogFile indeterminate cut_header_log = Some (true, st')
    /\ logFile st' = logFile cut_header_log.
Proof.
  assert (Ha : addressable (logFile (clear_index cut_header_log)))
    by addressable_by_evaluation.
  assert (Hr : QFile.remaining (logFile (clear_index cut_header_log))
               = encode_log two_frames ++ bytes [9; 0; 0; 0; 0])
    by (vm_compute; reflexivity).
  destruct (preparse_loop_frames indeterminate two_frames
              (clear_index cut_header_log) 0 _ 32%nat Ha
              ltac:(frames_by_evaluation) Hr) as [l Hl].
  destruct (index_frames_remaining two_frames _ _ Ha Hr) as [Ha1 _].
  destruct (preparse_loop_total indeterminate 32 _ l Ha1) as (final & Hf & _).
  { vm_compute. discriminate. }
  destruct (preparse_loop_keeps _ _ _ _ _ Hf) as (_ & _ & _ & _ & more & Hm).
  rewrite <- Hl in Hf.
  destruct (preparseLogFile_of_loop indeterminate cut_header_log _ _ Hf)
    as (st' & Hp & _).
  { vm_compute. reflexivity. }
  rewrite Hm in Hp. cbn in Hp.
  exists st'. split; [exact Hp|].
  apply (preparseLogFile_restores indeterminate cut_header_log st');
    [cbn; lia | exact Hp].
Qed.

(** Claim C4 fails on the code.  In [cut_header_log] five bytes follow the
    last whole frame, fewer than the twelve of a header.  The streaming
    pass checks for four bytes only: it reads the timestamp and the one
    byte left of the size field over the stale content of [packetSize],
    and reports the cut-off header as corruption. *)
Theorem cut_header_is_read :
  QFile.remaining (logFile (stream_frames two_frames cut_header_log))
  = bytes [9; 0; 0; 0; 0]
  /\ parse_step (stream_frames two_frames cut_header_log)
       (count_frames two_frames (mkParseLocals 0 0))
     = (Some StoppedOnCorruption,
        mkKmlExport
          (QFile.mk (QFile.content (logFile cut_header_log)) 34 true)
          [] [] 9 (bytes [60; 32; 60; 33; 7]) [IncorrectPacketSize],
        mkParseLocals 0 2)
  /\ parseLogFile (mkParseLocals 0 0) cut_header_log
     = Some (StoppedOnCorruption,
             mkKmlExport
               (QFile.mk (QFile.content (logFile cut_header_log)) 0 false)
               [] [] 9 (bytes [60; 32; 60; 33; 7]) [IncorrectPacketSize],
             mkParseLocals 0 2).
Proof. repeat split; vm_compute; reflexivity. Qed.

(** * Further properties of the two passes *)

(** ** The streaming pass on frames within its bound *)

Lemma last_default {A : Type} (l : list A) (d d' : A) :
  l <> [] -> last l d = last l d'.
Proof.
  induction l as [|a l IH]; [congruence|]. intros _.
  destruct l as [|b l]; [reflexivity|].
  cbn [last] in *. apply IH. discriminate.
Qed.

Lemma last_cons {A : Type} (l : list A) (a d : A) :
  last (a :: l) d = last l a.
Proof.
  destruct l as [|b l]; [reflexivity|].
  change (last (a :: b :: l) d) with (last (b :: l) d).
  apply last_default. discriminate.
Qed.

Lemma stream_frames_timeStamp frames : forall st,
  timeStamp (stream_frames frames st)
  = last (map timestampMs frames) (timeStamp st).
Proof.
  unfold stream_frames.
  induction frames as [|fr frames IH]; intros st; [reflexivity|].
  cbn [fold_left map]. rewrite IH, last_cons. reflexivity.
Qed.

Lemma parse_step_forwardable st loc fr rest :
  addressable (logFile st) ->
  QFile.remaining (logFile st) = encode_frame fr ++ rest ->
  forwardable fr ->
  parse_step st loc = (None, stream_frame st fr, count_frame loc fr).
Proof.
  intros Ha Hr (Ht & H1 & Hl). unfold encode_frame in Hr.
  rewrite <- !app_assoc in Hr.
  rewrite (parse_step_header st loc _ _ _ Ha Hr)
    by apply length_le_split.
  rewrite !le_combine_split.
  change (Z.of_nat 8 * 8) with 64. change (Z.of_nat 4 * 8) with 32.
  rewrite (Z.mod_small (payloadLength fr)) by lia.
  rewrite (Z.mod_small (timestampMs fr)) by lia.
  rewrite to_qint64_small by lia.
  replace (_ || _) with false
    by (symmetry; rewrite Z.gtb_ltb; apply orb_false_intro;
        apply Z.ltb_ge; lia).
  replace (_ <? payloadLength fr) with false
    by (symmetry; apply Z.ltb_ge; rewrite length_app;
        unfold payloadLength; lia).
  unfold stream_frame, count_frame, payloadLength. rewrite Nat2Z.id.
  rewrite firstn_app, firstn_all, Nat.sub_diag. cbn [firstn].
  now rewrite app_nil_r.
Qed.

Lemma parse_loop_forwardable frames : forall st loc rest fuel,
  addressable (logFile st) ->
  Forall forwardable frames ->
  QFile.remaining (logFile st) = encode_log frames ++ rest ->
  parse_loop (length frames + fuel) st loc
  = parse_loop fuel (stream_frames frames st) (count_frames frames loc).
Proof.
  induction frames as [|fr frames IH]; intros st loc rest fuel Ha Hf Hr.
  - reflexivity.
  - inversion Hf as [|? ? Hi Hf']; subst.
    rewrite encode_log_cons, <- app_assoc in Hr.
    pose proof Ha as (Ho & Hc & _).
    cbn [length Nat.add].
    rewrite (parse_loop_continue _ st loc (stream_frame st fr)
               (count_frame loc fr)).
    + apply (IH _ _ rest); try assumption.
      * now apply stream_frame_addressable.
      * now apply (stream_frame_remaining st fr).
    + apply atEnd_nonempty; try assumption.
      rewrite Hr. apply encode_frame_nonempty.
    + now apply (parse_step_forwardable st loc fr _ Ha Hr).
Qed.

(** Extra X1.  A log that is a run of frames with size fields between 1 and
    1 MiB, whatever their sync bytes: the streaming pass hands the decoder
    every payload byte in file order, leaves the current timestamp at that
    of the last frame, shows no message box, ends with [Completed] and
    closes the file; [timeStampIdx] has advanced by the number of frames. *)
Theorem stream_forwards_every_frame loc st frames :
  addressable (logFile st) ->
  Forall forwardable frames ->
  QFile.remaining (logFile st) = encode_log frames ->
  exists st' loc',
    parseLogFile loc st = Some (Completed, st', loc')
    /\ kmlTalk st' = kmlTalk st ++ flat_map payload frames
    /\ timeStamp st' = last (map timestampMs frames) (timeStamp st)
    /\ shown st' = shown st
    /\ logFile st' = QFile.mk (QFile.content (logFile st)) 0 false
    /\ to_quint32 (timeStampIdx loc')
       = to_quint32 (timeStampIdx loc + Z.of_nat (length frames)).
Proof.
  intros Ha Hf Hr.
  assert (Hr' : QFile.remaining (logFile st) = encode_log frames ++ [])
    by now rewrite app_nil_r.
  pose proof (parse_loop_forwardable frames st loc [] 0 Ha Hf Hr') as Hl.
  destruct (stream_frames_remaining frames st [] Ha Hr') as [Ha1 Hr1].
  rewrite (parse_loop_atEnd 0) in Hl
    by (apply atEnd_empty; (apply Ha1 || exact Hr1)).
  apply parseLogFile_of_loop in Hl.
  - destruct (stream_frames_fields frames st) as (K & S & _ & _ & C & _).
    eexists _, _. split; [exact Hl|].
    cbn [stopExport set_logFile kmlTalk timeStamp shown logFile].
    split; [exact K|]. split; [apply stream_frames_timeStamp|].
    split; [exact S|]. split; [unfold QFile.close; now rewrite C|].
    apply quint32_count.
  - rewrite Nat.add_0_r. pose proof (length_encode_log frames).
    pose proof (remaining_length (logFile st)) as Hlen.
    rewrite Hr in Hlen. lia.
Qed.

Lemma stream_forwards_every_frame_witness :
  exists st' loc',
    parseLogFile (mkParseLocals 0 0) two_frame_log = Some (Completed, st', loc')
    /\ kmlTalk st' = bytes [60; 32; 60; 33; 7]
    /\ timeStamp st' = 1020.
Proof.
  destruct (stream_forwards_every_frame (mkParseLocals 0 0) two_frame_log
              two_frames) as (st' & loc' & H & K & T & _).
  - addressable_by_evaluation.
  - repeat constructor; unfold payloadLength; cbn; lia.
  - reflexivity.
  - exists st', loc'. repeat split; assumption.
Defined.

(** Extra X2.  A frame whose size field lies above 0xFFFF and within
    1 MiB: the index pass finds its sync bytes wrong, drops the candidate
    and moves one byte on, while the streaming pass forwards the frame
    whole. *)
Theorem oversize_frame_streamed_not_indexed
  indeterminate loc st lastTimeStamp fr rest :
  addressable (logFile st) ->
  forwardable fr ->
  0xFFFF < payloadLength fr ->
  QFile.remaining (logFile st) = encode_frame fr ++ rest ->
  fst (preparse_step indeterminate st lastTimeStamp)
  = move_to st (QFile.cursor (logFile st) + 1)
  /\ parse_step st loc = (None, stream_frame st fr, count_frame loc fr).
Proof.
  intros Ha Hf Hbig Hr. split.
  - pose proof Ha as (Ho & Hc & _). pose proof Hf as (_ & _ & Hl).
    assert (He : QFile.atEnd (logFile st) = false)
      by (apply atEnd_nonempty; try assumption;
          rewrite Hr; apply encode_frame_nonempty).
    rewrite preparse_step_resync; [reflexivity | assumption | assumption |].
    unfold encode_frame in Hr. rewrite <- !app_assoc in Hr.
    rewrite (dataSize_at_header indeterminate _ _ _ _ Ho Hc Hr)
      by apply length_le_split.
    rewrite le_combine_split. change (Z.of_nat 8 * 8) with 64.
    rewrite Z.mod_small, to_qint64_small by lia.
    intros Hs. apply sync_clear_iff in Hs; lia.
  - now apply (parse_step_forwardable st loc fr rest).
Qed.

Lemma oversize_frame_streamed_not_indexed_witness :
  QFile.cursor (logFile (fst (preparse_step (fun _ => 0) oversize_log 0))) = 1
  /\ timestampPos (fst (preparse_step (fun _ => 0) oversize_log 0)) = []
  /\ exists st' loc',
       parse_step oversize_log (mkParseLocals 0 0) = (None, st', loc')
       /\ Z.of_nat (length (kmlTalk st')) = 65536.
Proof.
  destruct (oversize_frame_streamed_not_indexed (fun _ => 0)
              (mkParseLocals 0 0) oversize_log 0 oversize_frame
              (encode_frame first_frame)) as [I S].
  - addressable_by_evaluation.
  - split; [cbn; lia|]. vm_compute. split; discriminate.
  - vm_compute. reflexivity.
  - reflexivity.
  - rewrite I. split; [reflexivity|]. split; [reflexivity|].
    eexists _, _. split; [exact S|]. vm_compute. reflexivity.
Defined.

(** ** The streaming pass on any log *)

Lemma parse_step_effects st loc exit st' loc' :
  QFile.isOpen (logFile st) = true ->
  0 <= QFile.cursor (logFile st) ->
  parse_step st loc = (exit, st', loc') ->
  QFile.content (logFile st') = QFile.content (logFile st)
  /\ QFile.isOpen (logFile st') = true
  /\ timestampBuffer st' = timestampBuffer st
  /\ timestampPos st' = timestampPos st
  /\ QFile.cursor (logFile st) <= QFile.cursor (logFile st')
  /\ match exit with
     | Some status =>
         kmlTalk st' = kmlTalk st /\ shown st' = shown st ++ status_box status
     | None =>
         shown st' = shown st
         /\ exists more,
              kmlTalk st' = kmlTalk st ++ more
              /\ QFile.bytesAvailable (logFile st') + Z.of_nat (length more)
                 <= QFile.bytesAvailable (logFile st)
     end.
Proof.
  intros Ho Hc. unfold parse_step.
  destruct (QFile.bytesAvailable (logFile st) <? 4) eqn:E4.
  { intros H. injection H as <- <- <-. cbn [status_box]. rewrite app_nil_r.
    repeat split; (assumption || lia). }
  apply Z.ltb_ge in E4.
  unfold QFile.read at 1. rewrite Ho.
  set (gotStamp := firstn (Z.to_nat 4) (QFile.remaining (logFile st))).
  assert (L4 : length gotStamp = 4%nat).
  { subst gotStamp. rewrite length_firstn.
    rewrite bytesAvailable_remaining in E4 by assumption.
    change (Z.to_nat 4) with 4%nat. lia. }
  clearbody gotStamp. rewrite L4.
  unfold QFile.read at 1. cbn [QFile.isOpen].
  match goal with |- context [firstn (Z.to_nat 8) ?r] =>
    set (gotSize := firstn (Z.to_nat 8) r) end.
  assert (L8 : Z.of_nat (length gotSize)
               <= QFile.size (logFile st) - (QFile.cursor (logFile st) + 4)).
  { subst gotSize. rewrite length_firstn. unfold QFile.remaining, QFile.size.
    cbn [QFile.content QFile.cursor]. rewrite length_skipn.
    unfold QFile.bytesAvailable, QFile.size in E4. lia. }
  clearbody gotSize.
  cbn [QFile.content QFile.cursor].
  match goal with |- context [to_qint64 ?v] =>
    generalize (to_qint64 v); intros p end.
  destruct ((p <? 1) || (p >? 1024 * 1024)).
  { intros H. injection H as <- <- <-.
    cbn [show logFile timestampBuffer timestampPos kmlTalk shown
         QFile.content QFile.isOpen QFile.cursor status_box].
    repeat split; lia. }
  match goal with |- context [QFile.bytesAvailable ?f <? p] =>
    destruct (QFile.bytesAvailable f <? p) end.
  { intros H. injection H as <- <- <-.
    cbn [logFile timestampBuffer timestampPos kmlTalk shown
         QFile.content QFile.isOpen QFile.cursor status_box].
    rewrite app_nil_r. repeat split; lia. }
  unfold QFile.read. cbn [QFile.isOpen QFile.content QFile.cursor].
  match goal with |- context [firstn (Z.to_nat p) ?r] =>
    set (dataBuffer := firstn (Z.to_nat p) r) end.
  assert (LD : Z.of_nat (length dataBuffer)
               <= QFile.size (logFile st)
                  - (QFile.cursor (logFile st) + 4
                     + Z.of_nat (length gotSize))).
  { subst dataBuffer. rewrite length_firstn. unfold QFile.remaining, QFile.size.
    cbn [QFile.content QFile.cursor]. rewrite length_skipn.
    unfold QFile.size in L8. lia. }
  clearbody dataBuffer.
  intros H. injection H as <- <- <-.
  cbn [logFile timestampBuffer timestampPos kmlTalk shown
       QFile.content QFile.isOpen QFile.cursor].
  rewrite processInputByte_all.
  repeat split; try lia.
  exists dataBuffer. split; [reflexivity|].
  unfold QFile.bytesAvailable, QFile.size in *.
  cbn [QFile.content QFile.cursor]. lia.
Qed.

Lemma parse_loop_effects fuel : forall st loc status st' loc',
  QFile.isOpen (logFile st) = true ->
  0 <= QFile.cursor (logFile st) ->
  parse_loop fuel st loc = Some (status, st', loc') ->
  QFile.content (logFile st') = QFile.content (logFile st)
  /\ timestampBuffer st' = timestampBuffer st
  /\ timestampPos st' = timestampPos st
  /\ shown st' = shown st ++ status_box status
  /\ exists more,
       kmlTalk st' = kmlTalk st ++ more
       /\ Z.of_nat (length more) <= QFile.bytesAvailable (logFile st).
Proof.
  induction fuel as [|fuel IH]; intros st loc status st' loc' Ho Hc H;
    destruct (QFile.atEnd (logFile st)) eqn:He;
    try (rewrite parse_loop_atEnd in H by assumption;
         injection H as <- <- <-; cbn [status_box]; rewrite app_nil_r;
         repeat split; exists []; rewrite app_nil_r; split;
         [reflexivity | unfold QFile.bytesAvailable; cbn [length]; lia]).
  - cbn [parse_loop] in H. rewrite He in H. discriminate.
  - cbn [parse_loop] in H. rewrite He in H.
    destruct (parse_step st loc) as [[exit st1] loc1] eqn:Hs.
    destruct (parse_step_effects st loc _ _ _ Ho Hc Hs)
      as (C & O & B & P & G & E).
    destruct exit as [exit|].
    + injection H as <- <- <-. destruct E as [K S].
      repeat split; try assumption.
      exists []. rewrite app_nil_r. split; [exact K|].
      unfold QFile.bytesAvailable. cbn [length]. lia.
    + destruct E as (S & more1 & K1 & M1).
      destruct (IH _ _ _ _ _ O ltac:(lia) H) as (C' & B' & P' & S' & more & K' & M').
      repeat split; try congruence.
      exists (more1 ++ more). split; [rewrite K', K1; now rewrite app_assoc|].
      rewrite length_app. lia.
Qed.

(** Extra X3.  On every log the streaming pass returns, with the file
    closed, its bytes and the index untouched.  The decoder has only been
    handed more bytes, never more than the file held from the cursor on,
    and a message box was shown exactly when the status is
    [StoppedOnCorruption]: one "Incorrect packet size". *)
Theorem stream_pass_effects loc st :
  0 <= QFile.cursor (logFile st) ->
  exists status st' loc' more,
    parseLogFile loc st = Some (status, st', loc')
    /\ logFile st' = QFile.mk (QFile.content (logFile st)) 0 false
    /\ timestampBuffer st' = timestampBuffer st
    /\ timestampPos st' = timestampPos st
    /\ kmlTalk st' = kmlTalk st ++ more
    /\ Z.of_nat (length more) <= QFile.bytesAvailable (logFile st)
    /\ shown st' = shown st ++ status_box status.
Proof.
  intros Hc. destruct (QFile.isOpen (logFile st)) eqn:Ho.
  - destruct (parseLogFile_total loc st Ho Hc) as [[[status st'] loc'] H].
    pose proof H as H'. unfold parseLogFile in H'.
    destruct (parse_loop _ st loc) as [[[status1 st1] loc1]|] eqn:Hl;
      [|discriminate].
    injection H' as <- <- <-.
    destruct (parse_loop_effects _ _ _ _ _ _ Ho Hc Hl)
      as (C & B & P & S & more & K & M).
    exists status1, (stopExport st1), loc1, more.
    split; [exact H|].
    cbn [stopExport set_logFile logFile timestampBuffer timestampPos kmlTalk
         shown]. unfold QFile.close. rewrite C. now repeat split.
  - exists Completed, (stopExport st), loc, [].
    unfold parseLogFile. rewrite parse_loop_atEnd
      by (unfold QFile.atEnd; now rewrite Ho).
    cbn [stopExport set_logFile logFile timestampBuffer timestampPos kmlTalk
         shown status_box length]. rewrite !app_nil_r.
    unfold QFile.close, QFile.bytesAvailable. repeat split. lia.
Qed.

Lemma stream_pass_effects_witness :
  exists status st' loc' more,
    parseLogFile (mkParseLocals 0 0) cut_header_log = Some (status, st', loc')
    /\ kmlTalk st' = more
    /\ Z.of_nat (length more) <= 34.
Proof.
  destruct (stream_pass_effects (mkParseLocals 0 0) cut_header_log)
    as (status & st' & loc' & more & H & _ & _ & _ & K & M & _).
  - cbn. lia.
  - exists status, st', loc', more. repeat split; assumption.
Defined.

(** Extra X4.  The streaming pass runs once: it leaves the file closed, so
    that a second run forwards nothing and changes nothing, and an index
    pass run after it finds no data. *)
Theorem stream_pass_runs_once indeterminate loc st status st' loc' :
  parseLogFile loc st = Some (status, st', loc') ->
  (forall again, parseLogFile again st' = Some (Completed, st', again))
  /\ preparseLogFile indeterminate st'
     = Some (false,
             mkKmlExport (logFile st') [] [] (timeStamp st') (kmlTalk st')
               (shown st' ++ [EmptyLogfile])).
Proof.
  unfold parseLogFile. intros H.
  destruct (parse_loop _ st loc) as [[[status1 st1] loc1]|]; [|discriminate].
  injection H as <- <- <-. split.
  - intros again. rewrite parse_loop_atEnd by reflexivity.
    destruct st1 as [[c p o] tb tp ts talk sh]. reflexivity.
  - unfold preparseLogFile. rewrite preparse_loop_atEnd by reflexivity.
    destruct st1 as [[c p o] tb tp ts talk sh]. reflexivity.
Qed.

Lemma stream_pass_runs_once_witness :
  exists st',
    parseLogFile (mkParseLocals 0 0) two_frame_log
    = Some (Completed, st', mkParseLocals 3 2)
    /\ parseLogFile (mkParseLocals 7 7) st'
       = Some (Completed, st', mkParseLocals 7 7).
Proof.
  eexists. split; [vm_compute; reflexivity|].
  match goal with |- parseLogFile _ ?s = _ =>
    apply (stream_pass_runs_once (fun _ => 0) (mkParseLocals 0 0)
             two_frame_log Completed s (mkParseLocals 3 2))
  end.
  vm_compute. reflexivity.
Defined.

(** ** The index on any log *)

Lemma load_range width var got :
  (length got <= width)%nat ->
  0 <= load width var got < 2 ^ (8 * Z.of_nat width).
Proof.
  intros H. unfold load.
  pose proof (le_combine_bound
                (got ++ skipn (length got) (le_split width var))) as B.
  rewrite length_app, length_skipn, length_le_split in B.
  now replace (length got + (width - length got))%nat with width in B by lia.
Qed.

Lemma lastTimeStamp_at_range f lastTimeStamp :
  0 <= lastTimeStamp_at f lastTimeStamp < 2 ^ 32.
Proof.
  unfold lastTimeStamp_at.
  change (2 ^ 32) with (2 ^ (8 * Z.of_nat 4)). apply load_range.
  unfold QFile.read. destruct (QFile.isOpen f); cbn [fst length]; [|lia].
  rewrite length_firstn. change (Z.to_nat 4) with 4%nat. lia.
Qed.

Lemma StronglySorted_snoc {A : Type} (R : A -> A -> Prop) l x :
  StronglySorted R l -> Forall (fun y => R y x) l ->
  StronglySorted R (l ++ [x]).
Proof.
  induction 1 as [|a l Hs IH Ha]; intros Hx; cbn [app].
  - constructor; constructor.
  - inversion Hx as [|? ? Hax Hlx]; subst. constructor.
    + now apply IH.
    + apply Forall_app. split; [assumption | now constructor].
Qed.

Section IndexInvariant.

Variable indeterminate : Z -> Z.

Lemma preparse_step_index_ok start st lastTimeStamp :
  addressable (logFile st) ->
  QFile.atEnd (logFile st) = false ->
  start <= QFile.cursor (logFile st) ->
  index_ok start st ->
  let st' := fst (preparse_step indeterminate st lastTimeStamp) in
  addressable (logFile st')
  /\ start <= QFile.cursor (logFile st')
  /\ index_ok start st'.
Proof.
  intros Ha He Hstart (Hlen & Hpos & Hsorted & Hstamps).
  pose proof (addressable_bounds _ Ha He) as Hc.
  pose proof (atEnd_false_lt _ He) as Hlt.
  pose proof Ha as (Ho & _ & Hz).
  destruct (Z.eq_dec
              (Z.land (dataSize_at indeterminate (logFile st)) sync_mask) 0)
    as [Hs|Hs].
  - rewrite preparse_step_accept by assumption.
    apply sync_clear_iff in Hs; [|apply to_qint64_range].
    cbn [fst]. unfold addressable, index_ok, QFile.size in *.
    cbn [logFile timestampPos timestampBuffer QFile.isOpen QFile.cursor
         QFile.content].
    split; [repeat split; lia|]. split; [lia|].
    split; [rewrite !length_app; cbn [length]; lia|].
    split; [|split].
    + apply Forall_app. split.
      * eapply Forall_impl; [|exact Hpos]. cbn beta. intros p Hp. lia.
      * constructor; [lia | constructor].
    + apply StronglySorted_snoc; [assumption|].
      eapply Forall_impl; [|exact Hpos]. cbn beta. intros p Hp. lia.
    + apply Forall_app. split; [assumption|].
      constructor; [apply lastTimeStamp_at_range | constructor].
  - rewrite preparse_step_resync by assumption.
    cbn [fst]. unfold addressable, index_ok, QFile.size in *.
    cbn [logFile timestampPos timestampBuffer QFile.isOpen QFile.cursor
         QFile.content].
    split; [repeat split; lia|]. split; [lia|].
    split; [assumption|]. split; [|split; assumption].
    eapply Forall_impl; [|exact Hpos]. cbn beta. intros p Hp. lia.
Qed.

Lemma preparse_loop_index_ok start fuel : forall st lastTimeStamp st',
  addressable (logFile st) ->
  start <= QFile.cursor (logFile st) ->
  index_ok start st ->
  preparse_loop indeterminate fuel st lastTimeStamp = Some st' ->
  index_ok start st'.
Proof.
  induction fuel as [|fuel IH]; intros st l st' Ha Hstart Hi H;
    destruct (QFile.atEnd (logFile st)) eqn:He;
    try (rewrite preparse_loop_atEnd in H by assumption;
         now injection H as <-).
  - cbn [preparse_loop] in H. rewrite He in H. discriminate.
  - rewrite preparse_loop_unfold in H by assumption.
    destruct (preparse_step_index_ok start st l Ha He Hstart Hi)
      as (Ha' & Hstart' & Hi').
    exact (IH _ _ _ Ha' Hstart' Hi' H).
Qed.

End IndexInvariant.

(** Extra X5.  On every log it can address the index pass returns, and
    succeeds exactly when it indexed something.  The two lists of the index
    run in parallel; every recorded offset lies inside the file, at or
    after the offset the pass began at, and at least twelve bytes after the
    offset recorded before it; every recorded timestamp is a 32-bit value. *)
Theorem index_is_well_formed indeterminate st :
  addressable (logFile st) ->
  exists ok st',
    preparseLogFile indeterminate st = Some (ok, st')
    /\ ok = negb (isEmpty (timestampBuffer st'))
    /\ length (timestampPos st') = length (timestampBuffer st')
    /\ Forall (fun p => QFile.cursor (logFile st) <= p
                        < QFile.size (logFile st))
         (timestampPos st')
    /\ StronglySorted (fun p q => p + 12 <= q) (timestampPos st')
    /\ Forall (fun t => 0 <= t < 2 ^ 32) (timestampBuffer st').
Proof.
  intros Ha. pose proof Ha as (Ho & Hc & Hz).
  destruct (preparse_loop_total indeterminate
              (length (QFile.content (logFile st))) (clear_index st) 0 Ha)
    as (st1 & Hl & _).
  { cbn [clear_index logFile]. unfold QFile.size. lia. }
  destruct (preparse_loop_keeps indeterminate _ _ _ _ Hl) as (C & _).
  assert (Hi : index_ok (QFile.cursor (logFile st)) st1).
  { apply (preparse_loop_index_ok indeterminate (QFile.cursor (logFile st))
             (length (QFile.content (logFile st))) (clear_index st) 0 st1 Ha
             (Z.le_refl _)); [|exact Hl].
    repeat split; constructor. }
  destruct Hi as (Hlen & Hpos & Hsorted & Hstamps).
  destruct (preparseLogFile_of_loop indeterminate st _ _ Hl (Nat.le_refl _))
    as (st' & Hp & HP & HB & _).
  exists (negb (isEmpty (timestampBuffer st1))), st'.
  rewrite HP, HB. split; [exact Hp|]. split; [reflexivity|].
  split; [exact Hlen|]. split; [|split; assumption].
  eapply Forall_impl; [|exact Hpos]. cbn beta. intros p Hp'.
  unfold QFile.size in *. cbn [clear_index logFile] in C. rewrite <- C. lia.
Qed.

Lemma index_is_well_formed_witness :
  exists ok st',
    preparseLogFile (fun _ => 0) false_sync_log = Some (ok, st')
    /\ length (timestampPos st') = length (timestampBuffer st')
    /\ StronglySorted (fun p q => p + 12 <= q) (timestampPos st').
Proof.
  destruct (index_is_well_formed (fun _ => 0) false_sync_log)
    as (ok & st' & H & _ & L & _ & S & _).
  - addressable_by_evaluation.
  - exists ok, st'. repeat split; assumption.
Defined.

(** ** Indexing twice *)

Lemma preparse_step_same_index indeterminate a b lastTimeStamp :
  same_index a b ->
  same_index (fst (preparse_step indeterminate a lastTimeStamp))
    (fst (preparse_step indeterminate b lastTimeStamp))
  /\ snd (preparse_step indeterminate a lastTimeStamp)
     = snd (preparse_step indeterminate b lastTimeStamp).
Proof.
  intros (L & B & P). unfold preparse_step, same_index. rewrite L, B, P.
  destruct (QFile.read (logFile b) 4) as [g1 f1].
  destruct (QFile.read f1 8) as [g2 f2].
  destruct (negb _); cbn [fst snd logFile timestampBuffer timestampPos];
    repeat split.
Qed.

Lemma preparse_loop_same_index indeterminate fuel :
  forall a b lastTimeStamp a',
  same_index a b ->
  preparse_loop indeterminate fuel a lastTimeStamp = Some a' ->
  exists b',
    preparse_loop indeterminate fuel b lastTimeStamp = Some b'
    /\ same_index a' b'.
Proof.
  induction fuel as [|fuel IH]; intros a b l a' Hs H;
    pose proof Hs as (L & _);
    destruct (QFile.atEnd (logFile a)) eqn:He.
  - rewrite preparse_loop_atEnd in * by congruence.
    injection H as <-. now exists b.
  - cbn [preparse_loop] in H. rewrite He in H. discriminate.
  - rewrite preparse_loop_atEnd in * by congruence.
    injection H as <-. now exists b.
  - rewrite preparse_loop_unfold in * by congruence.
    destruct (preparse_step_same_index indeterminate a b l Hs) as [Hs' Hl].
    rewrite <- Hl. now apply (IH _ _ _ _ Hs').
Qed.

(** Where twelve bytes are left, both reads of the header are full and
    what [dataSize] held before plays no part. *)
Lemma dataSize_at_full first second f :
  QFile.isOpen f = true ->
  0 <= QFile.cursor f ->
  QFile.cursor f + 12 <= QFile.size f ->
  dataSize_at first f = dataSize_at second f.
Proof.
  intros Ho Hc Hs. unfold dataSize_at, QFile.read. rewrite Ho.
  cbn [snd fst QFile.isOpen].
  assert (L4 : length (firstn (Z.to_nat 4) (QFile.remaining f)) = 4%nat).
  { rewrite length_firstn. unfold QFile.remaining, QFile.size in *.
    rewrite length_skipn. lia. }
  rewrite L4.
  rewrite !load_full; [reflexivity| |];
    rewrite length_firstn; unfold QFile.remaining, QFile.size in *;
    cbn [QFile.content QFile.cursor]; rewrite length_skipn; lia.
Qed.

(** An iteration does the same under two contents of [dataSize] that agree
    at its candidate offset, or when twelve bytes are left. *)
Lemma preparse_step_agree first second st lastTimeStamp :
  QFile.isOpen (logFile st) = true ->
  0 <= QFile.cursor (logFile st) ->
  (QFile.size (logFile st) < QFile.cursor (logFile st) + 12 ->
   first (QFile.cursor (logFile st)) = second (QFile.cursor (logFile st))) ->
  preparse_step first st lastTimeStamp = preparse_step second st lastTimeStamp.
Proof.
  intros Ho Hc Hs.
  destruct (Z_lt_le_dec (QFile.size (logFile st))
              (QFile.cursor (logFile st) + 12)) as [Hshort|Hfull].
  - unfold preparse_step, QFile.pos. now rewrite (Hs Hshort).
  - pose proof (dataSize_at_full first second (logFile st) Ho Hc Hfull) as E.
    unfold dataSize_at in E. unfold preparse_step.
    destruct (QFile.read (logFile st) 4) as [gotStamp f1].
    cbn [snd] in E.
    destruct (QFile.read f1 8) as [gotSize f2]. cbn [fst] in E.
    now rewrite E.
Qed.

(** An iteration leaves the cursor at an offset that is not negative. *)
Lemma preparse_step_cursor indeterminate st lastTimeStamp :
  QFile.isOpen (logFile st) = true ->
  0 <= QFile.cursor (logFile st) ->
  0 <= QFile.cursor (logFile (fst (preparse_step indeterminate st
                                     lastTimeStamp))).
Proof.
  intros Ho Hc. unfold preparse_step, QFile.read. rewrite Ho.
  cbn [QFile.isOpen].
  destruct (negb _); cbn [fst logFile]; unfold QFile.seek;
    cbn [QFile.isOpen QFile.cursor QFile.content andb];
    match goal with |- context [0 <=? ?p] =>
      destruct (0 <=? p) eqn:E
    end; cbn [QFile.cursor]; try (apply Z.leb_le in E; exact E); lia.
Qed.

Lemma preparse_loop_agree first second fuel :
  forall a b lastTimeStamp a',
  same_index a b ->
  0 <= QFile.cursor (logFile a) ->
  (forall offset, QFile.size (logFile a) < offset + 12 ->
                  first offset = second offset) ->
  preparse_loop first fuel a lastTimeStamp = Some a' ->
  exists b',
    preparse_loop second fuel b lastTimeStamp = Some b'
    /\ same_index a' b'.
Proof.
  induction fuel as [|fuel IH]; intros a b l a' Hs Hc Hag H;
    pose proof Hs as (L & _);
    destruct (QFile.atEnd (logFile a)) eqn:He.
  - rewrite preparse_loop_atEnd in * by congruence.
    injection H as <-. now exists b.
  - cbn [preparse_loop] in H. rewrite He in H. discriminate.
  - rewrite preparse_loop_atEnd in * by congruence.
    injection H as <-. now exists b.
  - pose proof (atEnd_false_isOpen _ He) as Ho.
    rewrite preparse_loop_unfold in H by assumption.
    rewrite preparse_loop_unfold by congruence.
    destruct (preparse_step_same_index second a b l Hs) as [Hs' Hl].
    rewrite (preparse_step_agree first second a l Ho Hc
               (fun short => Hag _ short)) in H.
    rewrite <- Hl.
    apply (IH _ _ _ _ Hs'); [now apply preparse_step_cursor| |exact H].
    destruct (preparse_step_keeps second a l) as (C & _).
    cbn zeta in C. unfold QFile.size in *. rewrite C. exact Hag.
Qed.

(** Extra X6.  Indexing is repeatable where the header reads are full.
    After a successful index pass a second pass over the exporter it left
    succeeds as well and ends with the same index and the log file in the
    same state, provided [dataSize] holds the same content in both passes
    at every candidate offset with fewer than twelve bytes behind it: a
    header read that comes up short leaves part of [dataSize] as it was,
    and the sync check then looks at that content. *)
Theorem reindex_gives_same_index first second st st1 :
  0 <= QFile.cursor (logFile st) < 2 ^ 63 ->
  (forall offset, QFile.size (logFile st) < offset + 12 ->
                  first offset = second offset) ->
  preparseLogFile first st = Some (true, st1) ->
  exists st2,
    preparseLogFile second st1 = Some (true, st2)
    /\ timestampPos st2 = timestampPos st1
    /\ timestampBuffer st2 = timestampBuffer st1
    /\ logFile st2 = logFile st1.
Proof.
  intros Hc Hag H.
  pose proof (preparseLogFile_restores first st st1 Hc H) as L.
  destruct (preparseLogFile_success _ _ _ H) as (s1 & Hl & Hb & E).
  assert (Hs : same_index (clear_index st) (clear_index st1))
    by (repeat split; cbn [clear_index logFile]; congruence).
  destruct (preparse_loop_agree first second _ _ _ _ _ Hs
              ltac:(cbn [clear_index logFile]; lia) Hag Hl)
    as (s2 & Hl2 & (L2 & B2 & P2)).
  unfold preparseLogFile. rewrite L, Hl2, <- B2.
  destruct (timestampBuffer s1) as [|t b] eqn:Eb; [congruence|].
  cbn [length].
  replace (Z.of_nat (S (length b)) =? 0) with false
    by (symmetry; apply Z.eqb_neq; lia).
  eexists. split; [reflexivity|]. subst st1.
  cbn [set_logFile timestampPos timestampBuffer logFile].
  rewrite <- P2, <- B2, <- L2, Eb.
  cbn [set_logFile logFile] in L. repeat split. exact L.
Qed.

Lemma reindex_gives_same_index_witness :
  exists st1 st2,
    preparseLogFile (fun _ => 0) backwards_log = Some (true, st1)
    /\ preparseLogFile (fun offset => if offset <? 10 then -1 else 0) st1
       = Some (true, st2)
    /\ timestampPos st2 = timestampPos st1
    /\ shown st1 = [] /\ timestampBuffer st1 = [1000].
Proof.
  assert (H : preparseLogFile (fun _ => 0) backwards_log
              = Some (true,
                      mkKmlExport (logFile backwards_log) [1000] [14] 0 [] []))
    by (vm_compute; reflexivity).
  destruct (reindex_gives_same_index (fun _ => 0)
              (fun offset => if offset <? 10 then -1 else 0) backwards_log _
              ltac:(cbn; lia)
              ltac:(intros offset Hshort;
                    change (QFile.size (logFile backwards_log)) with 27
                      in Hshort;
                    cbv beta; destruct (offset <? 10) eqn:E;
                    [apply Z.ltb_lt in E; lia | reflexivity])
              H) as (st2 & H2 & P & B & _).
  exists (mkKmlExport (logFile backwards_log) [1000] [14] 0 [] []), st2.
  split; [exact H|]. split; [exact H2|]. repeat split. exact P.
Defined.

(** * Opening the log *)

(** ** Lines *)

Lemma line_of_line l rest : is_line l -> line_of (l ++ rest) = l.
Proof.
  intros (text & -> & Hn). induction text as [|b text IH]; cbn [app line_of].
  - reflexivity.
  - destruct (Byte.eqb b Byte.x0a) eqn:E.
    + apply Byte.byte_dec_bl in E. subst b. contradiction Hn. now left.
    + f_equal. apply IH. intros H. apply Hn. now right.
Qed.

Lemma line_of_length l : (length (line_of l) <= length l)%nat.
Proof.
  induction l as [|b l IH]; cbn [line_of length]; [lia|].
  destruct (Byte.eqb b Byte.x0a); cbn [length]; lia.
Qed.

(** A line feed can only be the last byte of what [readLine] returns. *)
Lemma line_of_feed l :
  ~ In Byte.x0a (line_of l)
  \/ exists text, line_of l = text ++ [Byte.x0a] /\ ~ In Byte.x0a text.
Proof.
  induction l as [|b l IH]; cbn [line_of]; [left; intros []|].
  destruct (Byte.eqb b Byte.x0a) eqn:E.
  - apply Byte.byte_dec_bl in E. subst b. right. exists []. split; [reflexivity|].
    intros [].
  - apply Byte.eqb_false in E. destruct IH as [IH|(text & Ht & Hn)].
    + left. intros [H|H]; [now apply E | now apply IH].
    + right. exists (b :: text). rewrite Ht. split; [reflexivity|].
      intros [H|H]; [now apply E | now apply Hn].
Qed.

Lemma trim_front_suffix l : exists spaces, l = spaces ++ trim_front l.
Proof.
  induction l as [|b l (spaces & IH)]; cbn [trim_front]; [now exists []|].
  destruct (isSpace b).
  - exists (b :: spaces). cbn [app]. now f_equal.
  - now exists [].
Qed.

Lemma trim_front_In b l : In b (trim_front l) -> In b l.
Proof.
  destruct (trim_front_suffix l) as (spaces & E). intros H.
  rewrite E. apply in_or_app. now right.
Qed.

Lemma trim_back_In b l : In b (trim_back l) -> In b l.
Proof.
  unfold trim_back. intros H. apply in_rev in H.
  apply trim_front_In in H. now apply in_rev.
Qed.

Lemma trim_back_feed l : trim_back (l ++ [Byte.x0a]) = trim_back l.
Proof. unfold trim_back. now rewrite rev_app_distr. Qed.

(** A line that has been read and trimmed holds no line feed. *)
Lemma trimmed_line_no_feed l : ~ In Byte.x0a (trimmed (line_of l)).
Proof.
  unfold trimmed. destruct (line_of_feed l) as [Hn|(text & Ht & Hn)].
  - intros H. apply Hn. now apply trim_front_In, trim_back_In.
  - rewrite Ht. destruct (trim_front_suffix (text ++ [Byte.x0a]))
      as (spaces & E).
    destruct (trim_front (text ++ [Byte.x0a])) as [|b kept] eqn:Ek;
      [intros []|].
    destruct (exists_last (l := b :: kept) ltac:(discriminate))
      as (front & z & Ez).
    rewrite Ez in *. rewrite app_assoc in E.
    apply app_inj_tail in E as [E <-].
    rewrite trim_back_feed. intros H. apply trim_back_In in H.
    apply Hn. rewrite E. apply in_or_app. now right.
Qed.

Lemma readLine_isOpen f : QFile.isOpen (snd (readLine f)) = QFile.isOpen f.
Proof. unfold readLine. now destruct (QFile.isOpen f) eqn:E. Qed.

Lemma readLine_content f :
  QFile.content (snd (readLine f)) = QFile.content f.
Proof. unfold readLine. now destruct (QFile.isOpen f). Qed.

Lemma readLine_cursor f :
  0 <= QFile.cursor f <= QFile.size f ->
  QFile.cursor f <= QFile.cursor (snd (readLine f)) <= QFile.size f.
Proof.
  intros Hc. unfold readLine. destruct (QFile.isOpen f); cbn [snd]; [|lia].
  cbn [QFile.cursor].
  pose proof (line_of_length (QFile.remaining f)) as H.
  unfold QFile.remaining, QFile.size in *. rewrite length_skipn in H. lia.
Qed.

Lemma readLine_line f l rest :
  QFile.isOpen f = true ->
  QFile.remaining f = l ++ rest ->
  is_line l ->
  readLine f
  = (l, QFile.mk (QFile.content f) (QFile.cursor f + Z.of_nat (length l)) true).
Proof.
  intros Ho Hr Hl. unfold readLine. rewrite Ho, Hr.
  now rewrite (line_of_line l rest Hl).
Qed.

Lemma skip_lines_keeps count : forall f,
  0 <= QFile.cursor f <= QFile.size f ->
  QFile.isOpen (skip_lines count f) = QFile.isOpen f
  /\ QFile.content (skip_lines count f) = QFile.content f
  /\ 0 <= QFile.cursor (skip_lines count f) <= QFile.size f.
Proof.
  induction count as [|count IH]; intros f Hc; cbn [skip_lines].
  - repeat split; lia.
  - pose proof (readLine_cursor f Hc) as Hc'.
    destruct (IH (snd (readLine f))) as (O & C & K).
    + unfold QFile.size. rewrite readLine_content. fold (QFile.size f). lia.
    + rewrite O, C, readLine_isOpen, readLine_content.
      unfold QFile.size in *. rewrite readLine_content in K.
      repeat split; lia.
Qed.

Section OpenFacts.

Variable QString : Type.
Variable fromBytes : list byte -> QString.
Variable differs : QString -> QString -> bool.
Variables gitHash uavoHash separator : QString.

Local Abbreviation search :=
  (find_separator QString fromBytes differs separator).
Local Abbreviation open_log :=
  (open QString fromBytes differs gitHash uavoHash separator).

(** The search loop always comes back, with the file as open as it was and
    the cursor still inside it. *)
Lemma find_separator_total fuel : forall tmpLine cnt f,
  10 - cnt <= Z.of_nat fuel ->
  0 <= QFile.cursor f <= QFile.size f ->
  exists cnt' f',
    search fuel tmpLine cnt f = Some (cnt', f')
    /\ QFile.isOpen f' = QFile.isOpen f
    /\ QFile.content f' = QFile.content f
    /\ QFile.cursor f <= QFile.cursor f' <= QFile.size f.
Proof.
  induction fuel as [|fuel IH]; intros tmp cnt f Hf Hc; cbn [find_separator];
    destruct (differs tmp separator && (cnt <? 10) && negb (QFile.atEnd f))
      eqn:E; try (exists cnt, f; repeat split; lia).
  pose proof (readLine_cursor f Hc) as Hc'.
  pose proof (readLine_isOpen f) as O. pose proof (readLine_content f) as C.
  destruct (readLine f) as [line f1]. cbn [snd] in *.
  destruct (IH (fromBytes (trimmed line)) (cnt + 1) f1)
    as (c & f' & H & O' & C' & K).
  - lia.
  - unfold QFile.size in *. rewrite C. lia.
  - exists c, f'. unfold QFile.size in *. rewrite C in K.
    repeat split; try congruence; lia.
Qed.

(** Once a line differs from the separator, the loop runs until ten lines
    have been read or the file is at its end: no trimmed line can equal a
    string that ends in a line feed. *)
Lemma find_separator_gives_up fuel : forall tmpLine cnt f,
  (forall l, ~ In Byte.x0a l -> differs (fromBytes l) separator = true) ->
  differs tmpLine separator = true ->
  10 - cnt <= Z.of_nat fuel ->
  QFile.isOpen f = true ->
  exists cnt' f',
    search fuel tmpLine cnt f = Some (cnt', f')
    /\ (10 <=? cnt') || QFile.atEnd f' = true
    /\ QFile.isOpen f' = true
    /\ QFile.content f' = QFile.content f.
Proof.
  induction fuel as [|fuel IH]; intros tmp cnt f H2 Hd Hf Ho;
    cbn [find_separator]; rewrite Hd; cbn [andb];
    destruct ((cnt <? 10) && negb (QFile.atEnd f)) eqn:E;
    try (exists cnt, f; split; [reflexivity|]; split; [|now split];
         apply andb_false_iff in E as [E|E];
         [apply Z.ltb_ge in E; apply orb_true_iff; left; now apply Z.leb_le
         |apply negb_false_iff in E; rewrite E; apply orb_true_r]).
  - apply andb_prop in E as [E _]. apply Z.ltb_lt in E. lia.
  - unfold readLine. rewrite Ho.
    destruct (IH (fromBytes (trimmed (line_of (QFile.remaining f)))) (cnt + 1)
                (QFile.mk (QFile.content f)
                   (QFile.cursor f
                    + Z.of_nat (length (line_of (QFile.remaining f)))) true)
                H2) as (c & f' & H & G & O & C).
    + apply H2, trimmed_line_no_feed.
    + lia.
    + reflexivity.
    + exists c, f'. now repeat split.
Qed.

(** [open] up to the search loop, on a file that can be opened. *)
Lemma open_unfold st :
  let f0 := QFile.mk (QFile.content (logFile st)) 0 true in
  let f3 := skip_lines 3 f0 in
  open_log true st
  = match search 10 (fromBytes (fst (readLine f3))) 0
            (snd (readLine f3)) with
    | None => None
    | Some (cnt, f5) =>
        let boxes :=
          hash_boxes QString fromBytes differs gitHash uavoHash
            (fst (readLine (skip_lines 1 f0)))
            (fst (readLine (skip_lines 2 f0))) in
        if (10 <=? cnt) || QFile.atEnd f5
        then Some (true, set_logFile st (QFile.seek f5 0),
                   boxes ++ [SeparatorNotFound])
        else Some (true, set_logFile st f5, boxes)
    end.
Proof.
  cbn zeta. unfold open, hash_boxes. cbn [negb skip_lines].
  replace (QFile.content
             (if QFile.isOpen (logFile st) then QFile.close (logFile st)
              else logFile st))
    with (QFile.content (logFile st)) by now destruct (QFile.isOpen _).
  destruct (readLine _) as [l1 f1]. cbn [snd].
  destruct (readLine f1) as [l2 f2]. cbn [fst snd].
  destruct (readLine f2) as [l3 f3]. cbn [fst snd].
  destruct (readLine f3) as [l4 f4]. cbn [fst snd].
  reflexivity.
Qed.

End OpenFacts.

(** The four lines [open] reads from a file that begins with four lines. *)
Lemma read_header content first gitLine uavoLine fourth body :
  is_line first -> is_line gitLine -> is_line uavoLine -> is_line fourth ->
  content = first ++ gitLine ++ uavoLine ++ fourth ++ body ->
  let f0 := QFile.mk content 0 true in
  let f4 :=
    QFile.mk content
      (Z.of_nat (length (first ++ gitLine ++ uavoLine ++ fourth))) true in
  fst (readLine (skip_lines 1 f0)) = gitLine
  /\ fst (readLine (skip_lines 2 f0)) = uavoLine
  /\ readLine (skip_lines 3 f0) = (fourth, f4)
  /\ QFile.remaining f4 = body.
Proof.
  intros L1 L2 L3 L4 E f0 f4.
  assert (R0 : QFile.remaining f0
               = first ++ gitLine ++ uavoLine ++ fourth ++ body)
    by (unfold f0, QFile.remaining; cbn; exact E).
  cbn [skip_lines].
  rewrite (readLine_line f0 first _ eq_refl R0 L1). cbn [snd].
  pose proof (remaining_advance f0 first _ (Z.le_refl 0) R0) as R1.
  cbn [QFile.content QFile.cursor f0] in *.
  set (f1 := QFile.mk content (0 + Z.of_nat (length first)) true) in *.
  rewrite (readLine_line f1 gitLine _ eq_refl R1 L2). cbn [fst snd].
  pose proof (remaining_advance f1 gitLine _ ltac:(cbn; lia) R1) as R2.
  cbn [QFile.content QFile.cursor f1] in *.
  set (f2 := QFile.mk content
               (0 + Z.of_nat (length first) + Z.of_nat (length gitLine)) true)
    in *.
  rewrite (readLine_line f2 uavoLine _ eq_refl R2 L3). cbn [fst snd].
  pose proof (remaining_advance f2 uavoLine _ ltac:(cbn; lia) R2) as R3.
  cbn [QFile.content QFile.cursor f2] in *.
  set (f3 := QFile.mk content
               (0 + Z.of_nat (length first) + Z.of_nat (length gitLine)
                + Z.of_nat (length uavoLine)) true) in *.
  rewrite (readLine_line f3 fourth _ eq_refl R3 L4).
  pose proof (remaining_advance f3 fourth _ ltac:(cbn; lia) R3) as R4.
  cbn [QFile.content QFile.cursor f3] in *.
  assert (Ec : 0 + Z.of_nat (length first) + Z.of_nat (length gitLine)
               + Z.of_nat (length uavoLine) + Z.of_nat (length fourth)
               = Z.of_nat (length (first ++ gitLine ++ uavoLine ++ fourth)))
    by (rewrite !length_app; lia).
  rewrite Ec in *. now repeat split.
Qed.

Lemma bytes_eqb_eq a : forall b, bytes_eqb a b = true -> a = b.
Proof.
  induction a as [|x a IH]; intros [|y b] H; cbn [bytes_eqb] in H;
    try discriminate; [reflexivity|].
  apply andb_prop in H as [Hx Hr]. apply Byte.byte_dec_bl in Hx.
  f_equal; [assumption | now apply IH].
Qed.

(** A byte string without a line feed is not the separator line. *)
Lemma bytes_differ_separator l :
  ~ In Byte.x0a l -> bytes_differ l separator_line = true.
Proof.
  intros Hn. unfold bytes_differ. apply negb_true_iff.
  destruct (bytes_eqb l separator_line) eqn:E; [|reflexivity].
  apply bytes_eqb_eq in E. subst l. contradiction Hn.
  cbn. right. right. now left.
Qed.

Section OpenOutcome.

Variable QString : Type.
Variable fromBytes : list byte -> QString.
Variable differs : QString -> QString -> bool.
Variables gitHash uavoHash separator : QString.

Local Abbreviation open_log :=
  (open QString fromBytes differs gitHash uavoHash separator).

(** [open] returns, and what it answers is whether the file could be
    opened; of the exporter it touches the log file only. *)
Lemma open_keeps openable st :
  exists f boxes,
    open_log openable st = Some (openable, set_logFile st f, boxes)
    /\ QFile.isOpen f = openable
    /\ QFile.content f = QFile.content (logFile st)
    /\ (openable = true -> 0 <= QFile.cursor f <= QFile.size f).
Proof.
  destruct openable.
  - rewrite open_unfold. cbn zeta.
    set (f0 := QFile.mk (QFile.content (logFile st)) 0 true).
    assert (B0 : 0 <= QFile.cursor f0 <= QFile.size f0)
      by (unfold QFile.size; cbn; lia).
    destruct (skip_lines_keeps 3 f0 B0) as (O3 & C3 & K3).
    pose proof (readLine_cursor (skip_lines 3 f0) ltac:(
      unfold QFile.size; rewrite C3; exact K3)) as K4.
    pose proof (readLine_isOpen (skip_lines 3 f0)) as O4.
    pose proof (readLine_content (skip_lines 3 f0)) as C4.
    unfold QFile.size in K4. rewrite C3 in K4. fold (QFile.size f0) in K4.
    destruct (find_separator_total QString fromBytes differs separator 10
                (fromBytes (fst (readLine (skip_lines 3 f0)))) 0
                (snd (readLine (skip_lines 3 f0))))
      as (cnt & f5 & -> & O5 & C5 & K5).
    + lia.
    + unfold QFile.size. rewrite C4, C3. fold (QFile.size f0). lia.
    + assert (O : QFile.isOpen f5 = true)
        by (rewrite O5, O4, O3; reflexivity).
      assert (C : QFile.content f5 = QFile.content (logFile st))
        by (rewrite C5, C4, C3; reflexivity).
      destruct ((10 <=? cnt) || QFile.atEnd f5).
      * eexists _, _. split; [reflexivity|].
        unfold QFile.seek. rewrite O. unfold QFile.size. cbn.
        split; [reflexivity|]. split; [assumption|]. intros _. lia.
      * eexists _, _. split; [reflexivity|].
        split; [assumption|]. split; [assumption|]. intros _.
        unfold QFile.size in *. rewrite C4, C3 in K5. rewrite C.
        change (QFile.content f0) with (QFile.content (logFile st)) in *.
        lia.
  - unfold open. cbn [negb]. eexists _, _. split; [reflexivity|].
    destruct (QFile.isOpen (logFile st)) eqn:O; cbn; now repeat split.
Qed.

End OpenOutcome.

(** A line feed read by [readLine] moves the cursor of a file with something
    left. *)
Lemma readLine_advances f :
  QFile.isOpen f = true ->
  0 <= QFile.cursor f < QFile.size f ->
  QFile.cursor f < QFile.cursor (snd (readLine f)).
Proof.
  intros O Hc. unfold readLine. rewrite O. cbn [snd QFile.cursor].
  assert (H : QFile.remaining f <> []).
  { intros E. pose proof (f_equal (@length byte) E) as L.
    unfold QFile.remaining, QFile.size in *. rewrite length_skipn in L.
    cbn [length] in L. lia. }
  destruct (QFile.remaining f) as [|b r]; [congruence|].
  cbn [line_of]. destruct (Byte.eqb b Byte.x0a); cbn [length]; lia.
Qed.

(** Extra X7 ([KmlExport::open]): when the fourth line of the file is the
    separator line and bytes follow it, [open] leaves the cursor on the
    first byte after that line and shows no box but those for the hash
    lines; the search loop reads nothing. *)
Theorem open_finds_separator (QString : Type)
  (fromBytes : list byte -> QString) (differs : QString -> QString -> bool)
  (gitHash uavoHash separator : QString) (st : KmlExport)
  (first gitLine uavoLine sep body : list byte) :
  is_line first -> is_line gitLine -> is_line uavoLine -> is_line sep ->
  differs (fromBytes sep) separator = false ->
  body <> [] ->
  QFile.content (logFile st) = first ++ gitLine ++ uavoLine ++ sep ++ body ->
  open QString fromBytes differs gitHash uavoHash separator true st
  = Some (true,
          set_logFile st
            (QFile.mk (QFile.content (logFile st))
               (Z.of_nat (length (first ++ gitLine ++ uavoLine ++ sep)))
               true),
          hash_boxes QString fromBytes differs gitHash uavoHash
            gitLine uavoLine)
  /\ QFile.remaining
       (QFile.mk (QFile.content (logFile st))
          (Z.of_nat (length (first ++ gitLine ++ uavoLine ++ sep))) true)
     = body.
Proof.
  intros L1 L2 L3 L4 Hsep Hb E.
  destruct (read_header _ _ _ _ _ _ L1 L2 L3 L4 E) as (G & U & F & R).
  split; [|exact R].
  rewrite open_unfold. cbn zeta. rewrite G, U, F. cbn [fst snd].
  cbn [find_separator]. rewrite Hsep. cbn [andb].
  rewrite atEnd_nonempty; [reflexivity | reflexivity | cbn; lia |].
  now rewrite R.
Qed.

Lemma open_finds_separator_witness :
  open (list byte) (fun l => l) bytes_differ (bytes [97; 98; 99])
    (bytes [49; 50]) separator_line true recorded_log
  = Some (true,
          set_logFile recorded_log
            (QFile.mk (QFile.content (logFile recorded_log)) 14 true), [])
  /\ QFile.remaining
       (QFile.mk (QFile.content (logFile recorded_log)) 14 true)
     = encode_log two_frames.
Proof.
  apply (open_finds_separator (list byte) (fun l => l) bytes_differ
           (bytes [97; 98; 99]) (bytes [49; 50]) separator_line recorded_log
           (bytes [100; 82; 10]) (bytes [97; 98; 99; 13; 10])
           (bytes [49; 50; 10]) separator_line (encode_log two_frames)).
  - exists (bytes [100; 82]). split; [reflexivity|].
    vm_compute. intuition discriminate.
  - exists (bytes [97; 98; 99; 13]). split; [reflexivity|].
    vm_compute. intuition discriminate.
  - exists (bytes [49; 50]). split; [reflexivity|].
    vm_compute. intuition discriminate.
  - exists (bytes [35; 35]). split; [reflexivity|].
    vm_compute. intuition discriminate.
  - reflexivity.
  - vm_compute. discriminate.
  - reflexivity.
Defined.

(** Extra X8 ([KmlExport::open]): the separator is only ever found on the
    fourth line.  Every later line is trimmed before it is compared, and a
    trimmed line holds no line feed; so when the fourth line is not the
    separator, or nothing follows it, [open] rewinds the file to offset 0
    and reports the separator missing, whatever the rest of the file
    holds. *)
Theorem open_gives_up (QString : Type)
  (fromBytes : list byte -> QString) (differs : QString -> QString -> bool)
  (gitHash uavoHash separator : QString) (st : KmlExport) :
  (forall l, ~ In Byte.x0a l -> differs (fromBytes l) separator = true) ->
  differs (fromBytes (fst (fourth_line st))) separator = true
  \/ QFile.atEnd (snd (fourth_line st)) = true ->
  exists boxes,
    open QString fromBytes differs gitHash uavoHash separator true st
    = Some (true,
            set_logFile st (QFile.mk (QFile.content (logFile st)) 0 true),
            boxes ++ [SeparatorNotFound]).
Proof.
  intros H2 H4. rewrite open_unfold. cbn zeta. unfold fourth_line in H4.
  set (f0 := QFile.mk (QFile.content (logFile st)) 0 true) in *.
  assert (B0 : 0 <= QFile.cursor f0 <= QFile.size f0)
    by (unfold QFile.size; cbn; lia).
  destruct (skip_lines_keeps 3 f0 B0) as (O3 & C3 & _).
  pose proof (readLine_isOpen (skip_lines 3 f0)) as O4.
  pose proof (readLine_content (skip_lines 3 f0)) as C4.
  assert (O : QFile.isOpen (snd (readLine (skip_lines 3 f0))) = true)
    by (rewrite O4, O3; reflexivity).
  assert (C : QFile.content (snd (readLine (skip_lines 3 f0)))
              = QFile.content (logFile st))
    by (rewrite C4, C3; reflexivity).
  destruct (differs (fromBytes (fst (readLine (skip_lines 3 f0)))) separator)
    eqn:D.
  - destruct (find_separator_gives_up QString fromBytes differs separator 10
                _ 0 _ H2 D ltac:(lia) O) as (cnt & f5 & -> & G & O5 & C5).
    rewrite G. eexists. do 2 f_equal. f_equal.
    unfold QFile.seek. rewrite O5, C5, C. reflexivity.
  - destruct H4 as [H4|H4]; [discriminate|].
    destruct (snd (readLine (skip_lines 3 f0))) as [c p o] eqn:E4.
    cbn [QFile.isOpen QFile.content] in O, C. subst o c.
    cbn [find_separator]. rewrite D. cbn [andb]. rewrite H4.
    rewrite orb_true_r. eexists. reflexivity.
Qed.

Lemma open_gives_up_witness :
  exists boxes,
    open (list byte) (fun l => l) bytes_differ (bytes [97; 98; 99])
      (bytes [49; 50]) separator_line true late_separator_log
    = Some (true,
            set_logFile late_separator_log
              (QFile.mk (QFile.content (logFile late_separator_log)) 0 true),
            boxes ++ [SeparatorNotFound]).
Proof.
  apply (open_gives_up (list byte) (fun l => l) bytes_differ
           (bytes [97; 98; 99]) (bytes [49; 50]) separator_line
           late_separator_log).
  - exact bytes_differ_separator.
  - left. vm_compute. reflexivity.
Defined.

(** Extra X9 ([KmlExport::open]): [open] always returns, and its answer is
    whether the file could be opened.  It touches nothing of the exporter
    but the log file, whose bytes it keeps.  When it reports the separator
    missing the cursor is at offset 0; when it opened the file and reports
    nothing of the kind, the cursor is strictly inside the file. *)
Theorem open_outcome (QString : Type)
  (fromBytes : list byte -> QString) (differs : QString -> QString -> bool)
  (gitHash uavoHash separator : QString) (openable : bool)
  (st : KmlExport) :
  exists f boxes,
    open QString fromBytes differs gitHash uavoHash separator openable st
    = Some (openable, set_logFile st f, boxes)
    /\ QFile.isOpen f = openable
    /\ QFile.content f = QFile.content (logFile st)
    /\ (In SeparatorNotFound boxes -> QFile.cursor f = 0)
    /\ (openable = true -> ~ In SeparatorNotFound boxes ->
        0 < QFile.cursor f < QFile.size f).
Proof.
  destruct openable.
  - rewrite open_unfold. cbn zeta.
    set (f0 := QFile.mk (QFile.content (logFile st)) 0 true).
    set (boxes := hash_boxes _ _ _ _ _ _ _).
    assert (Hb : ~ In SeparatorNotFound boxes).
    { unfold boxes, hash_boxes.
      repeat match goal with |- context [if ?c then _ else _] =>
        destruct c end; cbn; intuition discriminate. }
    clearbody boxes.
    assert (B0 : 0 <= QFile.cursor f0 <= QFile.size f0)
      by (unfold QFile.size; cbn; lia).
    destruct (skip_lines_keeps 3 f0 B0) as (O3 & C3 & K3).
    pose proof (readLine_cursor (skip_lines 3 f0) ltac:(
      unfold QFile.size; rewrite C3; exact K3)) as K4.
    pose proof (readLine_isOpen (skip_lines 3 f0)) as O4.
    pose proof (readLine_content (skip_lines 3 f0)) as C4.
    unfold QFile.size in K4. rewrite C3 in K4. fold (QFile.size f0) in K4.
    destruct (find_separator_total QString fromBytes differs separator 10
                (fromBytes (fst (readLine (skip_lines 3 f0)))) 0
                (snd (readLine (skip_lines 3 f0))))
      as (cnt & f5 & -> & O5 & C5 & K5).
    + lia.
    + unfold QFile.size. rewrite C4, C3. fold (QFile.size f0). lia.
    + assert (O : QFile.isOpen f5 = true)
        by (rewrite O5, O4, O3; reflexivity).
      assert (C : QFile.content f5 = QFile.content (logFile st))
        by (rewrite C5, C4, C3; reflexivity).
      destruct ((10 <=? cnt) || QFile.atEnd f5) eqn:G.
      * eexists _, _. split; [reflexivity|].
        unfold QFile.seek. rewrite O. cbn.
        split; [reflexivity|]. split; [assumption|].
        split; [reflexivity|].
        intros _ Hn. contradiction Hn. apply in_or_app. right. now left.
      * eexists _, _. split; [reflexivity|].
        apply orb_false_iff in G as [_ G].
        split; [assumption|]. split; [assumption|].
        split; [intros Hi; contradiction|]. intros _ _.
        unfold QFile.atEnd in G. rewrite O in G. apply Z.eqb_neq in G.
        unfold QFile.bytesAvailable in G.
        unfold QFile.size in *. rewrite C4, C3 in K5. rewrite C in G.
        rewrite C.
        change (QFile.content f0) with (QFile.content (logFile st)) in *.
        assert (P : 0 < QFile.cursor (snd (readLine f0))).
        { change 0 with (QFile.cursor f0) at 1.
          apply readLine_advances; [reflexivity|].
          unfold QFile.size. cbn [QFile.cursor QFile.content f0]. lia. }
        assert (M : QFile.cursor (snd (readLine f0))
                    <= QFile.cursor (skip_lines 3 f0)).
        { cbn [skip_lines].
          pose proof (readLine_cursor f0 B0) as K1.
          assert (B1 : 0 <= QFile.cursor (snd (readLine f0))
                       <= QFile.size (snd (readLine f0)))
            by (unfold QFile.size in *; rewrite readLine_content; lia).
          pose proof (readLine_cursor _ B1) as K2.
          assert (B2 : 0 <= QFile.cursor (snd (readLine (snd (readLine f0))))
                       <= QFile.size (snd (readLine (snd (readLine f0)))))
            by (unfold QFile.size in *; rewrite !readLine_content in *; lia).
          pose proof (readLine_cursor _ B2) as K3'.
          lia. }
        lia.
  - unfold open. cbn [negb]. eexists _, _. split; [reflexivity|].
    destruct (QFile.isOpen (logFile st)) eqn:O; cbn;
      repeat split; try assumption; try contradiction; discriminate.
Qed.

(** * The export *)

Lemma streamable_forwardable frames :
  Forall streamable frames -> Forall forwardable frames.
Proof.
  apply Forall_impl. intros fr [[Ht Hl] Hp]. split; [exact Ht|]. lia.
Qed.

(** The streaming pass over a run of forwardable frames, as a term. *)
Lemma parseLogFile_forwardable loc st frames :
  addressable (logFile st) ->
  Forall forwardable frames ->
  QFile.remaining (logFile st) = encode_log frames ->
  parseLogFile loc st
  = Some (Completed, stopExport (stream_frames frames st),
          count_frames frames loc).
Proof.
  intros Ha Hf Hr.
  assert (Hr' : QFile.remaining (logFile st) = encode_log frames ++ [])
    by now rewrite app_nil_r.
  pose proof (parse_loop_forwardable frames st loc [] 0 Ha Hf Hr') as Hl.
  destruct (stream_frames_remaining frames st [] Ha Hr') as [Ha1 Hr1].
  rewrite (parse_loop_atEnd 0) in Hl
    by (apply atEnd_empty; (apply Ha1 || exact Hr1)).
  apply parseLogFile_of_loop in Hl; [exact Hl|].
  rewrite Nat.add_0_r. pose proof (length_encode_log frames).
  pose proof (remaining_length (logFile st)) as Hlen.
  rewrite Hr in Hlen. lia.
Qed.

(** What the index pass leaves alone, and how it leaves the file when it
    fails. *)
Lemma preparseLogFile_keeps indeterminate st ok st' :
  preparseLogFile indeterminate st = Some (ok, st') ->
  kmlTalk st' = kmlTalk st
  /\ timeStamp st' = timeStamp st
  /\ QFile.content (logFile st') = QFile.content (logFile st)
  /\ (ok = false -> QFile.isOpen (logFile st') = false)
  /\ (ok = true -> timestampBuffer st' <> []).
Proof.
  unfold preparseLogFile.
  destruct (preparse_loop _ _ _ _) as [st1|] eqn:L; [|discriminate].
  destruct (preparse_loop_keeps _ _ _ _ _ L) as (C & O & T & K & _).
  cbn [clear_index logFile timeStamp kmlTalk] in *.
  destruct (Z.of_nat (length (timestampBuffer st1)) =? 0) eqn:E;
    intros H; inversion H; subst ok st'; clear H.
  - unfold stopExport, show, set_logFile, QFile.close. cbn.
    repeat split; try assumption; discriminate.
  - unfold set_logFile. cbn.
    split; [assumption|]. split; [assumption|].
    split; [rewrite seek_content; assumption|].
    split; [discriminate|]. intros _ N. rewrite N in E. discriminate.
Qed.

(** What the streaming pass does to the file. *)
Lemma parseLogFile_closes loc st status st' loc' :
  QFile.isOpen (logFile st) = true ->
  0 <= QFile.cursor (logFile st) ->
  parseLogFile loc st = Some (status, st', loc') ->
  QFile.isOpen (logFile st') = false
  /\ QFile.content (logFile st') = QFile.content (logFile st)
  /\ timestampBuffer st' = timestampBuffer st.
Proof.
  intros O Hc. unfold parseLogFile.
  destruct (parse_loop _ _ _) as [[[s st1] loc1]|] eqn:L; [|discriminate].
  intros H. inversion H; subst. clear H.
  destruct (parse_loop_effects _ _ _ _ _ _ O Hc L) as (C & B & _).
  unfold stopExport, set_logFile, QFile.close. cbn. now repeat split.
Qed.

(** Extra X10 ([KmlExport::exportToKML]): a log made of three lines, the
    separator line and a run of frames that both passes accept, exported to
    a file name ending in kml or kmz that can be written: the export
    succeeds, every payload byte has reached the decoder in file order, the
    index lists the frames at their offsets behind the text header, and the
    log is closed.  No box is shown beyond those for the hash lines and for
    timestamps that run backwards. *)
Theorem export_recorded_log (QString : Type)
  (fromBytes : list byte -> QString) (differs : QString -> QString -> bool)
  (gitHash uavoHash separator : QString) (indeterminate : Z -> Z)
  (loc0 : ParseLocals) (suffix : Suffix) (st : KmlExport)
  (first gitLine uavoLine sep : list byte) (frames : list Frame) :
  is_line first -> is_line gitLine -> is_line uavoLine -> is_line sep ->
  differs (fromBytes sep) separator = false ->
  frames <> [] ->
  Forall streamable frames ->
  QFile.content (logFile st)
  = first ++ gitLine ++ uavoLine ++ sep ++ encode_log frames ->
  QFile.size (logFile st) < 2 ^ 62 ->
  suffix <> SuffixOther ->
  exists st',
    exportToKML QString fromBytes differs gitHash uavoHash separator
      indeterminate loc0 true suffix true st
    = Some (true, st',
            hash_boxes QString fromBytes differs gitHash uavoHash
              gitLine uavoLine, [])
    /\ kmlTalk st' = kmlTalk st ++ flat_map payload frames
    /\ timestampPos st'
       = frame_offsets
           (Z.of_nat (length (first ++ gitLine ++ uavoLine ++ sep))) frames
    /\ timestampBuffer st' = map timestampMs frames
    /\ timeStamp st' = last (map timestampMs frames) (timeStamp st)
    /\ shown st' = shown st ++ regressions None frames
    /\ logFile st' = QFile.mk (QFile.content (logFile st)) 0 false.
Proof.
  intros L1 L2 L3 L4 Hsep Hne Hf E Hsz Hsuf.
  destruct (read_header _ _ _ _ _ _ L1 L2 L3 L4 E) as (G & U & F & R).
  set (f4 := QFile.mk (QFile.content (logFile st))
               (Z.of_nat (length (first ++ gitLine ++ uavoLine ++ sep))) true)
    in *.
  assert (Hopen :
    open QString fromBytes differs gitHash uavoHash separator true st
    = Some (true, set_logFile st f4,
            hash_boxes QString fromBytes differs gitHash uavoHash
              gitLine uavoLine)).
  { rewrite open_unfold. cbn zeta. rewrite G, U, F. cbn [fst snd].
    cbn [find_separator]. rewrite Hsep. cbn [andb].
    rewrite atEnd_nonempty; [reflexivity | reflexivity | cbn; lia |].
    rewrite R. destruct frames as [|fr frames]; [congruence|].
    rewrite encode_log_cons. apply encode_frame_nonempty. }
  set (st1 := set_logFile st f4) in *.
  assert (Ha : addressable (logFile st1)).
  { unfold addressable, st1, QFile.size in *. cbn. split; [reflexivity|].
    split; [lia | exact Hsz]. }
  destruct (preparseLogFile_frames indeterminate st1 frames Ha
              (streamable_indexable frames Hf) R)
    as (st2 & Hpre & P & B & S).
  assert (Hemp : isEmpty frames = false)
    by (destruct frames; [congruence | reflexivity]).
  rewrite Hemp in Hpre, S. cbn [negb] in Hpre. rewrite app_nil_r in S.
  assert (Hcur : 0 <= QFile.cursor (logFile st1) < 2 ^ 63).
  { cbn [st1 set_logFile logFile f4 QFile.cursor].
    unfold QFile.size in Hsz. rewrite E in Hsz.
    rewrite !length_app in *. lia. }
  pose proof (preparseLogFile_restores _ _ _ Hcur Hpre) as Hfile.
  destruct (preparseLogFile_keeps _ _ _ _ Hpre) as (K & T & _).
  assert (Ha2 : addressable (logFile st2)) by (rewrite Hfile; exact Ha).
  assert (R2 : QFile.remaining (logFile st2) = encode_log frames)
    by (rewrite Hfile; exact R).
  pose proof (parseLogFile_forwardable loc0 st2 frames Ha2
                (streamable_forwardable frames Hf) R2) as Hparse.
  destruct (stream_frames_fields frames st2) as (K3 & S3 & B3 & P3 & C3 & _).
  exists (stopExport (stream_frames frames st2)).
  split.
  - unfold exportToKML. rewrite Hopen, Hpre, Hparse.
    destruct suffix; [reflexivity | reflexivity | congruence].
  - cbn [stopExport set_logFile kmlTalk timestampPos timestampBuffer
           timeStamp shown logFile].
    split; [rewrite K3, K; reflexivity|].
    split; [rewrite P3, P; reflexivity|].
    split; [rewrite B3, B; reflexivity|].
    split; [rewrite stream_frames_timeStamp, T; reflexivity|].
    split; [rewrite S3, S; reflexivity|].
    unfold QFile.close. rewrite C3, Hfile. reflexivity.
Qed.

Lemma export_recorded_log_witness :
  exists st',
    exportToKML (list byte) (fun l => l) bytes_differ (bytes [97; 98; 99])
      (bytes [49; 50]) separator_line (fun _ => 0) (mkParseLocals 0 0)
      true SuffixKml true recorded_log
    = Some (true, st', [], [])
    /\ kmlTalk st' = bytes [60; 32; 60; 33; 7]
    /\ timestampPos st' = [14; 28].
Proof.
  destruct (export_recorded_log (list byte) (fun l => l) bytes_differ
              (bytes [97; 98; 99]) (bytes [49; 50]) separator_line
              (fun _ => 0) (mkParseLocals 0 0) SuffixKml recorded_log
              (bytes [100; 82; 10]) (bytes [97; 98; 99; 13; 10])
              (bytes [49; 50; 10]) separator_line two_frames)
    as (st' & H & K & P & _).
  - exists (bytes [100; 82]). split; [reflexivity|].
    vm_compute. intuition discriminate.
  - exists (bytes [97; 98; 99; 13]). split; [reflexivity|].
    vm_compute. intuition discriminate.
  - exists (bytes [49; 50]). split; [reflexivity|].
    vm_compute. intuition discriminate.
  - exists (bytes [35; 35]). split; [reflexivity|].
    vm_compute. intuition discriminate.
  - reflexivity.
  - discriminate.
  - repeat constructor; unfold payloadLength; cbn; lia.
  - reflexivity.
  - vm_compute. reflexivity.
  - discriminate.
  - exists st'. repeat split; assumption.
Defined.

(** Extra X11 ([KmlExport::exportToKML]): on any log of less than 2^62
    bytes the export returns and the log file is closed when it does, with
    the bytes it had.  It answers true only when the file opened, the index
    pass found a frame, the file name ends in kml or kmz and the document
    was written.  When it gives up without a write-failure box, which is
    before the streaming pass, the decoder has been handed nothing and the
    current timestamp is untouched. *)
Theorem export_outcome (QString : Type)
  (fromBytes : list byte -> QString) (differs : QString -> QString -> bool)
  (gitHash uavoHash separator : QString) (indeterminate : Z -> Z)
  (loc0 : ParseLocals) (openable : bool) (suffix : Suffix) (written : bool)
  (st : KmlExport) :
  QFile.size (logFile st) < 2 ^ 62 ->
  exists ok st' boxes failures,
    exportToKML QString fromBytes differs gitHash uavoHash separator
      indeterminate loc0 openable suffix written st
    = Some (ok, st', boxes, failures)
    /\ QFile.isOpen (logFile st') = false
    /\ QFile.content (logFile st') = QFile.content (logFile st)
    /\ (ok = true ->
        openable = true /\ suffix <> SuffixOther /\ written = true
        /\ timestampBuffer st' <> [] /\ failures = [])
    /\ (ok = false -> failures = [] ->
        kmlTalk st' = kmlTalk st /\ timeStamp st' = timeStamp st).
Proof.
  intros Hsz. unfold exportToKML.
  destruct (open_keeps QString fromBytes differs gitHash uavoHash separator
              openable st) as (f & boxes & -> & O & C & Hc).
  destruct openable.
  - specialize (Hc eq_refl).
    set (st1 := set_logFile st f).
    assert (Ha : addressable (logFile st1)).
    { unfold addressable, st1, QFile.size in *. cbn.
      rewrite C. repeat split; [assumption | lia | assumption]. }
    destruct (preparseLogFile_total indeterminate st1 Ha) as ([ok st2] & Hpre).
    rewrite Hpre.
    destruct (preparseLogFile_keeps _ _ _ _ Hpre) as (K & T & C2 & Hcl & Hix).
    destruct ok.
    + assert (Hcur : 0 <= QFile.cursor (logFile st1) < 2 ^ 63).
      { cbn [st1 set_logFile logFile]. unfold QFile.size in *.
        rewrite C in Hc. lia. }
      pose proof (preparseLogFile_restores _ _ _ Hcur Hpre) as Hfile.
      assert (O2 : QFile.isOpen (logFile st2) = true)
        by (rewrite Hfile; exact O).
      assert (P2 : 0 <= QFile.cursor (logFile st2))
        by (rewrite Hfile; cbn [st1 set_logFile logFile]; lia).
      destruct (parseLogFile_total loc0 st2 O2 P2)
        as ([[status st3] loc3] & Hparse).
      rewrite Hparse.
      destruct (parseLogFile_closes _ _ _ _ _ O2 P2 Hparse) as (O3 & C3 & B3).
      assert (Cs : QFile.content (logFile st3) = QFile.content (logFile st))
        by (rewrite C3, C2; exact C).
      assert (Bs : timestampBuffer st3 <> [])
        by (rewrite B3; now apply Hix).
      destruct suffix, written; eexists _, _, _, _;
        (split; [reflexivity|]); (split; [exact O3|]);
        (split; [exact Cs|]);
        (split; [intros H; try discriminate H;
                 repeat split; try assumption; discriminate
                |intros H1 H2; (discriminate H1 || discriminate H2)]).
    + eexists _, _, _, _. split; [reflexivity|].
      split; [now apply Hcl|]. split; [rewrite C2; exact C|].
      split; [discriminate|]. intros _ _. now split.
  - eexists _, _, _, _. split; [reflexivity|].
    cbn [set_logFile logFile kmlTalk timeStamp].
    split; [exact O|]. split; [exact C|]. split; [discriminate|].
    intros _ _. now split.
Qed.

Lemma export_outcome_witness :
  exists ok st' boxes failures,
    exportToKML (list byte) (fun l => l) bytes_differ (bytes [97; 98; 99])
      (bytes [49; 50]) separator_line (fun _ => 0) (mkParseLocals 0 0)
      true SuffixKmz false late_separator_log
    = Some (ok, st', boxes, failures)
    /\ QFile.isOpen (logFile st') = false.
Proof.
  destruct (export_outcome (list byte) (fun l => l) bytes_differ
              (bytes [97; 98; 99]) (bytes [49; 50]) separator_line
              (fun _ => 0) (mkParseLocals 0 0) true SuffixKmz false
              late_separator_log)
    as (ok & st' & boxes & failures & H & O & _).
  - vm_compute. reflexivity.
  - exists ok, st', boxes, failures. now split.
Defined.

(** * The placemarks *)

Lemma last_snoc {A : Type} (l : list A) (x d : A) : last (l ++ [x]) d = x.
Proof. apply last_last. Qed.

Section PlacemarkFacts.

Variable HomeLocationData : Type.
Variable homeSet : HomeLocationData -> bool.
Variable Sample : Type.
Variable Point : Type.
Variable toPoint : HomeLocationData -> Sample -> Point.
Variable due : Z -> Z -> bool.

Local Abbreviation slot := (objectUpdated homeSet toPoint due).
Local Abbreviation slots := (objectsUpdated homeSet toPoint due).

Lemma objectsUpdated_cons u updates (s : Tracker HomeLocationData Point) :
  slots (u :: updates) s = slots updates (slot s u).
Proof. reflexivity. Qed.

Lemma chained_snoc (from : Point) track line :
  chained from track ->
  startPoint line = last (map (@endPoint Point) track) from ->
  chained from (track ++ [line]).
Proof.
  revert from. induction track as [|l track IH]; intros from Hc Hs.
  - cbn in *. now split.
  - destruct Hc as [H1 H2]. cbn [app chained]. split; [exact H1|].
    apply IH; [exact H2|]. rewrite Hs. cbn [map]. apply last_cons.
Qed.


(** Once the first point has been taken, every slot keeps the track a
    chain that ends at [oldPoint]. *)
Lemma objectUpdated_chain from (s : Tracker HomeLocationData Point) u :
  firstPoint s = true ->
  chained from (trackFolder s) ->
  last (map (@endPoint Point) (trackFolder s)) from = oldPoint s ->
  firstPoint (slot s u) = true
  /\ chained from (trackFolder (slot s u))
  /\ last (map (@endPoint Point) (trackFolder (slot s u))) from
     = oldPoint (slot s u).
Proof.
  intros Hf Hc Hl. destruct u as [data|status|timeStamp sample];
    cbn [objectUpdated homeLocationUpdated gpsPositionUpdated firstPoint
         trackFolder oldPoint]; try (now repeat split).
  unfold positionActualUpdated.
  destruct (negb (homeSet (homeLocationData s))); [now repeat split|].
  destruct (negb (has_lock (gpsStatus s))); [now repeat split|].
  rewrite Hf. cbn [negb].
  destruct (due timeStamp (lastPlacemarkTime s));
    cbn [firstPoint trackFolder oldPoint];
    (split; [reflexivity|]);
    (split; [apply chained_snoc; [exact Hc | cbn; now rewrite Hl]|]);
    rewrite map_app; cbn [map]; apply last_snoc.
Qed.

Lemma objectsUpdated_chain updates :
  forall from (s : Tracker HomeLocationData Point),
  firstPoint s = true ->
  chained from (trackFolder s) ->
  last (map (@endPoint Point) (trackFolder s)) from = oldPoint s ->
  firstPoint (slots updates s) = true
  /\ chained from (trackFolder (slots updates s))
  /\ last (map (@endPoint Point) (trackFolder (slots updates s))) from
     = oldPoint (slots updates s).
Proof.
  induction updates as [|u updates IH]; intros from s Hf Hc Hl.
  - now repeat split.
  - rewrite objectsUpdated_cons.
    destruct (objectUpdated_chain from s u Hf Hc Hl) as (Hf' & Hc' & Hl').
    now apply IH.
Qed.

(** Until the first point has been taken, a slot draws nothing. *)
Lemma objectUpdated_before_first (s : Tracker HomeLocationData Point) u :
  firstPoint s = false ->
  trackFolder (slot s u) = trackFolder s
  /\ timestampFolder (slot s u) = timestampFolder s
  /\ wallAxes (slot s u) = wallAxes s
  /\ lastPlacemarkTime (slot s u) = lastPlacemarkTime s.
Proof.
  intros Hf. destruct u as [data|status|timeStamp sample];
    cbn [objectUpdated homeLocationUpdated gpsPositionUpdated firstPoint
         trackFolder timestampFolder wallAxes lastPlacemarkTime];
    try (now repeat split).
  unfold positionActualUpdated.
  destruct (negb (homeSet (homeLocationData s))); [now repeat split|].
  destruct (negb (has_lock (gpsStatus s))); [now repeat split|].
  rewrite Hf. cbn. now repeat split.
Qed.

(** The loop over the wall axes, on the five lists of the constructor. *)
Lemma wall_axes_five (p : Point) (h : HomeLocationData) a0 a1 a2 a3 a4 :
  fold_left
    (fun axes i => add_latlngalt i (mkWallCoordinate p (Z.of_nat i) h) axes)
    (seq 0 numberOfWallAxes) [a0; a1; a2; a3; a4]
  = [a0 ++ [mkWallCoordinate p 0 h]; a1 ++ [mkWallCoordinate p 1 h];
     a2 ++ [mkWallCoordinate p 2 h]; a3 ++ [mkWallCoordinate p 3 h];
     a4 ++ [mkWallCoordinate p 4 h]].
Proof. reflexivity. Qed.

Lemma five_lists {A : Type} (l : list A) :
  length l = numberOfWallAxes ->
  exists a0 a1 a2 a3 a4, l = [a0; a1; a2; a3; a4].
Proof.
  destruct l as [|a0 [|a1 [|a2 [|a3 [|a4 [|a5 l]]]]]]; try discriminate.
  intros _. now exists a0, a1, a2, a3, a4.
Qed.

(** A slot keeps the five wall axes over the end points of the track, each
    at its own level. *)
Lemma objectUpdated_walls (s : Tracker HomeLocationData Point) u :
  length (wallAxes s) = numberOfWallAxes ->
  (forall i axis, nth_error (wallAxes s) i = Some axis ->
     map (@over _ _) axis = map (@endPoint _) (trackFolder s)
     /\ Forall (fun c => level c = Z.of_nat i) axis) ->
  length (wallAxes (slot s u)) = numberOfWallAxes
  /\ (forall i axis, nth_error (wallAxes (slot s u)) i = Some axis ->
        map (@over _ _) axis = map (@endPoint _) (trackFolder (slot s u))
        /\ Forall (fun c => level c = Z.of_nat i) axis).
Proof.
  intros Hn Hw. destruct u as [data|status|timeStamp sample];
    cbn [objectUpdated homeLocationUpdated gpsPositionUpdated
         trackFolder wallAxes]; try (now split).
  unfold positionActualUpdated.
  destruct (negb (homeSet (homeLocationData s))); [now split|].
  destruct (negb (has_lock (gpsStatus s))); [now split|].
  destruct (negb (firstPoint s)); [now split|].
  destruct (five_lists _ Hn) as (a0 & a1 & a2 & a3 & a4 & E).
  assert (G : forall i axis,
    nth_error
      [a0 ++ [mkWallCoordinate
                (toPoint (homeLocationData s) sample) 0 (homeLocationData s)];
       a1 ++ [mkWallCoordinate
                (toPoint (homeLocationData s) sample) 1 (homeLocationData s)];
       a2 ++ [mkWallCoordinate
                (toPoint (homeLocationData s) sample) 2 (homeLocationData s)];
       a3 ++ [mkWallCoordinate
                (toPoint (homeLocationData s) sample) 3 (homeLocationData s)];
       a4 ++ [mkWallCoordinate
                (toPoint (homeLocationData s) sample) 4 (homeLocationData s)]]
      i = Some axis ->
    map (@over _ _) axis
    = map (@endPoint _)
        (trackFolder s
         ++ [mkLineString (oldPoint s) (toPoint (homeLocationData s) sample)
               timeStamp])
    /\ Forall (fun c => level c = Z.of_nat i) axis).
  { rewrite E in Hw. intros i axis Hi.
    destruct i as [|[|[|[|[|i]]]]]; cbn [nth_error] in Hi;
      try (destruct i; discriminate Hi);
      injection Hi as <-;
      match goal with
      | |- context [Z.of_nat ?n] =>
          destruct (Hw n _ eq_refl) as [Ho Hv]
      end;
      (split;
       [rewrite !map_app, Ho; reflexivity
       |apply Forall_app; split;
        [exact Hv | constructor; [reflexivity | constructor]]]). }
  destruct (due timeStamp (lastPlacemarkTime s));
    cbn [wallAxes trackFolder]; rewrite E, wall_axes_five;
    (split; [reflexivity | exact G]).
Qed.


(** Without a home location the position slot returns at once. *)
Lemma objectUpdated_home_unset (s : Tracker HomeLocationData Point) u :
  homeSet (homeLocationData s) = false ->
  match u with
  | HomeLocationUpdate _ data => homeSet data = false
  | _ => True
  end ->
  homeSet (homeLocationData (slot s u)) = false
  /\ drawn (slot s u) = drawn s.
Proof.
  intros Hh Hu. destruct u as [data|status|timeStamp sample];
    cbn [objectUpdated homeLocationUpdated gpsPositionUpdated];
    try (now split).
  unfold positionActualUpdated. rewrite Hh. now split.
Qed.

(** Without a 2D or 3D fix the position slot returns at once. *)
Lemma objectUpdated_no_lock (s : Tracker HomeLocationData Point) u :
  has_lock (gpsStatus s) = false ->
  match u with
  | GPSPositionUpdate _ _ status => has_lock status = false
  | _ => True
  end ->
  has_lock (gpsStatus (slot s u)) = false
  /\ drawn (slot s u) = drawn s.
Proof.
  intros Hg Hu. destruct u as [data|status|timeStamp sample];
    cbn [objectUpdated homeLocationUpdated gpsPositionUpdated];
    try (now split).
  unfold positionActualUpdated. rewrite Hg.
  destruct (negb (homeSet (homeLocationData s))); now split.
Qed.

End PlacemarkFacts.

(** Extra X12 ([KmlExport::positionActualUpdated]): whatever updates
    arrive, and in whatever order, the segments added to an empty track
    folder form one chain: each starts where the one before ends, and the
    last ends at [oldPoint].  While the static flag is clear nothing is
    drawn; if it is already set when the first update arrives, the chain
    starts at the [oldPoint] the exporter then holds. *)
Theorem track_is_a_chain (HomeLocationData : Type)
  (homeSet : HomeLocationData -> bool) (Sample Point : Type)
  (toPoint : HomeLocationData -> Sample -> Point) (due : Z -> Z -> bool)
  (updates : list (Update HomeLocationData Sample))
  (s : Tracker HomeLocationData Point) :
  trackFolder s = [] ->
  exists from,
    chained from
      (trackFolder (objectsUpdated homeSet toPoint due updates s))
    /\ (firstPoint s = true -> from = oldPoint s)
    /\ (firstPoint (objectsUpdated homeSet toPoint due updates s) = true ->
        last (map (@endPoint Point)
                (trackFolder (objectsUpdated homeSet toPoint due updates s)))
          from
        = oldPoint (objectsUpdated homeSet toPoint due updates s))
    /\ (firstPoint (objectsUpdated homeSet toPoint due updates s) = false ->
        trackFolder (objectsUpdated homeSet toPoint due updates s) = []).
Proof.
  revert s. induction updates as [|u updates IH]; intros s He.
  - exists (oldPoint s). cbn. rewrite He. cbn. now repeat split.
  - destruct (firstPoint s) eqn:F.
    + destruct (objectsUpdated_chain _ homeSet _ _ toPoint due (u :: updates)
                  (oldPoint s) s F) as (F' & C & L).
      * now rewrite He.
      * now rewrite He.
      * exists (oldPoint s). split; [exact C|]. split; [reflexivity|].
        split; [intros _; exact L|]. rewrite F'. discriminate.
    + rewrite objectsUpdated_cons.
      destruct (objectUpdated_before_first _ homeSet _ _ toPoint due s u F)
        as (T & _).
      destruct (IH (objectUpdated homeSet toPoint due s u))
        as (from & C & _ & L & N); [now rewrite T|].
      exists from. split; [exact C|]. split; [discriminate|]. now split.
Qed.

Lemma track_is_a_chain_witness :
  exists from,
    chained from
      (trackFolder
         (objectsUpdated sample_home sample_point sample_due sample_flight
            fresh_tracker))
    /\ length
         (trackFolder
            (objectsUpdated sample_home sample_point sample_due sample_flight
               fresh_tracker)) = 3%nat.
Proof.
  destruct (track_is_a_chain bool sample_home Z Z sample_point sample_due
              sample_flight fresh_tracker) as (from & C & _).
  - reflexivity.
  - exists from. split; [exact C | reflexivity].
Defined.



(** Extra X14 ([KmlExport::positionActualUpdated]): starting from the five
    empty wall axes of the constructor and an empty track folder, after any
    updates there are still five axes, each with one coordinate per track
    segment: axis [i] runs over the end points of the segments, in order,
    all at level [i]. *)
Theorem wall_axes_follow_track (HomeLocationData : Type)
  (homeSet : HomeLocationData -> bool) (Sample Point : Type)
  (toPoint : HomeLocationData -> Sample -> Point) (due : Z -> Z -> bool)
  (updates : list (Update HomeLocationData Sample))
  (s : Tracker HomeLocationData Point) :
  trackFolder s = [] ->
  wallAxes s = repeat [] numberOfWallAxes ->
  length (wallAxes (objectsUpdated homeSet toPoint due updates s))
  = numberOfWallAxes
  /\ forall i axis,
       nth_error (wallAxes (objectsUpdated homeSet toPoint due updates s)) i
       = Some axis ->
       map (@over HomeLocationData Point) axis
       = map (@endPoint Point)
           (trackFolder (objectsUpdated homeSet toPoint due updates s))
       /\ Forall (fun c => level c = Z.of_nat i) axis.
Proof.
  intros Ht Hw.
  assert (G : forall us (t : Tracker HomeLocationData Point),
    length (wallAxes t) = numberOfWallAxes
    /\ (forall i axis, nth_error (wallAxes t) i = Some axis ->
          map (@over HomeLocationData Point) axis
          = map (@endPoint Point) (trackFolder t)
          /\ Forall (fun c => level c = Z.of_nat i) axis) ->
    length (wallAxes (objectsUpdated homeSet toPoint due us t))
    = numberOfWallAxes
    /\ (forall i axis,
          nth_error (wallAxes (objectsUpdated homeSet toPoint due us t)) i
          = Some axis ->
          map (@over HomeLocationData Point) axis
          = map (@endPoint Point)
              (trackFolder (objectsUpdated homeSet toPoint due us t))
          /\ Forall (fun c => level c = Z.of_nat i) axis)).
  { induction us as [|u us IH]; intros t [N W].
    - now split.
    - rewrite objectsUpdated_cons. apply IH.
      now apply objectUpdated_walls. }
  apply G. rewrite Hw, Ht. split; [reflexivity|].
  intros i axis Hi. apply nth_error_In, repeat_spec in Hi. subst axis.
  split; [reflexivity | constructor].
Qed.

Lemma wall_axes_follow_track_witness :
  length
    (wallAxes
       (objectsUpdated sample_home sample_point sample_due sample_flight
          fresh_tracker)) = numberOfWallAxes
  /\ map (@length _)
       (wallAxes
          (objectsUpdated sample_home sample_point sample_due sample_flight
             fresh_tracker)) = [3; 3; 3; 3; 3]%nat.
Proof.
  destruct (wall_axes_follow_track bool sample_home Z Z sample_point
              sample_due sample_flight fresh_tracker) as (N & _).
  - reflexivity.
  - reflexivity.
  - split; [exact N | reflexivity].
Defined.

(** Extra X15 ([KmlExport::positionActualUpdated],
    [KmlExport::homeLocationUpdated], [KmlExport::gpsPositionUpdated]):
    as long as the home location has never been set, or the GPS has never
    reported a 2D or 3D fix, no update draws anything: folders, wall axes,
    [oldPoint], [lastPlacemarkTime] and the static flag stay as they
    were. *)
Theorem nothing_drawn_without_lock (HomeLocationData : Type)
  (homeSet : HomeLocationData -> bool) (Sample Point : Type)
  (toPoint : HomeLocationData -> Sample -> Point) (due : Z -> Z -> bool)
  (updates : list (Update HomeLocationData Sample))
  (s : Tracker HomeLocationData Point) :
  homeSet (homeLocationData s) = false /\ home_never_set homeSet updates
  \/ has_lock (gpsStatus s) = false /\ never_locked updates ->
  drawn (objectsUpdated homeSet toPoint due updates s) = drawn s.
Proof.
  revert s. induction updates as [|u updates IH]; intros s H;
    [reflexivity|].
  rewrite objectsUpdated_cons.
  destruct H as [[Hh Hn]|[Hg Hn]]; inversion Hn as [|? ? Hu Hrest]; subst.
  - destruct (objectUpdated_home_unset _ homeSet _ _ toPoint due s u Hh Hu)
      as [Hh' Hd].
    rewrite <- Hd. apply IH. left. now split.
  - destruct (objectUpdated_no_lock _ homeSet _ _ toPoint due s u Hg Hu)
      as [Hg' Hd].
    rewrite <- Hd. apply IH. right. now split.
Qed.

Lemma nothing_drawn_without_lock_witness :
  drawn
    (objectsUpdated sample_home sample_point sample_due sample_flight_no_fix
       fresh_tracker)
  = drawn fresh_tracker.
Proof.
  apply (nothing_drawn_without_lock bool sample_home Z Z sample_point
           sample_due sample_flight_no_fix fresh_tracker).
  right. split; [reflexivity|].
  repeat constructor.
Defined.
